(** * thriftpy/parser/parser.py: the IDL parser's semantic actions

    A shallow embedding of [src/thriftpy/parser/parser.py] and the properties
    of its schema model.

    Conventions of the embedding.
    - The language is Python 3: the built-in [map] returns an iterator that
      does no work until it is consumed, [bool] is a subclass of [int], and a
      dict iterates in insertion order.
    - Mutable Python objects (list, set, dict, struct instance) live in a heap
      and are denoted by references, so that aliasing and in-place updates are
      visible.
    - The tokenizer and the LALR driver are external (ply); the input of the
      embedding is the derivation tree of a file, and the actions run in
      reduction order (left to right, children before parents).
    - Exceptions are values of [exn]; a computation returns its result or the
      exception together with the state reached when it was raised.
    - Attribute lookup finds the names that the parser binds ([setattr] on a
      module or a class, the class attributes set by the builders); every
      other attribute of an object (those of [object], [type], [int], [str]
      and of the module type, and the integer codes of [TType]) comes from
      the Python environment, which is a parameter [python_objects] of the
      development: the properties hold for every such environment. *)

From Stdlib Require Import ZArith Ascii String.
From stdpp Require Import base list strings gmap.

Local Open Scope string_scope.
Local Open Scope list_scope.
Local Open Scope Z_scope.

(** ** Python values and the heap *)

Abbreviation loc := nat.

Inductive value : Type :=
| VNone
| VBool (b : bool)
| VInt (n : Z)
| VFloat (m e : Z)          (* the double m * 2^e *)
| VStr (s : string)
| VRef (l : loc)            (* a list, set, dict or struct instance *)
| VObj (qualname : string). (* a class, module or type-tag object *)

Inductive obj : Type :=
| OList (items : list value)
| OSet (items : list value)
| ODict (entries : list (value * value))
| OInst (cid : nat) (attrs : list (string * value)).

Arguments VRef l%_nat_scope.
Arguments OInst cid%_nat_scope attrs%_list_scope.

Abbreviation heap := (list obj).

(** ** Exceptions *)

Inductive parser_error : Type :=
| TypeErrorForConstant (name : string)
| TypeErrorForField (name : string)
| NoEnumValueOrConstant (path : string)
| NoTypeFound (path : string)
| CantFindService (path name : string)
| CantExtend (path : string)
| FieldRequired (key tname : string)
| NoFieldNamed (key : value) (tname : string)
| NoNamedValue (ename : string) (v : value)
| PathSuffix
| ModuleSuffix.

Inductive exn : Type :=
| AssertionError
| TypeError (what : string)
| ThriftParserError (e : parser_error)
| IOError (path : string)
| IndexError
| KeyError (key : value)
| RecursionError.

Inductive res (A : Type) : Type :=
| Ok (a : A)
| Raise (e : exn).
Arguments Ok {A} a.
Arguments Raise {A} e.

(** State and exception monad; the state survives a raise. *)
Definition SE (S A : Type) : Type := S -> res A * S.

Definition ret {S A} (a : A) : SE S A := fun s => (Ok a, s).
Definition raise {S A} (e : exn) : SE S A := fun s => (Raise e, s).
Definition bind {S A B} (m : SE S A) (k : A -> SE S B) : SE S B :=
  fun s => match m s with
           | (Ok a, s') => k a s'
           | (Raise e, s') => (Raise e, s')
           end.
Definition get {S} : SE S S := fun s => (Ok s, s).
Definition lift_res {S A} (r : res A) : SE S A := fun s => (r, s).

Declare Scope se_scope.
Delimit Scope se_scope with se.
Notation "x <- m ;; k" := (bind m (fun x => k))
  (at level 100, m at next level, right associativity) : se_scope.
Notation "m ;;; k" := (bind m (fun _ => k))
  (at level 100, right associativity) : se_scope.
Local Open Scope se_scope.

(** [assert c] *)
Definition py_assert {S} (c : bool) : SE S unit :=
  if c then ret tt else raise AssertionError.

(** [for x in l: body(x)] over a list of already computed items. *)
Fixpoint for_each {S A} (l : list A) (body : A -> SE S unit) : SE S unit :=
  match l with
  | [] => ret tt
  | x :: l' => body x ;;; for_each l' body
  end.

Definition M (A : Type) : Type := SE heap A.

Definition alloc (o : obj) : M loc :=
  fun h => (Ok (List.length h), h ++ [o]).

(** ** Python equality and hashing on the values a literal can hold *)

Definition num_of (v : value) : option (Z * Z) :=
  match v with
  | VBool b => Some (if b then 1 else 0, 0)
  | VInt n => Some (n, 0)
  | VFloat m e => Some (m, e)
  | _ => None
  end.

(** m1 * 2^e1 = m2 * 2^e2, compared exactly as Python does. *)
Definition dyadic_eqb (a b : Z * Z) : bool :=
  let e := Z.min a.2 b.2 in
  (a.1 * 2 ^ (a.2 - e) =? b.1 * 2 ^ (b.2 - e)).

Definition py_eq (a b : value) : bool :=
  match num_of a, num_of b with
  | Some x, Some y => dyadic_eqb x y
  | Some _, None | None, Some _ => false
  | None, None =>
      match a, b with
      | VNone, VNone => true
      | VStr s, VStr s' => String.eqb s s'
      | VRef l, VRef l' => Nat.eqb l l'
      | VObj q, VObj q' => String.eqb q q'
      | _, _ => false
      end
  end.

(** list, set and dict are unhashable; everything else hashes. *)
Definition hashable (h : heap) (v : value) : bool :=
  match v with
  | VRef l => match h !! l with
              | Some (OInst _ _) => true
              | _ => false
              end
  | _ => true
  end.

(** Insertion-ordered dict with unique keys, as an association list. *)
Section assoc.
Context {K V : Type} (eqb : K -> K -> bool).

Fixpoint dict_get (d : list (K * V)) (k : K) : option V :=
  match d with
  | [] => None
  | (k', v) :: d' => if eqb k' k then Some v else dict_get d' k
  end.

(** [d[k] = v]: overwrite in place, or append a new entry. *)
Fixpoint dict_set (d : list (K * V)) (k : K) (v : V) : list (K * V) :=
  match d with
  | [] => [(k, v)]
  | (k', v') :: d' =>
      if eqb k' k then (k', v) :: d' else (k', v') :: dict_set d' k v
  end.

Definition dict_has (d : list (K * V)) (k : K) : bool :=
  match dict_get d k with Some _ => true | None => false end.
End assoc.

(** [set(items)] and [x in s] on a set kept as a list of distinct values. *)
Definition set_has (s : list value) (x : value) : bool :=
  existsb (py_eq x) s.
Definition set_add (s : list value) (x : value) : list value :=
  if set_has s x then s else s ++ [x].
Definition set_of_list (items : list value) : list value :=
  fold_left set_add items [].

(** ** isinstance *)

Definition isinstance_bool (v : value) : bool :=
  match v with VBool _ => true | _ => false end.
(** [bool] is a subclass of [int]. *)
Definition isinstance_int (v : value) : bool :=
  match v with VInt _ | VBool _ => true | _ => false end.
Definition isinstance_float (v : value) : bool :=
  match v with VFloat _ _ => true | _ => false end.
Definition isinstance_str (v : value) : bool :=
  match v with VStr _ => true | _ => false end.

Definition obj_of (h : heap) (v : value) : option obj :=
  match v with VRef l => h !! l | _ => None end.

Definition isinstance_list (h : heap) (v : value) : bool :=
  match obj_of h v with Some (OList _) => true | _ => false end.
Definition isinstance_set (h : heap) (v : value) : bool :=
  match obj_of h v with Some (OSet _) => true | _ => false end.
Definition isinstance_dict (h : heap) (v : value) : bool :=
  match obj_of h v with Some (ODict _) => true | _ => false end.
Definition isinstance_cls (h : heap) (v : value) (cid : nat) : bool :=
  match obj_of h v with Some (OInst c _) => Nat.eqb c cid | _ => false end.

(** ** Type tags and class descriptors

    A type tag is one of the [TType] codes, or a pair [(code, argument)]:
    [(LIST, e)], [(SET, e)], [(MAP, (k, v))], [(I32, enum class)] and
    [(STRUCT, struct class)].  The numeric codes live in [thrift.py]; the
    parser only compares them for equality, so a closed variant stands for
    them.  [TOther] is what [ref_type] yields when the path names something
    that is no type (a module, a service class, a constant): an object that
    equals no code and cannot be indexed; an integer constant that equals
    the code of a base type is that code, and is the tag of that type. *)

Inductive base_type : Type :=
| BOOL | BYTE | I16 | I32 | I64 | DOUBLE | STRING | BINARY.

Inductive base_cls : Type := TPayload | TException.

(** The class built by [_make_enum]: the set that the first loop stores as
    [_named_values], and the members set by [setattr(cls, key, val)], in
    the order of the assignments.  The members are set after the set, on
    the same class: a member called [_named_values] replaces the set as
    the attribute of that name (see [__cast_enum]). *)
Record enum_cls : Type := EnumCls {
  en_module : string;
  en_name : string;
  _named_values : gset Z;
  en_members : list (string * Z)
}.

(** [getattr(cls, key)] for a member of an enum class: the last [setattr]
    wins. *)
Definition enum_getattr (c : enum_cls) (key : string) : option Z :=
  dict_get String.eqb (rev (en_members c)) key.

(** The class built by [_make_struct].  An entry of [thrift_spec] is the
    tuple of [_ttype_spec]; [oneway] is only set on a [_result] class. *)
Record struct_cls_ (T : Type) : Type := StructCls {
  st_cid : nat;
  st_module : string;
  st_name : string;
  st_base : base_cls;
  thrift_spec : list (Z * (T * string * bool));
  default_spec : list (string * value);
  _tspec : list (string * (bool * T));
  oneway : option bool
}.
Arguments StructCls {T} st_cid%_nat_scope.
Arguments st_cid {T}.
Arguments st_module {T}.
Arguments st_name {T}.
Arguments st_base {T}.
Arguments thrift_spec {T}.
Arguments default_spec {T}.
Arguments _tspec {T}.
Arguments oneway {T}.

#[local] Set Warnings "-register-all".
Inductive ttype : Type :=
| TBase (b : base_type)
| TVoid
| TList (e : ttype)
| TSet (e : ttype)
| TMap (k v : ttype)
| TEnum (c : enum_cls)
| TStruct (c : struct_cls_ ttype)
| TOther (qualname : string).

Abbreviation struct_cls := (struct_cls_ ttype).

(** ** The constant caster *)

Definition caster : Type := value -> M value.

Definition _cast_bool : caster := fun v =>
  py_assert (isinstance_bool v) ;;; ret v.
Definition _cast_byte : caster := fun v =>
  py_assert (isinstance_str v) ;;; ret v.
Definition _cast_i16 : caster := fun v =>
  py_assert (isinstance_int v) ;;; ret v.
Definition _cast_i32 : caster := fun v =>
  py_assert (isinstance_int v) ;;; ret v.
Definition _cast_i64 : caster := fun v =>
  py_assert (isinstance_int v) ;;; ret v.
Definition _cast_double : caster := fun v =>
  py_assert (isinstance_float v) ;;; ret v.
Definition _cast_string : caster := fun v =>
  py_assert (isinstance_str v) ;;; ret v.
Definition _cast_binary : caster := fun v =>
  py_assert (isinstance_str v) ;;; ret v.

(** The iterator returned by Python 3's [map(f, iterable)]: it holds the
    function and the iterable, and applies [f] only when [next] is called
    on it. *)
Inductive map_object : Type :=
| MapObject (f : caster) (iterable : value).

Definition py_map (f : caster) (iterable : value) : map_object :=
  MapObject f iterable.

(** [__cast_list]: the element caster is looked up, the [map] object is
    built and dropped, and [v] itself is returned. *)
Definition __cast_list (elem : res caster) : caster := fun v =>
  h <- get ;;
  py_assert (isinstance_list h v) ;;;
  f <- lift_res elem ;;
  let _ := py_map f v in
  ret v.

Definition items_of (v : value) : M (list value) := fun h =>
  match obj_of h v with
  | Some (OList l) | Some (OSet l) => (Ok l, h)
  | _ => (Raise (TypeError "object is not iterable"), h)
  end.

(** [set(v)]: a new set object; an unhashable element raises. *)
Definition py_set (v : value) : M value :=
  l <- items_of v ;;
  h <- get ;;
  if forallb (hashable h) l
  then r <- alloc (OSet (set_of_list l)) ;; ret (VRef r)
  else raise (TypeError "unhashable type").

Definition __cast_set (elem : res caster) : caster := fun v =>
  h <- get ;;
  py_assert (isinstance_list h v || isinstance_set h v) ;;;
  f <- lift_res elem ;;
  let _ := py_map f v in
  if negb (isinstance_set h v) then py_set v else ret v.

Definition dict_entries (v : value) : M (list (value * value)) := fun h =>
  match obj_of h v with
  | Some (ODict d) => (Ok d, h)
  | _ => (Raise (TypeError "object is not a dict"), h)
  end.

(** [v[key]] *)
Definition dict_getitem (v key : value) : M value :=
  d <- dict_entries v ;;
  match dict_get py_eq d key with
  | Some x => ret x
  | None => raise (KeyError key)
  end.

(** [v[key] = x] *)
Definition dict_setitem (v key x : value) : M unit := fun h =>
  match v with
  | VRef l =>
      match h !! l with
      | Some (ODict d) =>
          if hashable h key
          then (Ok tt, <[l := ODict (dict_set py_eq d key x)]> h)
          else (Raise (TypeError "unhashable type"), h)
      | _ => (Raise (TypeError "object does not support item assignment"), h)
      end
  | _ => (Raise (TypeError "object does not support item assignment"), h)
  end.

(** [__cast_map]: in [v[ck(key)] = cv(v[key])] the right-hand side runs
    first.  The loop runs over the keys present when it starts: a caster
    returns a hashable argument itself (see [cast_hashable_id]), so the
    assignment never adds a key. *)
Definition __cast_map (ck cv : res caster) : caster := fun v =>
  h <- get ;;
  py_assert (isinstance_dict h v) ;;;
  d <- dict_entries v ;;
  for_each (d.*1) (fun key =>
    fv <- lift_res cv ;;
    x <- dict_getitem v key ;;
    x' <- fv x ;;
    fk <- lift_res ck ;;
    key' <- fk key ;;
    dict_setitem v key' x') ;;;
  ret v.

Definition in_enum (c : enum_cls) (v : value) : bool :=
  match v with
  | VInt n => bool_decide (n ∈ _named_values c)
  | VBool b => bool_decide ((if b then 1 else 0) ∈ _named_values c)
  | _ => false
  end.

(** [__cast_enum].  [getattr(t[1], '_named_values')] is the set of the
    class, unless a member of the enum is called [_named_values]: it is
    then the value of that member, and [v in] an integer raises. *)
Definition __cast_enum (c : enum_cls) : caster := fun v =>
  py_assert (isinstance_int v) ;;;
  match enum_getattr c "_named_values" with
  | Some _ => raise (TypeError "argument of type 'int' is not iterable")
  | None =>
      if in_enum c v then ret v
      else raise (ThriftParserError (NoNamedValue (en_name c) v))
  end.

(** The default list as it was when [_make_struct] called [gen_init]:
    [_make_service] inserts [success] at the head of the list of a
    [_result] class afterwards, and sets [oneway] on that class only. *)
Definition init_spec (c : struct_cls) : list (string * value) :=
  match oneway c with
  | Some _ => tail (default_spec c)
  | None => default_spec c
  end.

(** Modelled from the spec: the keyword constructor that the external
    [gen_init] installs on a struct class when the class is built, called
    with the entries of [v] as keyword arguments; every name that the
    default list held at that time becomes an attribute, set to the
    keyword argument when one is given and to the default otherwise. *)
Definition construct (c : struct_cls) (v : value) : M value :=
  d <- dict_entries v ;;
  r <- alloc (OInst (st_cid c)
               (map (fun nd : string * value =>
                       (nd.1, default nd.2 (dict_get py_eq d (VStr nd.1))))
                    (init_spec c))) ;;
  ret (VRef r).

Definition tspec_get {A} (ts : list (string * A)) (key : value) : option A :=
  match key with
  | VStr s => dict_get String.eqb ts s
  | _ => None
  end.

(** [__cast_struct]; [fields] pairs every key of [_tspec] with its
    requiredness and the caster [_cast(tspec[key][1])]. *)
Definition __cast_struct (c : struct_cls)
    (fields : list (string * (bool * res caster))) : caster := fun v =>
  h <- get ;;
  if isinstance_cls h v (st_cid c) then ret v else
  py_assert (isinstance_dict h v) ;;;
  for_each fields (fun kf =>
    d <- dict_entries v ;;
    if kf.2.1 && negb (dict_has py_eq d (VStr kf.1))
    then raise (ThriftParserError (FieldRequired kf.1 (st_name c)))
    else ret tt) ;;;
  d <- dict_entries v ;;
  for_each (d.*1) (fun key =>
    match tspec_get fields key with
    | None => raise (ThriftParserError (NoFieldNamed key (st_name c)))
    | Some rf =>
        f <- lift_res rf.2 ;;
        x <- dict_getitem v key ;;
        x' <- f x ;;
        dict_setitem v key x'
    end) ;;;
  construct c v.

(** [_cast(t)]: the caster for a type tag.  A tag that matches no branch
    ([void], which is not a field type, or an object that is no type)
    makes [t[0]] raise. *)
Fixpoint _cast (t : ttype) : res caster :=
  match t with
  | TBase BOOL => Ok _cast_bool
  | TBase BYTE => Ok _cast_byte
  | TBase I16 => Ok _cast_i16
  | TBase I32 => Ok _cast_i32
  | TBase I64 => Ok _cast_i64
  | TBase DOUBLE => Ok _cast_double
  | TBase STRING => Ok _cast_string
  | TBase BINARY => Ok _cast_binary
  | TList e => Ok (__cast_list (_cast e))
  | TSet e => Ok (__cast_set (_cast e))
  | TMap k v => Ok (__cast_map (_cast k) (_cast v))
  | TEnum c => Ok (__cast_enum c)
  | TStruct c =>
      Ok (__cast_struct c
            (map (fun kf : string * (bool * ttype) =>
                    (kf.1, (kf.2.1, _cast kf.2.2)))
                 (_tspec c)))
  | TVoid => Raise (TypeError "'int' object is not subscriptable")
  | TOther _ => Raise (TypeError "object is not subscriptable")
  end.

(** [_cast(t)(v)] *)
Definition cast (t : ttype) (v : value) : M value :=
  f <- lift_res (_cast t) ;; f v.

(** ** The schema model builders *)

(** The value [p[0]] of a [field] production:
    [[id, required, type, name, default]]. *)
Record field : Type := Field {
  f_id : Z;
  f_req : bool;
  f_type : ttype;
  f_name : string;
  f_val : value
}.

(** The value [p[0]] of a [function] production:
    [[oneway, type, name, fields, throws]]. *)
Record func : Type := Func {
  fn_oneway : bool;
  fn_type : ttype;
  fn_name : string;
  fn_fields : list field;
  fn_throws : list field
}.

(** The class built by [_make_service]; [sv_attrs] holds the [_args] and
    [_result] classes set on it.  The class after [extends] is any class
    that has an attribute [thrift_services]: a service class, or an enum
    class one of whose members has that name ([EnumBase]). *)
Inductive service_cls : Type :=
| ServiceCls (sv_module sv_name : string) (sv_extends : option service_cls)
             (sv_attrs : list (string * struct_cls))
             (thrift_services : list string)
| EnumBase (c : enum_cls).

(** [_ttype_spec]: [(ttype, name, required)] for an integer code and
    [(ttype[0], name, ttype[1], required)] for a pair; the entry keeps the
    tag whole.  Indexing an object that is no tag raises.  ([TOther] also
    stands for an integer constant that is the code of no base type, which
    the source would store as it is: the properties of the class builders
    below are about declarations whose types are tags.) *)
Definition _ttype_spec (t : ttype) (name : string) (required : bool)
  : res (ttype * string * bool) :=
  match t with
  | TOther _ => Raise (TypeError "object is not subscriptable")
  | _ => Ok (t, name, required)
  end.

(** *** _make_enum *)

(** The first loop of [_make_enum]: the explicit values only. *)
Fixpoint named_values_of (kvs : list (string * option Z)) (acc : gset Z)
  : gset Z :=
  match kvs with
  | [] => acc
  | (_, Some val) :: kvs' => named_values_of kvs' (acc ∪ {[ val ]})
  | (_, None) :: kvs' => named_values_of kvs' acc
  end.

(** The numbering loop: [item[1] = val + 1] when it is [None], then
    [val = item[1]]. *)
Fixpoint number_items (val : Z) (kvs : list (string * option Z))
  : list (string * Z) :=
  match kvs with
  | [] => []
  | (key, o) :: kvs' =>
      let item1 := match o with None => val + 1 | Some x => x end in
      (key, item1) :: number_items item1 kvs'
  end.

Definition _make_enum (module name : string) (kvs : list (string * option Z))
  : enum_cls :=
  let named_values := named_values_of kvs ∅ in
  let members :=
    match kvs with
    | [] => []
    | (_, first) :: _ =>
        let val := match first with None => -1 | Some x => x end in
        number_items val kvs
    end in
  EnumCls module name named_values members.

(** *** _make_struct *)

(** The loop of [_make_struct] over the fields, on the three tables. *)
Fixpoint struct_tables (fields : list field)
    (ts : list (Z * (ttype * string * bool)))
    (ds : list (string * value))
    (tsp : list (string * (bool * ttype)))
  : res (list (Z * (ttype * string * bool)) * list (string * value) *
         list (string * (bool * ttype))) :=
  match fields with
  | [] => Ok (ts, ds, tsp)
  | f :: fields' =>
      match _ttype_spec (f_type f) (f_name f) (f_req f) with
      | Raise e => Raise e
      | Ok sp =>
          struct_tables fields'
            (dict_set Z.eqb ts (f_id f) sp)
            (ds ++ [(f_name f, f_val f)])
            (dict_set String.eqb tsp (f_name f) (f_req f, f_type f))
      end
  end.

(** [_make_struct]; [module] is [thrift_stack[-1].__name__] and [cid] the
    identity of the new class. *)
Definition _make_struct (module : string) (cid : nat) (name : string)
    (fields : list field) (base : base_cls) : res struct_cls :=
  match struct_tables fields [] [] [] with
  | Raise e => Raise e
  | Ok (ts, ds, tsp) => Ok (StructCls cid module name base ts ds tsp None)
  end.

(** *** _make_service *)

(** The statements of the loop body that follow
    [result_cls = _make_struct(result_name, result_throws)]. *)
Definition add_success (result_cls : struct_cls) (f : func)
  : res struct_cls :=
  match _ttype_spec (fn_type f) "success" false with
  | Raise e => Raise e
  | Ok sp =>
      Ok (StructCls (st_cid result_cls) (st_module result_cls)
            (st_name result_cls) (st_base result_cls)
            (dict_set Z.eqb (thrift_spec result_cls) 0 sp)
            (("success", VNone) :: default_spec result_cls)
            (_tspec result_cls)
            (Some (fn_oneway f)))
  end.

(** One iteration of the loop of [_make_service]: the two classes of a
    function; they take the identities [cid] and [cid + 1]. *)
Definition make_func_classes (module : string) (cid : nat) (f : func)
  : res (struct_cls * struct_cls) :=
  match _make_struct module cid (fn_name f +:+ "_args") (fn_fields f)
          TPayload with
  | Raise e => Raise e
  | Ok args_cls =>
      match _make_struct module (S cid) (fn_name f +:+ "_result")
              (fn_throws f) TPayload with
      | Raise e => Raise e
      | Ok result_cls =>
          match add_success result_cls f with
          | Raise e => Raise e
          | Ok result_cls' => Ok (args_cls, result_cls')
          end
      end
  end.

Fixpoint service_loop (module : string) (cid : nat) (funcs : list func)
    (attrs : list (string * struct_cls)) (names : list string)
  : res (list (string * struct_cls) * list string) * nat :=
  match funcs with
  | [] => (Ok (attrs, names), cid)
  | f :: funcs' =>
      match make_func_classes module cid f with
      | Raise e => (Raise e, cid)
      | Ok (args_cls, result_cls) =>
          service_loop module (S (S cid)) funcs'
            (dict_set String.eqb
               (dict_set String.eqb attrs (fn_name f +:+ "_args") args_cls)
               (fn_name f +:+ "_result") result_cls)
            (names ++ [fn_name f])
      end
  end.

(** [_make_service]; returns the class and the next free class identity. *)
Definition _make_service (module : string) (cid : nat) (name : string)
    (funcs : list func) (extends : option service_cls)
  : res service_cls * nat :=
  match service_loop module cid funcs [] [] with
  | (Raise e, cid') => (Raise e, cid')
  | (Ok (attrs, names), cid') =>
      (Ok (ServiceCls module name extends attrs names), cid')
  end.

(** ** Strings and paths *)

(** [s.split(sep)] for a one-character separator. *)
Fixpoint split_on (sep : ascii) (s : string) : list string :=
  match s with
  | EmptyString => [EmptyString]
  | String c s' =>
      if Ascii.eqb c sep then EmptyString :: split_on sep s'
      else match split_on sep s' with
           | [] => [String c EmptyString]
           | w :: ws => String c w :: ws
           end
  end.

Definition endswith (s suffix : string) : bool :=
  let n := String.length s in
  let k := String.length suffix in
  (k <=? n)%nat && String.eqb (substring (n - k) k s) suffix.

Definition startswith (s pre : string) : bool := String.prefix pre s.

(** [s[:-k]] *)
Definition drop_last (k : nat) (s : string) : string :=
  substring 0 (String.length s - k) s.

(** [os.path.join(a, b)] of [posixpath]. *)
Definition os_path_join (a b : string) : string :=
  if startswith b "/" then b
  else if String.eqb a "" || endswith a "/" then a +:+ b
  else a +:+ "/" +:+ b.

(** [os.path.basename(p)] of [posixpath]: what follows the last slash. *)
Definition os_path_basename (p : string) : string :=
  List.last (split_on "/"%char p) "".

(** ** Modules and name lookup *)

(** What a name of a module can be bound to. *)
Inductive entity : Type :=
| EConst (v : value)
| EType (t : ttype)
| EEnum (c : enum_cls)
| EStruct (c : struct_cls)
| EService (c : service_cls)
| EModule (name : string) (attrs : list (string * entity)).

(** [types.ModuleType(module_name)] with the names set on it. *)
Definition pymodule : Type := string * list (string * entity).

(** The [_args] or [_result] class that a service class has under [name]:
    its own, or the one of its base class. *)
Fixpoint service_getattr (c : service_cls) (name : string)
  : option struct_cls :=
  match c with
  | ServiceCls _ _ ext attrs _ =>
      match dict_get String.eqb attrs name with
      | Some x => Some x
      | None =>
          match ext with
          | Some parent => service_getattr parent name
          | None => None
          end
      end
  | EnumBase _ => None
  end.

(** What the parser takes from its environment.  [builtin_attr e name] is
    [getattr(e, name)] for an attribute of [e] that is not one of the
    objects of this model bound by [setattr]: the attributes that the
    interpreter gives to every module, class, number, string and
    container, the fields that the constructor of [thrift.py] stores in a
    struct instance, and the tables and codes that a class holds
    ([_ttype], [_named_values], [thrift_spec], [thrift_services], ...);
    [None] when the object has no such attribute.  [ttype_code] gives the
    integer codes of [TType] for the base types. *)
Class python_objects : Type := PythonObjects {
  builtin_attr : entity -> string -> option entity;
  ttype_code : base_type -> Z
}.

(** An environment in which no object has an attribute of its own, with
    the codes of the Thrift protocol. *)
Definition plain_objects : python_objects :=
  PythonObjects
    (fun _ _ => None)
    (fun b =>
       match b with
       | BOOL => 2 | BYTE => 3 | DOUBLE => 4 | I16 => 6 | I32 => 8
       | I64 => 10 | STRING => 11 | BINARY => 11
       end).

Section parser.
Context {py : python_objects}.

(** The names that the lookup on a service class does not pass on to its
    base class: [thrift_services], which [_make_service] sets on every
    class it builds, and the names that Python may answer before it looks
    into the base (the names with two leading underscores, and [mro]).
    For these, what the class has besides its own [_args] and [_result]
    classes is the environment's. *)
Definition own_name (name : string) : bool :=
  String.eqb name "thrift_services" || String.eqb name "mro"
  || startswith name "__".

(** [getattr(cls, name)] on an enum class: a member, else what the class
    has besides. *)
Definition enum_attr (c : enum_cls) (name : string) : option entity :=
  match enum_getattr c name with
  | Some n => Some (EConst (VInt n))
  | None => builtin_attr (EEnum c) name
  end.

(** [getattr(cls, name)] on a service class: the classes set on it, then
    the base class. *)
Fixpoint service_attr (c : service_cls) (name : string) : option entity :=
  match c with
  | ServiceCls _ _ ext attrs _ =>
      match dict_get String.eqb attrs name with
      | Some x => Some (EStruct x)
      | None =>
          match ext with
          | Some parent =>
              if own_name name then builtin_attr (EService c) name
              else service_attr parent name
          | None => builtin_attr (EService c) name
          end
      end
  | EnumBase e => enum_attr e name
  end.

(** [getattr(e, name)], [None] when it raises [AttributeError].  What the
    parser has bound with [setattr] comes first: the names of a module,
    the members of an enum class, the [_args] and [_result] classes of a
    service; a module has its [__name__]; the rest is the environment's. *)
Definition getattr (e : entity) (name : string) : option entity :=
  match e with
  | EModule n attrs =>
      match dict_get String.eqb attrs name with
      | Some x => Some x
      | None =>
          if String.eqb name "__name__" then Some (EConst (VStr n))
          else builtin_attr e name
      end
  | EEnum c => enum_attr c name
  | EService c => service_attr c name
  | _ => builtin_attr e name
  end.

(** [hasattr(e, name)]; the parser's [if hasattr(e, name): ... getattr(e,
    name)] is a match on [getattr]. *)
Definition hasattr (e : entity) (name : string) : bool :=
  match getattr e name with Some _ => true | None => false end.

(** ** The parser's state: the two module-level variables [thrift_stack]
    (its head is [thrift_stack[-1]]) and [include_dir_], the heap, the
    number of classes created so far and the paths given to [open]. *)
Record pstate : Type := PState {
  thrift_stack : list pymodule;
  include_dir_ : string;
  the_heap : heap;
  classes : nat;
  opened : list string
}.

Definition P (A : Type) : Type := SE pstate A.

Definition lift_heap {A} (m : M A) : P A := fun st =>
  let (r, h) := m (the_heap st) in
  (r, PState (thrift_stack st) (include_dir_ st) h (classes st) (opened st)).

(** [thrift_stack[-1]] *)
Definition top : P pymodule := fun st =>
  match thrift_stack st with
  | m :: _ => (Ok m, st)
  | [] => (Raise IndexError, st)
  end.

(** [setattr(thrift_stack[-1], name, e)] *)
Definition setattr_top (name : string) (e : entity) : P unit := fun st =>
  match thrift_stack st with
  | (mn, attrs) :: rest =>
      (Ok tt, PState ((mn, dict_set String.eqb attrs name e) :: rest)
                (include_dir_ st) (the_heap st) (classes st) (opened st))
  | [] => (Raise IndexError, st)
  end.

Definition push (m : pymodule) : P unit := fun st =>
  (Ok tt, PState (m :: thrift_stack st) (include_dir_ st) (the_heap st)
            (classes st) (opened st)).

Definition pop : P pymodule := fun st =>
  match thrift_stack st with
  | m :: rest =>
      (Ok m, PState rest (include_dir_ st) (the_heap st) (classes st)
               (opened st))
  | [] => (Raise IndexError, st)
  end.

Definition set_include_dir (d : string) : P unit := fun st =>
  (Ok tt, PState (thrift_stack st) d (the_heap st) (classes st) (opened st)).

(** [type(name, bases, attrs)]: a class with a new identity. *)
Definition new_classes (n : nat) : P nat := fun st =>
  (Ok (classes st), PState (thrift_stack st) (include_dir_ st) (the_heap st)
                      (n + classes st) (opened st)).

(** [open(path)] on a file system that maps a path to the derivation tree
    of its content. *)
Definition open_file {D} (fs : string -> option D) (path : string) : P D :=
  fun st =>
    match fs path with
    | Some d =>
        (Ok d, PState (thrift_stack st) (include_dir_ st) (the_heap st)
                 (classes st) (opened st ++ [path]))
    | None => (Raise (IOError path), st)
    end.

(** [try: ... except AssertionError: raise ThriftParserError(e)] *)
Definition except_assertion {A} (m : P A) (e : parser_error) : P A :=
  fun st =>
    match m st with
    | (Raise AssertionError, st') => (Raise (ThriftParserError e), st')
    | r => r
    end.

(** ** Derivation trees

    One constructor per production that carries information; the
    separators and the recursion of the [_seq] rules ([_parse_seq]) are
    folded into lists in declaration order. *)

Inductive const_value : Type :=
| INTCONSTANT (n : Z)
| DUBCONSTANT (m e : Z)
| LITERAL (s : string)
| BOOLCONSTANT (b : bool)
| ConstList (items : list const_value)
| ConstMap (items : list (const_value * const_value))
| ConstRef (id : string).

Inductive field_type : Type :=
| RefType (id : string)
| DefinitionType (d : definition_type)
with definition_type : Type :=
| BaseType (b : base_type)
| MapType (k v : field_type)
| ListType (e : field_type)
| SetType (e : field_type).

(** The optional requiredness qualifier of a field. *)
Inductive field_req : Type := REQUIRED | OPTIONAL | NoFieldReq.

Record field_decl : Type := FieldDecl {
  fd_id : Z;
  fd_req : field_req;
  fd_type : field_type;
  fd_name : string;
  fd_default : option const_value
}.

(** [function_type]: a field type or [void]. *)
Inductive function_type : Type :=
| FunctionFieldType (t : field_type)
| VOID.

Record function_decl : Type := FunctionDecl {
  fu_oneway : bool;
  fu_type : function_type;
  fu_name : string;
  fu_fields : list field_decl;
  fu_throws : option (list field_decl)
}.

Inductive definition_unit : Type :=
| Const (t : field_type) (name : string) (v : const_value)
| Typedef (t : definition_type) (name : string)
| Enum (name : string) (items : list (string * option Z))
    (* an item is [IDENTIFIER '=' INTCONSTANT] or [IDENTIFIER] *)
| Struct (name : string) (fields : list field_decl)
| Union (name : string) (fields : list field_decl)
| Exception (name : string) (fields : list field_decl)
| Service (name : string) (extends : option string)
          (functions : list function_decl).

Inductive header_unit : Type :=
| Include (path : string)
| Namespace (scope name : string).

Record document : Type := Document {
  header : list header_unit;
  definition : list definition_unit
}.

(** ** Semantic actions *)

(** The token values of REQUIRED and OPTIONAL are their texts. *)
Definition field_req_token (q : field_req) : option string :=
  match q with
  | REQUIRED => Some "required"
  | OPTIONAL => Some "optional"
  | NoFieldReq => None
  end.

Definition p_field_req (q : field_req) : bool :=
  match field_req_token q with
  | Some p1 => String.eqb p1 "required"
  | None => false   (* default: required=False *)
  end.

(** The walk of [p_ref_type] and of the [extends] clause of [p_service]:
    [child = getattr(father, name, None)] segment by segment, given up
    when [child is None]. *)
Fixpoint walk (father : entity) (names : list string) : option entity :=
  match names with
  | [] => Some father
  | name :: names' =>
      match getattr father name with
      | None | Some (EConst VNone) => None
      | Some child => walk child names'
      end
  end.


Definition module_entity (m : pymodule) : entity := EModule m.1 m.2.

(** [m.__name__]: the name given to [types.ModuleType], until the file
    binds [__name__] itself. *)
Definition name_attr (m : pymodule) : entity :=
  default (EConst (VStr m.1)) (dict_get String.eqb m.2 "__name__").

(** The [__module__] entry of a class built in the module [m]:
    [thrift_stack[-1].__name__].  When the file has bound [__name__] to
    an object that is no string, the class holds that object; nothing in
    this file reads the entry, and the record keeps the name the module
    was created with. *)
Definition module_label (m : pymodule) : string :=
  match name_attr m with
  | EConst (VStr s) => s
  | _ => m.1
  end.

(** The base type that the integer [n] passes for: the first code that
    [_cast] compares to which it is equal. *)
Definition base_of_code (n : Z) : option base_type :=
  List.find (fun b => ttype_code b =? n)
    [BOOL; BYTE; I16; I32; I64; DOUBLE; STRING; BINARY].

(** The end of [p_ref_type]: [(child._ttype, child)] for a class that has
    [_ttype] (the classes of [_make_enum] and [_make_struct]), else [child]
    itself.  A typedef is the tag it was bound to, and an integer constant
    equal to the code of a base type is that code.  A member of an enum
    called [_ttype] has replaced the code of the class: the pair is the
    tag of the enum when the member is the code of [i32].  For another
    object (another constant, a module, a service class) the source yields
    the object, or pairs it with the [_ttype] it has; such a tag is
    outside the closed variant and stands here as [TOther]. *)
Definition ref_type_value (id : string) (child : entity) : ttype :=
  match child with
  | EEnum c =>
      match enum_getattr c "_ttype" with
      | Some v => if v =? ttype_code I32 then TEnum c else TOther id
      | None => TEnum c
      end
  | EStruct c => TStruct c
  | EType t => t
  | EConst (VInt n) => from_option TBase (TOther id) (base_of_code n)
  | EConst (VBool b) =>
      from_option TBase (TOther id) (base_of_code (if b then 1 else 0))
  | _ => TOther id
  end.

Definition p_ref_type (id : string) : P ttype :=
  thrift <- top ;;
  match walk (module_entity thrift) (split_on "."%char id) with
  | None => raise (ThriftParserError (NoTypeFound id))
  | Some child => ret (ref_type_value id child)
  end.

Fixpoint p_field_type (t : field_type) : P ttype :=
  match t with
  | RefType id => p_ref_type id
  | DefinitionType d => p_definition_type d
  end
with p_definition_type (d : definition_type) : P ttype :=
  match d with
  | BaseType b => ret (TBase b)
  | MapType k v =>
      tk <- p_field_type k ;; tv <- p_field_type v ;; ret (TMap tk tv)
  | ListType e => te <- p_field_type e ;; ret (TList te)
  | SetType e => te <- p_field_type e ;; ret (TSet te)
  end.

Definition p_function_type (t : function_type) : P ttype :=
  match t with
  | VOID => ret TVoid
  | FunctionFieldType t => p_field_type t
  end.

(** [p_const_ref], on the module [thrift]: one key, or two keys. *)
Definition const_ref_in (thrift : entity) (id : string) : res entity :=
  let keys := split_on "."%char id in
  match keys with
  | [k0] =>
      match getattr thrift k0 with
      | Some x => Ok x
      | None => Raise (ThriftParserError (NoEnumValueOrConstant id))
      end
  | [k0; k1] =>
      match getattr thrift k0 with
      | Some enum =>
          match getattr enum k1 with
          | Some x => Ok x
          | None => Raise (ThriftParserError (NoEnumValueOrConstant id))
          end
      | None => Raise (ThriftParserError (NoEnumValueOrConstant id))
      end
  | _ => Raise (ThriftParserError (NoEnumValueOrConstant id))
  end.

Definition p_const_ref (id : string) : P entity :=
  thrift <- top ;;
  lift_res (const_ref_in (module_entity thrift) id).

(** The Python object that a name denotes when it is used as a value: the
    value of a constant; the integer code for a typedef of a base type; a
    class, a module or the tuple of another type tag is an object that no
    [isinstance] test of the caster accepts. *)
Definition value_of_entity (id : string) (e : entity) : value :=
  match e with
  | EConst v => v
  | EType (TBase b) => VInt (ttype_code b)
  | _ => VObj id
  end.

(** [dict(pairs)] *)
Definition py_dict (pairs : list (value * value)) : M value :=
  h <- get ;;
  if forallb (hashable h) (pairs.*1)
  then r <- alloc (ODict (fold_left (fun d kv => dict_set py_eq d kv.1 kv.2)
                            pairs [])) ;;
       ret (VRef r)
  else raise (TypeError "unhashable type").

Fixpoint p_const_value (c : const_value) : P value :=
  match c with
  | INTCONSTANT n => ret (VInt n)
  | DUBCONSTANT m e => ret (VFloat m e)
  | LITERAL s => ret (VStr s)
  | BOOLCONSTANT b => ret (VBool b)
  | ConstList items =>
      vs <- (fix seq (l : list const_value) : P (list value) :=
               match l with
               | [] => ret []
               | x :: l' =>
                   v <- p_const_value x ;; vs <- seq l' ;; ret (v :: vs)
               end) items ;;
      r <- lift_heap (alloc (OList vs)) ;;
      ret (VRef r)
  | ConstMap items =>
      kvs <- (fix seq (l : list (const_value * const_value))
                : P (list (value * value)) :=
                match l with
                | [] => ret []
                | (k, x) :: l' =>
                    vk <- p_const_value k ;;
                    vx <- p_const_value x ;;
                    kvs <- seq l' ;;
                    ret ((vk, vx) :: kvs)
                end) items ;;
      lift_heap (py_dict kvs)
  | ConstRef id => e <- p_const_ref id ;; ret (value_of_entity id e)
  end.

Definition p_field (d : field_decl) : P field :=
  let id := fd_id d in
  let req := p_field_req (fd_req d) in
  t <- p_field_type (fd_type d) ;;
  match fd_default d with
  | Some c =>
      v <- p_const_value c ;;
      val <- except_assertion (lift_heap (cast t v))
               (TypeErrorForField (fd_name d)) ;;
      ret (Field id req t (fd_name d) val)
  | None => ret (Field id req t (fd_name d) VNone)
  end.

Fixpoint p_field_seq (ds : list field_decl) : P (list field) :=
  match ds with
  | [] => ret []
  | d :: ds' => f <- p_field d ;; fs <- p_field_seq ds' ;; ret (f :: fs)
  end.

(** [p_function]: [p[1] == 'oneway'] holds when the production starts
    with ONEWAY, and the last symbol is [')'] when there is no [throws]. *)
Definition p_function (d : function_decl) : P func :=
  t <- p_function_type (fu_type d) ;;
  fields <- p_field_seq (fu_fields d) ;;
  throws <- match fu_throws d with
            | Some ds => p_field_seq ds
            | None => ret []
            end ;;
  ret (Func (fu_oneway d) t (fu_name d) fields throws).

Fixpoint p_function_seq (ds : list function_decl) : P (list func) :=
  match ds with
  | [] => ret []
  | d :: ds' => f <- p_function d ;; fs <- p_function_seq ds' ;; ret (f :: fs)
  end.

Definition p_const (t : field_type) (name : string) (c : const_value)
  : P unit :=
  ty <- p_field_type t ;;
  v <- p_const_value c ;;
  val <- except_assertion (lift_heap (cast ty v))
           (TypeErrorForConstant name) ;;
  setattr_top name (EConst val).

Definition p_typedef (t : definition_type) (name : string) : P unit :=
  ty <- p_definition_type t ;;
  setattr_top name (EType ty).

Definition p_enum (name : string) (items : list (string * option Z))
  : P unit :=
  thrift <- top ;;
  setattr_top name (EEnum (_make_enum (module_label thrift) name items)).

(** [p_struct], [p_union] and [p_exception]. *)
Definition p_struct_like (name : string) (ds : list field_decl)
    (base : base_cls) : P unit :=
  fields <- p_field_seq ds ;;
  thrift <- top ;;
  cid <- new_classes 1 ;;
  c <- lift_res (_make_struct (module_label thrift) cid name fields base) ;;
  setattr_top name (EStruct c).

Definition p_struct name ds := p_struct_like name ds TPayload.
Definition p_union name ds := p_struct_like name ds TPayload.
Definition p_exception name ds := p_struct_like name ds TException.

(** [hasattr(child, 'thrift_services')]: [_make_service] sets the
    attribute on every class it builds. *)
Definition has_thrift_services (child : entity) : bool :=
  match child with
  | EService (ServiceCls _ _ _ _ _) => true
  | _ => hasattr child "thrift_services"
  end.

(** [type(name, (extends, ), attrs)] at the head of [_make_service]: a
    class is taken as the base; a struct class has no attribute
    [thrift_services], and another object is no class, which [type]
    refuses before any class is built. *)
Definition base_class (child : entity) : P (option service_cls) :=
  match child with
  | EService c => ret (Some c)
  | EEnum c => ret (Some (EnumBase c))
  | _ => raise (TypeError "metaclass conflict")
  end.

Definition p_service (name : string) (ext : option string)
    (ds : list function_decl) : P unit :=
  funcs <- p_function_seq ds ;;
  thrift <- top ;;
  extends <-
    match ext with
    | Some p4 =>
        match walk (module_entity thrift) (split_on "."%char p4) with
        | None => raise (ThriftParserError (CantFindService p4 name))
        | Some child =>
            if has_thrift_services child then base_class child
            else raise (ThriftParserError (CantExtend p4))
        end
    | None => ret None
    end ;;
  cid <- new_classes (2 * List.length funcs) ;;
  c <- lift_res
         (_make_service (module_label thrift) cid name funcs extends).1 ;;
  setattr_top name (EService c).

Definition p_definition_unit (d : definition_unit) : P unit :=
  match d with
  | Const t name v => p_const t name v
  | Typedef t name => p_typedef t name
  | Enum name items => p_enum name items
  | Struct name fields => p_struct name fields
  | Union name fields => p_union name fields
  | Exception name fields => p_exception name fields
  | Service name ext functions => p_service name ext functions
  end.

(** [p_include]; [parse_] is the entry point, called as [parse(path)]. *)
Definition p_include (parse_ : string -> P pymodule) (p2 : string)
  : P unit :=
  st <- get ;;
  let path := os_path_join (include_dir_ st) p2 in
  child <- parse_ path ;;
  match name_attr child with
  | EConst (VStr name) => setattr_top name (module_entity child)
  | _ => raise (TypeError "attribute name must be string")
  end.

Definition p_header_unit (parse_ : string -> P pymodule) (u : header_unit)
  : P unit :=
  match u with
  | Include p2 => p_include parse_ p2
  | Namespace _ _ => ret tt
  end.

(** [parser.parse(data)]: the actions of [start : header definition]. *)
Definition parser_parse (parse_ : string -> P pymodule) (data : document)
  : P unit :=
  for_each (header data) (p_header_unit parse_) ;;;
  for_each (definition data) p_definition_unit.

(** ** The entry point *)

(** The statements of [parse] that follow the assignment of
    [include_dir_]; [parse_] is the function itself, for the includes. *)
Definition parse_body (parse_ : string -> P pymodule)
    (fs : string -> option document) (path : string)
    (module_name : option string) : P pymodule :=
  if negb (endswith path ".thrift")
  then raise (ThriftParserError PathSuffix)
  else
    data <- open_file fs path ;;
    match module_name with
    | Some mn =>
        if negb (endswith mn "_thrift")
        then raise (ThriftParserError ModuleSuffix)
        else ret tt
    | None => ret tt
    end ;;;
    push (match module_name with
          | Some mn => mn
          | None => drop_last 7 (os_path_basename path)
          end, []) ;;;
    parser_parse parse_ data ;;;
    pop.

(** [parse(path, module_name, include_dir)]; [fuel] bounds the nesting of
    includes, as the interpreter's recursion limit does. *)
Fixpoint parse (fuel : nat) (fs : string -> option document)
    (path : string) (module_name include_dir : option string)
  : P pymodule :=
  match fuel with
  | O => raise RecursionError
  | S fuel' =>
      match include_dir with
      | Some d => set_include_dir d
      | None => ret tt
      end ;;;
      parse_body (fun p => parse fuel' fs p None None) fs path module_name
  end.

(** The state of a freshly imported parser module. *)
Definition initial_state : pstate := PState [] "." [] 0 [].

(** ** Inputs and notions used in the statements *)

(** Replaces a missing qualifier by [optional]. *)
Definition write_optional (d : field_decl) : field_decl :=
  match fd_req d with
  | NoFieldReq =>
      FieldDecl (fd_id d) OPTIONAL (fd_type d) (fd_name d) (fd_default d)
  | _ => d
  end.

(** A file system with one file. *)
Definition one_file (path : string) (d : document)
  : string -> option document :=
  fun p => if String.eqb p path then Some d else None.

Definition i32 : field_type := DefinitionType (BaseType I32).
Definition string_ : field_type := DefinitionType (BaseType STRING).

(** [const i32 x = true] *)
Definition doc_const_bool : document :=
  Document [] [Const i32 "x" (BOOLCONSTANT true)].

(** [const list<i32> xs = ["oops"]] *)
Definition doc_const_list : document :=
  Document []
    [Const (DefinitionType (ListType i32)) "xs" (ConstList [LITERAL "oops"])].

(** [enum E { A, B }  const E x = E.A] *)
Definition doc_enum_const : document :=
  Document []
    [Enum "E" [("A", None); ("B", None)];
     Const (RefType "E") "x" (ConstRef "E.A")].

(** [service Svc { oneway void f() }] *)
Definition oneway_void_f : function_decl := FunctionDecl true VOID "f" [] None.
Definition doc_oneway : document :=
  Document [] [Service "Svc" None [oneway_void_f]].

(** [rc] is the [_result] class that [_make_service] synthesizes for the
    function [g]. *)
Definition result_of (module : string) (g : func) (rc : struct_cls) : Prop :=
  exists (cid : nat) (args_cls : struct_cls),
    make_func_classes module cid g = Ok (args_cls, rc).

(** [struct S { 1: i32 a; 2: string b; }] *)
Definition struct_S_fields : list field_decl :=
  [FieldDecl 1 NoFieldReq i32 "a" None;
   FieldDecl 2 NoFieldReq string_ "b" None].
Definition doc_struct_S : document :=
  Document [] [Struct "S" struct_S_fields].

(** [struct S { 1: required i32 a; 2: required string b; }] *)
Definition struct_S_required : list field_decl :=
  [FieldDecl 1 REQUIRED i32 "a" None;
   FieldDecl 2 REQUIRED string_ "b" None].

(** The class built for [S] from fields with the flag [req]. *)
Definition class_S (module : string) (cid : nat) (req : bool) : struct_cls :=
  StructCls cid module "S" TPayload
    [(1, (TBase I32, "a", req)); (2, (TBase STRING, "b", req))]
    [("a", VNone); ("b", VNone)]
    [("a", (req, TBase I32)); ("b", (req, TBase STRING))]
    None.



(** ** What a computation may do to the heap *)

(** A list, a set and a struct instance are left as they are; a dict stays
    a dict. *)
Definition obj_frame (o o' : obj) : Prop :=
  match o with
  | ODict _ => exists d', o' = ODict d'
  | _ => o' = o
  end.

Definition heap_frame (h h' : heap) : Prop :=
  forall (l : loc) (o : obj),
    h !! l = Some o -> exists o', h' !! l = Some o' /\ obj_frame o o'.

Definition frames {A} (m : M A) : Prop :=
  forall h : heap, heap_frame h (m h).2.

Definition caster_frames (r : res caster) : Prop :=
  match r with
  | Ok f => forall v : value, frames (f v)
  | Raise _ => True
  end.


(** The caster leaves the heap alone and returns its argument. *)
Definition pure_caster (f : caster) : Prop :=
  forall (v : value) (h : heap),
    (f v h).2 = h /\ forall v', (f v h).1 = Ok v' -> v' = v.

(** The types whose caster returns its argument: base types, enums, lists,
    and maps of these. *)
Fixpoint returns_argument (t : ttype) : bool :=
  match t with
  | TBase _ | TEnum _ | TList _ => true
  | TMap k v => returns_argument k && returns_argument v
  | _ => false
  end.






(** The heap is left as it is. *)
Definition keeps_heap {A} (m : M A) : Prop :=
  forall h : heap, (m h).2 = h.

(** A successful run returns [v]. *)
Definition returns {A} (v : A) (m : M A) : Prop :=
  forall (h : heap) (v' : A), (m h).1 = Ok v' -> v' = v.


(** [struct T { 1: set<i32> s }] and the literal [{"s": [1, 1]}] for it. *)
Definition class_T : struct_cls :=
  StructCls 0 "m" "T" TPayload
    [(1, (TSet (TBase I32), "s", false))]
    [("s", VNone)]
    [("s", (false, TSet (TBase I32)))]
    None.
Definition heap_struct_literal : heap :=
  [OList [VInt 1; VInt 1]; ODict [(VStr "s", VRef 0)]].

(** ** What an action may do to [include_dir_] and to the files read *)

(** [include_dir_] is kept and the list of opened paths only grows. *)
Definition stable (st st' : pstate) : Prop :=
  include_dir_ st' = include_dir_ st /\ opened st `prefix_of` opened st'.

Definition steady {A} (m : P A) : Prop :=
  forall st : pstate, stable st (m st).2.

(** Successive calls of the entry point by a client, whatever each of them
    returns or raises. *)
Fixpoint run_calls (fuel : nat) (fs : string -> option document)
    (calls : list (string * option string * option string)) (st : pstate)
  : pstate :=
  match calls with
  | [] => st
  | (path, module_name, include_dir) :: calls' =>
      run_calls fuel fs calls'
        (parse fuel fs path module_name include_dir st).2
  end.

(** The [include_dir] of the last call that gave one, else [d]. *)
Definition last_include_dir
    (calls : list (string * option string * option string)) (d : string)
  : string :=
  fold_left (fun acc c => default acc c.2) calls d.

(** [main.thrift] holds [include "c.thrift"]; there is a [c.thrift] in the
    current directory and another one in [/inc]. *)
Definition doc_includes_c : document := Document [Include "c.thrift"] [].
Definition fs_two_dirs : string -> option document :=
  fun p =>
    if String.eqb p "main.thrift" then Some doc_includes_c
    else if String.eqb p "./c.thrift"
         then Some (Document [] [Enum "Here" [("A", None)]])
    else if String.eqb p "/inc/c.thrift"
         then Some (Document [] [Enum "There" [("A", None)]])
    else None.

(** The state left by [parse("main.thrift", include_dir="/inc")], called
    in the initial state. *)
Definition state_after_inc : pstate :=
  (parse 2 fs_two_dirs "main.thrift" None (Some "/inc") initial_state).2.

(** A computation has returned. *)
Definition is_ok {A} (r : res A) : bool :=
  match r with Ok _ => true | Raise _ => false end.

(** [q] is the path that [p_include] forms with the base directory [dir]
    for an include statement of one of the files [known]. *)
Definition included_from (dir : string) (fs : string -> option document)
    (known : list string) (q : string) : Prop :=
  exists (parent : string) (data : document) (p2 : string),
    parent ∈ known /\ fs parent = Some data /\
    In (Include p2) (header data) /\ q = os_path_join dir p2.

(** The paths [tr] given to [open] by a call of [parse] on [path], in
    order: none when the call stops before it opens its file, else [path]
    and then only files that an include statement of an opened file names,
    resolved against [dir]. *)
Definition resolved_against (dir : string) (fs : string -> option document)
    (path : string) (tr : list string) : Prop :=
  match tr with
  | [] => True
  | q :: tr' => q = path /\ Forall (included_from dir fs (path :: tr')) tr'
  end.

(** Every include statement of every file of [tr] has been followed, with
    the base directory [dir]. *)
Definition includes_followed (dir : string) (fs : string -> option document)
    (tr : list string) : Prop :=
  forall (q : string) (data : document) (p2 : string),
    q ∈ tr -> fs q = Some data -> In (Include p2) (header data) ->
    os_path_join dir p2 ∈ tr.

(** The action leaves [include_dir_] and the list of opened paths as they
    are. *)
Definition opens_nothing {A} (m : P A) : Prop :=
  forall st : pstate,
    include_dir_ (m st).2 = include_dir_ st /\ opened (m st).2 = opened st.

(** The outcome [r] of reading [path] from the state [st]: the files opened
    since [st] start with [path] and are resolved against [dir]. *)
Definition reads_from {A} (dir : string) (fs : string -> option document)
    (path : string) (st : pstate) (r : res A * pstate) : Prop :=
  exists tr : list string,
    include_dir_ r.2 = dir /\
    opened r.2 = opened st ++ tr /\
    resolved_against dir fs path tr /\
    (is_ok r.1 = true -> tr <> [] /\ includes_followed dir fs tr).

(** [parse_] resolves the includes of the files it reads against [dir]. *)
Definition follows_includes (dir : string) (fs : string -> option document)
    (parse_ : string -> P pymodule) : Prop :=
  forall (path : string) (st : pstate),
    include_dir_ st = dir -> reads_from dir fs path st (parse_ path st).

(** ** Notions used in the further properties *)


(** An action run on a non-empty stack may change the attributes of the
    top module and nothing below it; when it raises, the modules pushed by
    unfinished calls of [parse] may be left above it. *)
Definition tracks_stack {A} (m : P A) : Prop :=
  forall (st : pstate) (mn : string) (attrs : list (string * entity))
         (rest : list pymodule),
    thrift_stack st = (mn, attrs) :: rest ->
    match m st with
    | (Ok _, st') => exists attrs', thrift_stack st' = (mn, attrs') :: rest
    | (Raise _, st') =>
        exists extra attrs', thrift_stack st' = extra ++ (mn, attrs') :: rest
    end.

(** A call that returns leaves the stack as it found it; a call that raises
    may leave modules on top of it. *)
Definition balanced (m : P pymodule) : Prop :=
  forall st : pstate,
    match m st with
    | (Ok _, st') => thrift_stack st' = thrift_stack st
    | (Raise _, st') => exists extra, thrift_stack st' = extra ++ thrift_stack st
    end.

(** The module name that [parse] gives when [module_name] is omitted. *)
Definition default_module_name (path : string) : string :=
  drop_last 7 (os_path_basename path).

(** The last element of [l] that satisfies [p]: the one whose assignment
    to a dict key survives. *)
Definition last_with {A} (p : A -> bool) (l : list A) : option A :=
  List.find p (rev l).

(** The value of a scalar literal. *)
Definition literal_of (c : const_value) : option value :=
  match c with
  | INTCONSTANT n => Some (VInt n)
  | DUBCONSTANT m e => Some (VFloat m e)
  | LITERAL s => Some (VStr s)
  | BOOLCONSTANT b => Some (VBool b)
  | _ => None
  end.


(** No two elements of [s] are equal for Python, a later one being compared
    with an earlier one as [set] does when it inserts. *)
Definition pairwise_distinct (s : list value) : Prop :=
  forall (i j : nat) (x y : value),
    (i < j)%nat -> s !! i = Some x -> s !! j = Some y -> py_eq y x = false.

Definition is_include (u : header_unit) : bool :=
  match u with Include _ => true | Namespace _ _ => false end.

(** The state [st'] is [st] with new objects at the end of the heap. *)
Definition only_allocated (st st' : pstate) : Prop :=
  exists new : heap,
    st' = PState (thrift_stack st) (include_dir_ st) (the_heap st ++ new)
            (classes st) (opened st).

(** The name that a definition binds in the current module. *)
Definition unit_name (d : definition_unit) : string :=
  match d with
  | Const _ name _ | Typedef _ name | Enum name _ | Struct name _
  | Union name _ | Exception name _ | Service name _ _ => name
  end.

(** An action run on a non-empty stack that returns has kept every name
    of the top module bound. *)
Definition keeps_names {A} (m : P A) : Prop :=
  forall (st : pstate) (mn : string) (attrs : list (string * entity))
         (rest : list pymodule),
    thrift_stack st = (mn, attrs) :: rest ->
    match m st with
    | (Ok _, st') =>
        exists attrs',
          thrift_stack st' = (mn, attrs') :: rest /\
          forall n, dict_has String.eqb attrs n = true ->
                    dict_has String.eqb attrs' n = true
    | (Raise _, _) => True
    end.



(** * Properties *)

(** ** Enum numbering *)

Lemma number_items_names (val : Z) (kvs : list (string * option Z)) :
  (number_items val kvs).*1 = kvs.*1.
Proof.
  revert val. induction kvs as [|[key o] kvs IH]; intros val; simpl.
  - reflexivity.
  - f_equal. apply IH.
Qed.

Lemma number_items_lookup (kvs : list (string * option Z)) :
  forall (val : Z) (i : nat) (key : string) (o : option Z),
    kvs !! i = Some (key, o) ->
    exists v,
      number_items val kvs !! i = Some (key, v) /\
      match o, i with
      | Some x, _ => v = x
      | None, O => v = val + 1
      | None, S j =>
          exists p, (number_items val kvs).*2 !! j = Some p /\ v = p + 1
      end.
Proof.
  induction kvs as [|[k0 o0] kvs IH]; intros val i key o Hi.
  - destruct i; discriminate.
  - destruct i as [|j]; simpl in *.
    + inversion Hi; subst. eexists. split; [reflexivity|].
      destruct o; reflexivity.
    + destruct (IH (match o0 with None => val + 1 | Some x => x end)
                  j key o Hi) as (v & Hv & Hm).
      exists v. split; [exact Hv|].
      destruct o as [x|]; [exact Hm|].
      destruct j as [|j'].
      * eexists. split; [reflexivity|]. exact Hm.
      * destruct Hm as (p & Hp & ->). exists p. split; [exact Hp|reflexivity].
Qed.

(** C8.  [_make_enum] numbers the members as sequential enumerations do:
    the names keep their order, a labelled member has its label, an
    unlabelled first member has 0 and any other unlabelled member has its
    predecessor's value plus 1; [enum E { A, B, C }] gives 0, 1, 2 and
    [enum E { A = 5, B }] gives B = 6. *)
Theorem make_enum_auto_numbering
    (module name : string) (kvs : list (string * option Z)) :
  let members := en_members (_make_enum module name kvs) in
  members.*1 = kvs.*1 /\
  (forall (i : nat) (key : string) (o : option Z),
     kvs !! i = Some (key, o) ->
     exists v,
       members !! i = Some (key, v) /\
       match o, i with
       | Some x, _ => v = x
       | None, O => v = 0
       | None, S j => exists p, members.*2 !! j = Some p /\ v = p + 1
       end) /\
  en_members (_make_enum module "E" [("A", None); ("B", None); ("C", None)])
    = [("A", 0); ("B", 1); ("C", 2)] /\
  enum_getattr (_make_enum module "E" [("A", None); ("B", None); ("C", None)])
    "C" = Some 2 /\
  enum_getattr (_make_enum module "E" [("A", Some 5); ("B", None)]) "A"
    = Some 5 /\
  enum_getattr (_make_enum module "E" [("A", Some 5); ("B", None)]) "B"
    = Some 6.
Proof.
  cbv zeta. split; [|split; [|repeat split]].
  - destruct kvs as [|[k0 o0] kvs]; [reflexivity|].
    unfold _make_enum, en_members. apply number_items_names.
  - intros i key o Hi.
    destruct kvs as [|[k0 o0] kvs]; [destruct i; discriminate|].
    unfold _make_enum, en_members.
    destruct (number_items_lookup ((k0, o0) :: kvs)
                (match o0 with None => -1 | Some x => x end) i key o Hi)
      as (v & Hv & Hm).
    exists v. split; [exact Hv|].
    destruct o as [x|]; [exact Hm|].
    destruct i as [|j]; [|exact Hm].
    simpl in Hi. inversion Hi; subst. lia.
Qed.

(** ** Field requiredness *)

Lemma p_field_write_optional (d : field_decl) :
  p_field (write_optional d) = p_field d.
Proof. destruct d as [id [] t name dflt]; reflexivity. Qed.

Lemma p_field_seq_write_optional (ds : list field_decl) :
  p_field_seq (map write_optional ds) = p_field_seq ds.
Proof.
  induction ds as [|d ds IH]; simpl; [reflexivity|].
  rewrite p_field_write_optional, IH. reflexivity.
Qed.

Lemma bind_ok {S A B} (m : SE S A) (k : A -> SE S B) s b s' :
  bind m k s = (Ok b, s') ->
  exists a s1, m s = (Ok a, s1) /\ k a s1 = (Ok b, s').
Proof.
  unfold bind. destruct (m s) as [[a|e] s1]; intros H.
  - eauto.
  - discriminate.
Qed.

Lemma p_field_req_flag (d : field_decl) (st st' : pstate) (f : field) :
  p_field d st = (Ok f, st') -> f_req f = p_field_req (fd_req d).
Proof.
  unfold p_field. intros H.
  apply bind_ok in H as (t & s1 & _ & H).
  destruct (fd_default d).
  - apply bind_ok in H as (v & s2 & _ & H).
    apply bind_ok in H as (val & s3 & _ & H).
    inversion H; reflexivity.
  - inversion H; reflexivity.
Qed.

(** C10.  The field built by [p_field] is required exactly when the
    qualifier [required] is written; a field without qualifier and the same
    field written [optional] build the same value, and the struct-like
    class made from a field list does not depend on which of the two was
    written. *)
Theorem required_only_when_written :
  (forall (d : field_decl) (st st' : pstate) (f : field),
     p_field d st = (Ok f, st') ->
     (f_req f = true <-> fd_req d = REQUIRED)) /\
  (forall id t name dflt,
     p_field (FieldDecl id NoFieldReq t name dflt)
     = p_field (FieldDecl id OPTIONAL t name dflt)) /\
  (forall name ds base,
     p_struct_like name (map write_optional ds) base
     = p_struct_like name ds base).
Proof.
  split; [|split].
  - intros d st st' f H. rewrite (p_field_req_flag d st st' f H).
    destruct (fd_req d); cbn; split; congruence.
  - reflexivity.
  - intros name ds base. unfold p_struct_like.
    rewrite p_field_seq_write_optional. reflexivity.
Qed.

(** ** Base types *)

(** C6.  The integer casters accept a boolean literal ([bool] is a subclass
    of [int]) and [_cast_byte] wants a string: [const i32 x = true] parses
    and binds [x] to [True].  An integer is rejected for a double. *)
Theorem cast_int_accepts_bool :
  (forall (b : bool) (h : heap),
     cast (TBase I16) (VBool b) h = (Ok (VBool b), h) /\
     cast (TBase I32) (VBool b) h = (Ok (VBool b), h) /\
     cast (TBase I64) (VBool b) h = (Ok (VBool b), h)) /\
  (forall (n : Z) (h : heap),
     cast (TBase DOUBLE) (VInt n) h = (Raise AssertionError, h) /\
     cast (TBase BYTE) (VInt n) h = (Raise AssertionError, h)) /\
  (forall (s : string) (h : heap),
     cast (TBase BYTE) (VStr s) h = (Ok (VStr s), h)) /\
  (forall fuel : nat,
     parse (S fuel) (one_file "c.thrift" doc_const_bool) "c.thrift" None None
       initial_state
     = (Ok ("c", [("x", EConst (VBool true))]),
        PState [] "." [] 0 ["c.thrift"])).
Proof.
  split; [|split; [|split]].
  - intros b h. repeat split.
  - intros n h. split; reflexivity.
  - intros s h. reflexivity.
  - intros fuel. reflexivity.
Qed.

(** ** Lists and sets *)

(** C1.  [__cast_list] and [__cast_set] build the [map] object and drop it:
    no element is ever checked.  A list literal is returned as it is
    whatever it holds, a list given for a set type becomes a set of its
    elements, and [const list<i32> xs = ["oops"]] parses. *)
Theorem cast_list_skips_elements :
  (forall (e : ttype) (f : caster) (l : loc) (items : list value) (h : heap),
     _cast e = Ok f ->
     h !! l = Some (OList items) ->
     cast (TList e) (VRef l) h = (Ok (VRef l), h)) /\
  (forall (e : ttype) (f : caster) (l : loc) (items : list value) (h : heap),
     _cast e = Ok f ->
     h !! l = Some (OList items) ->
     forallb (hashable h) items = true ->
     cast (TSet e) (VRef l) h
     = (Ok (VRef (List.length h)), h ++ [OSet (set_of_list items)])) /\
  (forall fuel : nat,
     parse (S fuel) (one_file "c.thrift" doc_const_list) "c.thrift" None None
       initial_state
     = (Ok ("c", [("xs", EConst (VRef 0))]),
        PState [] "." [OList [VStr "oops"]] 0 ["c.thrift"])).
Proof.
  split; [|split].
  - intros e f l items h He Hl.
    unfold cast; simpl. unfold __cast_list, bind, get; simpl.
    unfold isinstance_list, obj_of. rewrite Hl. simpl.
    unfold lift_res. rewrite He. reflexivity.
  - intros e f l items h He Hl Hh.
    unfold cast; simpl. unfold __cast_set, bind, get; simpl.
    unfold isinstance_list, isinstance_set, obj_of. rewrite Hl. simpl.
    unfold lift_res. rewrite He. simpl.
    unfold py_set, bind, items_of, obj_of, get. rewrite Hl, Hh. reflexivity.
  - intros fuel. reflexivity.
Qed.

(** ** Enum values *)

Lemma named_values_of_spec (kvs : list (string * option Z)) :
  forall (acc : gset Z) (n : Z),
    n ∈ named_values_of kvs acc <->
    n ∈ acc \/ exists key, (key, Some n) ∈ kvs.
Proof.
  induction kvs as [|[key [val|]] kvs IH]; intros acc n; simpl.
  - split; [auto|]. intros [H|[key H]]; [exact H|inversion H].
  - rewrite IH, elem_of_union, elem_of_singleton. split.
    + intros [[H| ->]|[k H]]; [auto| |].
      * right. exists key. left.
      * right. exists k. right. exact H.
    + intros [H|[k H]]; [auto|].
      apply elem_of_cons in H as [H|H].
      * inversion H; subst. auto.
      * right. exists k. exact H.
  - rewrite IH. split.
    + intros [H|[k H]]; [auto|]. right. exists k. right. exact H.
    + intros [H|[k H]]; [auto|].
      apply elem_of_cons in H as [H|H]; [discriminate|].
      right. exists k. exact H.
Qed.

(** C2.  [_named_values] holds the labels written in the declaration and
    nothing else: it is filled before the members are numbered.  In
    [enum E { A, B }] the member [A] has the value 0, 0 is not a named
    value, and [const E x = E.A] is refused. *)
Theorem named_values_explicit_only :
  (forall (module name : string) (kvs : list (string * option Z)) (n : Z),
     n ∈ _named_values (_make_enum module name kvs) <->
     exists key, (key, Some n) ∈ kvs) /\
  (let E := _make_enum "e" "E" [("A", None); ("B", None)] in
   enum_getattr E "A" = Some 0 /\
   (0 ∉ _named_values E) /\
   forall h : heap,
     cast (TEnum E) (VInt 0) h
     = (Raise (ThriftParserError (NoNamedValue "E" (VInt 0))), h)) /\
  (forall fuel : nat,
     (parse (S fuel) (one_file "e.thrift" doc_enum_const) "e.thrift" None
        None initial_state).1
     = Raise (ThriftParserError (NoNamedValue "E" (VInt 0)))).
Proof.
  split; [|split].
  - intros module name kvs n. unfold _make_enum, _named_values.
    rewrite named_values_of_spec. split.
    + intros [H|H]; [|exact H]. apply not_elem_of_empty in H. destruct H.
    + auto.
  - cbv zeta. split; [reflexivity|]. split.
    + unfold _make_enum, _named_values, named_values_of.
      apply not_elem_of_empty.
    + intros h. reflexivity.
  - intros fuel. reflexivity.
Qed.

(** ** Association lists *)

Section assoc_facts.
Context {K V : Type} (eqb : K -> K -> bool).
Hypothesis eqb_eq : forall x y, eqb x y = true <-> x = y.

Lemma dict_get_set_eq (d : list (K * V)) (k : K) (v : V) :
  dict_get eqb (dict_set eqb d k v) k = Some v.
Proof.
  assert (Hkk : eqb k k = true) by (apply eqb_eq; reflexivity).
  induction d as [|[k' v'] d IH]; simpl.
  - rewrite Hkk. reflexivity.
  - destruct (eqb k' k) eqn:E; simpl; rewrite E; [reflexivity|exact IH].
Qed.

Lemma dict_get_set_ne (d : list (K * V)) (k k2 : K) (v : V) :
  k <> k2 -> dict_get eqb (dict_set eqb d k v) k2 = dict_get eqb d k2.
Proof.
  intros Hne.
  assert (Hk : eqb k k2 = false).
  { destruct (eqb k k2) eqn:E; [|reflexivity].
    apply eqb_eq in E. contradiction. }
  induction d as [|[k' v'] d IH]; simpl.
  - rewrite Hk. reflexivity.
  - destruct (eqb k' k) eqn:E; simpl.
    + apply eqb_eq in E. subst k'. rewrite Hk. reflexivity.
    + destruct (eqb k' k2); [reflexivity|exact IH].
Qed.
End assoc_facts.

Lemma Z_eqb_iff (x y : Z) : (x =? y) = true <-> x = y.
Proof. apply Z.eqb_eq. Qed.

Lemma String_eqb_iff (x y : string) : String.eqb x y = true <-> x = y.
Proof. apply String.eqb_eq. Qed.

(** ** Strings *)

Lemma list_ascii_of_append (a b : string) :
  list_ascii_of_string (a +:+ b)
  = list_ascii_of_string a ++ list_ascii_of_string b.
Proof. induction a as [|c a IH]; simpl; [reflexivity|]. f_equal. exact IH. Qed.

Lemma list_ascii_of_string_inj (a b : string) :
  list_ascii_of_string a = list_ascii_of_string b -> a = b.
Proof.
  intros H. rewrite <- (string_of_list_ascii_of_string a),
              <- (string_of_list_ascii_of_string b), H.
  reflexivity.
Qed.

Lemma append_inj_l (a b s : string) : a +:+ s = b +:+ s -> a = b.
Proof.
  intros H. apply list_ascii_of_string_inj.
  apply (f_equal list_ascii_of_string) in H.
  rewrite !list_ascii_of_append in H.
  exact (app_inv_tail _ _ _ H).
Qed.

Lemma args_name_not_result_name (a b : string) :
  a +:+ "_args" <> b +:+ "_result".
Proof.
  intros H. apply (f_equal list_ascii_of_string) in H.
  rewrite !list_ascii_of_append in H.
  change (list_ascii_of_string "_args")
    with (list_ascii_of_string "_arg" ++ ["s"%char]) in H.
  change (list_ascii_of_string "_result")
    with (list_ascii_of_string "_resul" ++ ["t"%char]) in H.
  rewrite !app_assoc in H.
  apply app_inj_tail in H as [_ H]. discriminate.
Qed.

(** ** Service envelopes *)

Lemma ttype_spec_ok (t : ttype) (name : string) (required : bool) sp :
  _ttype_spec t name required = Ok sp -> sp = (t, name, required).
Proof. destruct t; simpl; congruence. Qed.

Lemma result_of_spec (module : string) (g : func) (rc : struct_cls) :
  result_of module g rc ->
  dict_get Z.eqb (thrift_spec rc) 0 = Some (fn_type g, "success", false) /\
  head (default_spec rc) = Some ("success", VNone) /\
  oneway rc = Some (fn_oneway g).
Proof.
  intros (cid & args_cls & H). unfold make_func_classes in H.
  destruct (_make_struct module cid _ _ _) as [a|]; [|discriminate].
  destruct (_make_struct module (S cid) _ _ _) as [r|]; [|discriminate].
  unfold add_success in H.
  destruct (_ttype_spec (fn_type g) "success" false) as [sp|] eqn:Hsp;
    [|discriminate].
  apply ttype_spec_ok in Hsp. subst sp.
  inversion H; subst; simpl.
  split; [|split; reflexivity].
  apply (dict_get_set_eq Z.eqb Z_eqb_iff).
Qed.

Lemma service_loop_snoc (module : string) (funcs : list func) (f : func) :
  forall cid attrs names,
    service_loop module cid (funcs ++ [f]) attrs names
    = match service_loop module cid funcs attrs names with
      | (Ok (attrs1, names1), cid1) =>
          service_loop module cid1 [f] attrs1 names1
      | (Raise e, cid1) => (Raise e, cid1)
      end.
Proof.
  induction funcs as [|f0 funcs IH]; intros cid attrs names.
  - reflexivity.
  - cbn [app service_loop].
    destruct (make_func_classes module cid f0) as [[a r]|e]; [|reflexivity].
    apply IH.
Qed.

Lemma service_loop_results (module : string) (funcs : list func) :
  forall cid attrs names attrs' names' cid',
    service_loop module cid funcs attrs names = (Ok (attrs', names'), cid') ->
    forall f, f ∈ funcs ->
      exists g rc,
        g ∈ funcs /\ fn_name g = fn_name f /\
        dict_get String.eqb attrs' (fn_name f +:+ "_result") = Some rc /\
        result_of module g rc.
Proof.
  induction funcs as [|fl funcs IH] using rev_ind;
    intros cid attrs names attrs' names' cid' Hloop f Hf.
  - inversion Hf.
  - rewrite service_loop_snoc in Hloop.
    destruct (service_loop module cid funcs attrs names)
      as [[[attrs1 names1]|e] cid1] eqn:Hprev; [|discriminate].
    cbn [service_loop] in Hloop.
    destruct (make_func_classes module cid1 fl) as [[a r]|e] eqn:Hfl;
      [|discriminate].
    inversion Hloop; subst attrs' names' cid'; clear Hloop.
    destruct (decide (fn_name fl = fn_name f)) as [Heq|Hne].
    + exists fl, r. split; [apply elem_of_app; right; left|].
      split; [exact Heq|]. split.
      * rewrite <- Heq. apply (dict_get_set_eq String.eqb String_eqb_iff).
      * exists cid1, a. exact Hfl.
    + apply elem_of_app in Hf as [Hf|Hf].
      2:{ apply list_elem_of_singleton in Hf. subst f. contradiction. }
      destruct (IH _ _ _ _ _ _ Hprev f Hf) as (g & rc & Hg & Hn & Hget & Hr).
      exists g, rc. split; [apply elem_of_app; left; exact Hg|].
      split; [exact Hn|]. split; [|exact Hr].
      rewrite (dict_get_set_ne String.eqb String_eqb_iff).
      2:{ intros H. apply append_inj_l in H. contradiction. }
      rewrite (dict_get_set_ne String.eqb String_eqb_iff).
      2:{ apply args_name_not_result_name. }
      exact Hget.
Qed.

(** C3 as amended.  For every declared method the service class has a
    [<name>_result] class, synthesized from a declared method of that name;
    its [thrift_spec] has at id 0 the field [success] of the return type,
    [void] included, not required, its [default_spec] starts with
    [('success', None)] and its [oneway] flag is the method's.  For
    [oneway void f()] the class has the one entry [0: (VOID, 'success',
    False)], no entry in [_tspec] and [oneway = True]. *)
Theorem result_class_always_has_success :
  (forall (module name : string) (cid cid' : nat) (funcs : list func)
          (extends : option service_cls) (svc : service_cls),
     _make_service module cid name funcs extends = (Ok svc, cid') ->
     forall f, f ∈ funcs ->
       exists g rc,
         g ∈ funcs /\ fn_name g = fn_name f /\
         service_getattr svc (fn_name f +:+ "_result") = Some rc /\
         dict_get Z.eqb (thrift_spec rc) 0
           = Some (fn_type g, "success", false) /\
         head (default_spec rc) = Some ("success", VNone) /\
         oneway rc = Some (fn_oneway g)) /\
  (forall fuel : nat,
     parse (S fuel) (one_file "s.thrift" doc_oneway) "s.thrift" None None
       initial_state
     = (Ok ("s",
            [("Svc",
              EService
                (ServiceCls "s" "Svc" None
                   [("f_args",
                     StructCls 0 "s" "f_args" TPayload [] [] [] None);
                    ("f_result",
                     StructCls 1 "s" "f_result" TPayload
                       [(0, (TVoid, "success", false))]
                       [("success", VNone)] [] (Some true))]
                   ["f"]))]),
        PState [] "." [] 2 ["s.thrift"])).
Proof.
  split; [|intros fuel; reflexivity].
  intros module name cid cid' funcs extends svc Hmk f Hf.
  unfold _make_service in Hmk.
  destruct (service_loop module cid funcs [] [])
    as [[[attrs names]|e] cid1] eqn:Hloop; [|discriminate].
  inversion Hmk; subst svc cid'; clear Hmk.
  destruct (service_loop_results module funcs _ _ _ _ _ _ Hloop f Hf)
    as (g & rc & Hg & Hn & Hget & Hr).
  exists g, rc. split; [exact Hg|]. split; [exact Hn|]. split.
  - simpl. rewrite Hget. reflexivity.
  - apply (result_of_spec module g rc Hr).
Qed.

(** ** Struct fields *)

(** C4 as amended.  [struct S { 1: i32 a; 2: string b; }] binds [S] to a
    class with exactly the two fields, under the ids 1 and 2 in that order,
    and both have required = false, as no qualifier is written; with
    [required] written on both, both are required. *)
Theorem struct_S_two_fields_not_required :
  (forall (st : pstate) (mn : string) (attrs : list (string * entity))
          (rest : list pymodule) (cid : nat),
     thrift_stack st = (mn, attrs) :: rest ->
     classes st = cid ->
     p_struct "S" struct_S_fields st
     = (Ok tt,
        PState ((mn, dict_set String.eqb attrs "S"
                       (EStruct (class_S (module_label (mn, attrs)) cid
                                   false))) :: rest)
          (include_dir_ st) (the_heap st) (S cid) (opened st)) /\
     p_struct "S" struct_S_required st
     = (Ok tt,
        PState ((mn, dict_set String.eqb attrs "S"
                       (EStruct (class_S (module_label (mn, attrs)) cid
                                   true))) :: rest)
          (include_dir_ st) (the_heap st) (S cid) (opened st))) /\
  (forall fuel : nat,
     parse (S fuel) (one_file "s.thrift" doc_struct_S) "s.thrift" None None
       initial_state
     = (Ok ("s", [("S", EStruct (class_S "s" 0 false))]),
        PState [] "." [] 1 ["s.thrift"])).
Proof.
  split; [|intros fuel; reflexivity].
  intros [stack dir h n log] mn attrs rest cid Hst Hn.
  simpl in Hst, Hn. subst stack n. split; reflexivity.
Qed.

(** ** References *)

Lemma split_on_nonempty (sep : ascii) (s : string) : split_on sep s <> [].
Proof.
  destruct s as [|c s]; simpl; [discriminate|].
  destruct (Ascii.eqb c sep); [discriminate|].
  destruct (split_on sep s); discriminate.
Qed.


(** ** The caster and the heap *)

(** Induction on type tags that reaches the field types of a class. *)
Lemma ttype_nested_ind (P : ttype -> Prop) :
  (forall b, P (TBase b)) ->
  P TVoid ->
  (forall e, P e -> P (TList e)) ->
  (forall e, P e -> P (TSet e)) ->
  (forall k v, P k -> P v -> P (TMap k v)) ->
  (forall c, P (TEnum c)) ->
  (forall c,
     Forall (fun kf : string * (bool * ttype) => P kf.2.2) (_tspec c) ->
     P (TStruct c)) ->
  (forall q, P (TOther q)) ->
  forall t, P t.
Proof.
  intros Hbase Hvoid Hlist Hset Hmap Henum Hstruct Hother.
  fix IH 1. intros [b| |e|e|k v|c|c|q].
  - apply Hbase.
  - apply Hvoid.
  - apply Hlist, IH.
  - apply Hset, IH.
  - apply Hmap; apply IH.
  - apply Henum.
  - apply Hstruct. destruct c as [cid mn name base ts ds tsp ow]. simpl.
    induction tsp as [|[key [req t]] tsp IHtsp]; constructor.
    + apply IH.
    + exact IHtsp.
  - apply Hother.
Qed.

Lemma obj_frame_refl (o : obj) : obj_frame o o.
Proof. destruct o; simpl; eauto. Qed.

Lemma obj_frame_trans (o1 o2 o3 : obj) :
  obj_frame o1 o2 -> obj_frame o2 o3 -> obj_frame o1 o3.
Proof.
  destruct o1; simpl; intros H12 H23; try (subst o2; exact H23).
  destruct H12 as [d' ->]. exact H23.
Qed.

Lemma heap_frame_refl (h : heap) : heap_frame h h.
Proof. intros l o Hl. exists o. split; [exact Hl|apply obj_frame_refl]. Qed.

Lemma heap_frame_trans (h1 h2 h3 : heap) :
  heap_frame h1 h2 -> heap_frame h2 h3 -> heap_frame h1 h3.
Proof.
  intros H12 H23 l o Hl.
  destruct (H12 l o Hl) as (o2 & Hl2 & Ho2).
  destruct (H23 l o2 Hl2) as (o3 & Hl3 & Ho3).
  exists o3. split; [exact Hl3|]. eapply obj_frame_trans; eassumption.
Qed.

Lemma frames_reader {A} (g : heap -> res A) : frames (fun h => (g h, h)).
Proof. intros h. apply heap_frame_refl. Qed.

Lemma frames_ret {A} (a : A) : frames (ret a).
Proof. apply (frames_reader (fun _ => Ok a)). Qed.

Lemma frames_raise {A} (e : exn) : frames (raise (A := A) e).
Proof. apply (frames_reader (fun _ => Raise e)). Qed.

Lemma frames_get : frames (get (S := heap)).
Proof. apply (frames_reader (fun h => Ok h)). Qed.

Lemma frames_lift_res {A} (r : res A) : frames (lift_res r).
Proof. apply (frames_reader (fun _ => r)). Qed.

Lemma frames_py_assert (c : bool) : frames (py_assert c).
Proof. destruct c; [apply frames_ret|apply frames_raise]. Qed.

Lemma frames_bind {A B} (m : M A) (k : A -> M B) :
  frames m -> (forall a, frames (k a)) -> frames (bind m k).
Proof.
  intros Hm Hk h. unfold bind. specialize (Hm h).
  destruct (m h) as [[a|e] h1]; simpl in *.
  - eapply heap_frame_trans; [exact Hm|apply Hk].
  - exact Hm.
Qed.

Lemma frames_for_each {A} (l : list A) (body : A -> M unit) :
  (forall x, frames (body x)) -> frames (for_each l body).
Proof.
  intros Hb. induction l as [|x l IH]; simpl.
  - apply frames_ret.
  - apply frames_bind; [apply Hb|]. intros _. exact IH.
Qed.

Lemma frames_alloc (o : obj) : frames (alloc o).
Proof.
  intros h l o' Hl. simpl. exists o'. split; [|apply obj_frame_refl].
  apply lookup_app_l_Some. exact Hl.
Qed.

Lemma frames_items_of (v : value) : frames (items_of v).
Proof.
  intros h. unfold items_of.
  destruct (obj_of h v) as [[]|]; apply heap_frame_refl.
Qed.

Lemma frames_dict_entries (v : value) : frames (dict_entries v).
Proof.
  intros h. unfold dict_entries.
  destruct (obj_of h v) as [[]|]; apply heap_frame_refl.
Qed.

Lemma frames_dict_getitem (v key : value) : frames (dict_getitem v key).
Proof.
  apply frames_bind; [apply frames_dict_entries|]. intros d.
  destruct (dict_get py_eq d key); [apply frames_ret|apply frames_raise].
Qed.

Lemma frames_dict_setitem (v key x : value) : frames (dict_setitem v key x).
Proof.
  intros h. unfold dict_setitem.
  destruct v as [| | | | |l|]; try apply heap_frame_refl.
  destruct (h !! l) as [[items|items|d|cid attrs]|] eqn:Hl;
    try apply heap_frame_refl.
  destruct (hashable h key); [|apply heap_frame_refl].
  intros l' o Hl'. cbn [snd].
  destruct (decide (l = l')) as [<-|Hne].
  - rewrite Hl in Hl'. inversion Hl'; subst o.
    exists (ODict (dict_set py_eq d key x)). split.
    + apply list_lookup_insert_eq. eapply lookup_lt_Some. exact Hl.
    + simpl. eauto.
  - exists o. split; [|apply obj_frame_refl].
    rewrite list_lookup_insert_ne; [exact Hl'|exact Hne].
Qed.

Lemma frames_py_set (v : value) : frames (py_set v).
Proof.
  apply frames_bind; [apply frames_items_of|]. intros items.
  apply frames_bind; [apply frames_get|]. intros h.
  destruct (forallb (hashable h) items); [|apply frames_raise].
  apply frames_bind; [apply frames_alloc|]. intros r. apply frames_ret.
Qed.

Lemma frames_construct (c : struct_cls) (v : value) : frames (construct c v).
Proof.
  apply frames_bind; [apply frames_dict_entries|]. intros d.
  apply frames_bind; [apply frames_alloc|]. intros r. apply frames_ret.
Qed.

Lemma frames_base (c : value -> bool) (v : value) :
  frames (py_assert (c v) ;;; ret v).
Proof.
  apply frames_bind; [apply frames_py_assert|]. intros _. apply frames_ret.
Qed.

Lemma frames_lifted {B} (r : res caster) (k : caster -> M B) :
  (forall f, r = Ok f -> frames (k f)) -> frames (bind (lift_res r) k).
Proof.
  intros Hk h. unfold bind, lift_res.
  destruct r as [f|e]; [|apply heap_frame_refl]. apply Hk. reflexivity.
Qed.

Lemma frames_cast_list (elem : res caster) (v : value) :
  frames (__cast_list elem v).
Proof.
  apply frames_bind; [apply frames_get|]. intros h.
  apply frames_bind; [apply frames_py_assert|]. intros _.
  apply frames_lifted. intros f _. apply frames_ret.
Qed.

Lemma frames_cast_set (elem : res caster) (v : value) :
  frames (__cast_set elem v).
Proof.
  apply frames_bind; [apply frames_get|]. intros h.
  apply frames_bind; [apply frames_py_assert|]. intros _.
  apply frames_lifted. intros f _.
  destruct (negb (isinstance_set h v)); [apply frames_py_set|apply frames_ret].
Qed.

Lemma frames_cast_map (ck cv : res caster) (v : value) :
  caster_frames ck -> caster_frames cv -> frames (__cast_map ck cv v).
Proof.
  intros Hk Hv.
  apply frames_bind; [apply frames_get|]. intros h.
  apply frames_bind; [apply frames_py_assert|]. intros _.
  apply frames_bind; [apply frames_dict_entries|]. intros d.
  apply frames_bind; [|intros _; apply frames_ret].
  apply frames_for_each. intros key. cbv beta.
  apply frames_lifted. intros fv ->.
  apply frames_bind; [apply frames_dict_getitem|]. intros x.
  apply frames_bind; [apply Hv|]. intros x'.
  apply frames_lifted. intros fk ->.
  apply frames_bind; [apply Hk|]. intros key'.
  apply frames_dict_setitem.
Qed.

Lemma frames_cast_enum (c : enum_cls) (v : value) : frames (__cast_enum c v).
Proof.
  apply frames_bind; [apply frames_py_assert|]. intros _.
  destruct (enum_getattr c "_named_values"); [apply frames_raise|].
  destruct (in_enum c v); [apply frames_ret|apply frames_raise].
Qed.

Lemma py_eq_refl (v : value) : py_eq v v = true.
Proof.
  destruct v; unfold py_eq; simpl;
    first [apply Z.eqb_refl | apply String.eqb_refl | apply Nat.eqb_refl
          | reflexivity].
Qed.

Lemma dict_get_map_values {K V W} (eqb : K -> K -> bool) (g : V -> W)
    (d : list (K * V)) (k : K) :
  dict_get eqb (map (fun kv : K * V => (kv.1, g kv.2)) d) k
  = g <$> dict_get eqb d k.
Proof.
  induction d as [|[k0 v0] d IH]; simpl; [reflexivity|].
  destruct (eqb k0 k); [reflexivity|exact IH].
Qed.

(** The requirement check of [__cast_struct] on the mapping [d]. *)
Lemma requirement_check (c : struct_cls) (l : loc)
    (d : list (value * value)) (h : heap)
    (fields : list (string * (bool * res caster))) :
  h !! l = Some (ODict d) ->
  for_each fields
    (fun kf =>
       d0 <- dict_entries (VRef l) ;;
       if kf.2.1 && negb (dict_has py_eq d0 (VStr kf.1))
       then raise (ThriftParserError (FieldRequired kf.1 (st_name c)))
       else ret tt) h
  = match
      List.find (fun kf : string * (bool * res caster) =>
                   kf.2.1 && negb (dict_has py_eq d (VStr kf.1))) fields
    with
    | Some kf =>
        (Raise (ThriftParserError (FieldRequired kf.1 (st_name c))), h)
    | None => (Ok tt, h)
    end.
Proof.
  intros Hl. induction fields as [|kf fields IH]; [reflexivity|].
  cbn [for_each List.find]. unfold bind at 1. unfold bind at 1.
  unfold dict_entries at 1. cbn [obj_of]. rewrite Hl.
  destruct (kf.2.1 && negb (dict_has py_eq d (VStr kf.1))); [reflexivity|].
  exact IH.
Qed.

Lemma dict_get_elem_of {K V} (eqb : K -> K -> bool) (d : list (K * V)) k v :
  dict_get eqb d k = Some v -> exists k', (k', v) ∈ d.
Proof.
  induction d as [|[k0 v0] d IH]; simpl; [discriminate|].
  destruct (eqb k0 k).
  - intros H. inversion H; subst. exists k0. left.
  - intros H. destruct (IH H) as [k' Hk']. exists k'. right. exact Hk'.
Qed.

Lemma frames_cast_struct (c : struct_cls)
    (fields : list (string * (bool * res caster))) (v : value) :
  Forall (fun kf => caster_frames kf.2.2) fields ->
  frames (__cast_struct c fields v).
Proof.
  intros Hf.
  apply frames_bind; [apply frames_get|]. intros h.
  destruct (isinstance_cls h v (st_cid c)); [apply frames_ret|].
  apply frames_bind; [apply frames_py_assert|]. intros _.
  apply frames_bind.
  { apply frames_for_each. intros kf. cbv beta.
    apply frames_bind; [apply frames_dict_entries|]. intros d.
    destruct (_ && _); [apply frames_raise|apply frames_ret]. }
  intros _.
  apply frames_bind; [apply frames_dict_entries|]. intros d.
  apply frames_bind; [|intros _; apply frames_construct].
  apply frames_for_each. intros key. cbv beta.
  destruct (tspec_get fields key) as [rf|] eqn:Hget; [|apply frames_raise].
  assert (Hrf : caster_frames rf.2).
  { destruct key; simpl in Hget; try discriminate.
    apply dict_get_elem_of in Hget as [k' Hin].
    rewrite Forall_forall in Hf. apply (Hf _ Hin). }
  apply frames_lifted. intros f Heq. rewrite Heq in Hrf.
  apply frames_bind; [apply frames_dict_getitem|]. intros x.
  apply frames_bind; [apply Hrf|]. intros x'.
  apply frames_dict_setitem.
Qed.

Lemma cast_caster_frames (t : ttype) : caster_frames (_cast t).
Proof.
  induction t as [b| |e IH|e IH|k v IHk IHv|c|c IH|q] using ttype_nested_ind.
  - destruct b; intros x; apply frames_base.
  - exact I.
  - intros x. apply frames_cast_list.
  - intros x. apply frames_cast_set.
  - intros x. apply frames_cast_map; assumption.
  - intros x. apply frames_cast_enum.
  - intros x. apply frames_cast_struct.
    apply Forall_fmap. exact IH.
  - exact I.
Qed.

Lemma cast_frames (t : ttype) (v : value) : frames (cast t v).
Proof.
  unfold cast. apply frames_lifted. intros f Hf.
  pose proof (cast_caster_frames t) as H. rewrite Hf in H. apply H.
Qed.

(** *** Casters that return their argument *)

Lemma keeps_heap_reader {A} (g : heap -> res A) :
  keeps_heap (fun h => (g h, h)).
Proof. intros h. reflexivity. Qed.

Lemma keeps_heap_bind {A B} (m : M A) (k : A -> M B) :
  keeps_heap m -> (forall a, keeps_heap (k a)) -> keeps_heap (bind m k).
Proof.
  intros Hm Hk h. unfold bind. specialize (Hm h).
  destruct (m h) as [[a|e] h1]; simpl in *; subst h1.
  - apply Hk.
  - reflexivity.
Qed.

Lemma keeps_heap_for_each {A} (l : list A) (body : A -> M unit) :
  (forall x, keeps_heap (body x)) -> keeps_heap (for_each l body).
Proof.
  intros Hb. induction l as [|x l IH]; simpl.
  - apply (keeps_heap_reader (fun _ => Ok tt)).
  - apply keeps_heap_bind; [apply Hb|]. intros _. exact IH.
Qed.

Lemma keeps_heap_py_assert (c : bool) : keeps_heap (py_assert c).
Proof. destruct c; intros h; reflexivity. Qed.

Lemma keeps_heap_dict_entries (v : value) : keeps_heap (dict_entries v).
Proof.
  intros h. unfold dict_entries. destruct (obj_of h v) as [[]|]; reflexivity.
Qed.

Lemma returns_bind {A B} (v : B) (m : M A) (k : A -> M B) :
  (forall a, returns v (k a)) -> returns v (bind m k).
Proof.
  intros Hk h v'. unfold bind.
  destruct (m h) as [[a|e] h1]; simpl.
  - apply Hk.
  - discriminate.
Qed.

Lemma returns_ret {A} (v : A) : returns v (ret v).
Proof. intros h v' H. inversion H. reflexivity. Qed.

Lemma pure_caster_intro (f : caster) :
  (forall v, keeps_heap (f v)) -> (forall v, returns v (f v)) ->
  pure_caster f.
Proof. intros Hk Hr v h. split; [apply Hk|apply Hr]. Qed.

Lemma dict_set_get_id {K V} (eqb : K -> K -> bool) (d : list (K * V)) k v :
  dict_get eqb d k = Some v -> dict_set eqb d k v = d.
Proof.
  induction d as [|[k0 v0] d IH]; simpl; [discriminate|].
  destruct (eqb k0 k); intros H.
  - inversion H. reflexivity.
  - f_equal. apply IH, H.
Qed.

Lemma dict_setitem_same (v key x : value) (h : heap) d :
  obj_of h v = Some (ODict d) ->
  dict_get py_eq d key = Some x ->
  (dict_setitem v key x h).2 = h.
Proof.
  intros Hv Hg. destruct v; simpl in Hv; try discriminate.
  unfold dict_setitem. rewrite Hv.
  destruct (hashable h key); [|reflexivity]. cbn [snd].
  rewrite (dict_set_get_id _ _ _ _ Hg). apply list_insert_id. exact Hv.
Qed.

Lemma dict_getitem_inv (v key : value) (h : heap) :
  match dict_getitem v key h with
  | (Ok x, h') =>
      h' = h /\
      exists d, obj_of h v = Some (ODict d) /\ dict_get py_eq d key = Some x
  | (Raise _, h') => h' = h
  end.
Proof.
  unfold dict_getitem, bind, dict_entries.
  destruct (obj_of h v) as [[items|items|d|cid attrs]|]; try reflexivity.
  destruct (dict_get py_eq d key) as [x|] eqn:Hg; simpl; eauto.
Qed.


(** The body of the loop of [__cast_map] for such casters. *)
Lemma map_body_pure (fk fv : caster) (v key : value) :
  pure_caster fk -> pure_caster fv ->
  keeps_heap (f <- lift_res (Ok fv) ;; x <- dict_getitem v key ;;
              x' <- f x ;; g <- lift_res (Ok fk) ;; key' <- g key ;;
              dict_setitem v key' x').
Proof.
  intros Hk Hv h. unfold bind at 1. unfold lift_res at 1.
  unfold bind at 1.
  pose proof (dict_getitem_inv v key h) as Hget.
  destruct (dict_getitem v key h) as [[x|e] h1]; [|exact Hget].
  destruct Hget as (-> & d & Hd & Hg). unfold bind at 1.
  destruct (Hv x h) as [Hh Hx].
  destruct (fv x h) as [[x'|e] h2]; simpl in *; subst h2; [|reflexivity].
  rewrite (Hx x' eq_refl). unfold bind at 1. unfold lift_res.
  unfold bind.
  destruct (Hk key h) as [Hh' Hkey].
  destruct (fk key h) as [[key'|e] h2]; simpl in *; subst h2; [|reflexivity].
  rewrite (Hkey key' eq_refl). eapply dict_setitem_same; eassumption.
Qed.

Lemma pure_base (c : value -> bool) :
  pure_caster (fun v => py_assert (c v) ;;; ret v).
Proof.
  apply pure_caster_intro; intros v.
  - apply keeps_heap_bind; [apply keeps_heap_py_assert|].
    intros _. apply (keeps_heap_reader (fun _ => Ok v)).
  - apply returns_bind. intros _. apply returns_ret.
Qed.

Lemma pure_cast_list (elem : res caster) : pure_caster (__cast_list elem).
Proof.
  apply pure_caster_intro; intros v.
  - apply keeps_heap_bind; [apply (keeps_heap_reader (fun h => Ok h))|].
    intros h. apply keeps_heap_bind; [apply keeps_heap_py_assert|].
    intros _. apply keeps_heap_bind; [apply (keeps_heap_reader (fun _ => elem))|].
    intros f. apply (keeps_heap_reader (fun _ => Ok v)).
  - apply returns_bind. intros h. apply returns_bind. intros _.
    apply returns_bind. intros f. apply returns_ret.
Qed.

Lemma pure_cast_enum (c : enum_cls) : pure_caster (__cast_enum c).
Proof.
  apply pure_caster_intro; intros v.
  - apply keeps_heap_bind; [apply keeps_heap_py_assert|]. intros _.
    destruct (enum_getattr c "_named_values"); [intros h; reflexivity|].
    destruct (in_enum c v); intros h; reflexivity.
  - apply returns_bind. intros _.
    destruct (enum_getattr c "_named_values");
      [intros h v' H; discriminate|].
    destruct (in_enum c v); [apply returns_ret|]. intros h v' H. discriminate.
Qed.

Lemma pure_cast_map (fk fv : caster) :
  pure_caster fk -> pure_caster fv ->
  pure_caster (__cast_map (Ok fk) (Ok fv)).
Proof.
  intros Hk Hv. apply pure_caster_intro; intros v.
  - apply keeps_heap_bind; [apply (keeps_heap_reader (fun h => Ok h))|].
    intros h. apply keeps_heap_bind; [apply keeps_heap_py_assert|].
    intros _. apply keeps_heap_bind; [apply keeps_heap_dict_entries|].
    intros d. apply keeps_heap_bind.
    + apply keeps_heap_for_each. intros key. cbv beta.
      apply map_body_pure; assumption.
    + intros _. apply (keeps_heap_reader (fun _ => Ok v)).
  - apply returns_bind. intros h. apply returns_bind. intros _.
    apply returns_bind. intros d. apply returns_bind. intros _.
    apply returns_ret.
Qed.

Lemma returns_argument_pure (t : ttype) :
  returns_argument t = true -> exists f, _cast t = Ok f /\ pure_caster f.
Proof.
  induction t as [b| |e IH|e IH|k IHk v IHv|c|c|q]; simpl;
    intros H; try discriminate.
  - destruct b; eexists; (split; [reflexivity|]); apply pure_base.
  - eexists. split; [reflexivity|]. apply pure_cast_list.
  - apply andb_prop in H as [Hk Hv].
    destruct (IHk Hk) as (fk & -> & Hfk).
    destruct (IHv Hv) as (fv & -> & Hfv).
    eexists. split; [reflexivity|]. apply pure_cast_map; assumption.
  - eexists. split; [reflexivity|]. apply pure_cast_enum.
Qed.

(** *** Casters that overwrite nothing *)









Lemma cast_ok (t : ttype) (f : caster) (v : value) :
  _cast t = Ok f -> cast t v = f v.
Proof. unfold cast. intros ->. reflexivity. Qed.



(** *** Mapping entries stored back *)




(** A loop over the keys of the dict at [l] whose body stores [f key x]
    under [key], for the value [x] found there. *)
Section store_back.
Variable l : loc.
Variable f : value -> value -> M value.
Variable body : value -> M unit.
Hypothesis body_stores :
  forall (key : value) (hcur h2 : heap) (d : list (value * value)),
    hcur !! l = Some (ODict d) ->
    body key hcur = (Ok tt, h2) ->
    exists (x x' : value) (hi : heap),
      dict_get py_eq d key = Some x /\
      f key x hcur = (Ok x', hi) /\
      (forall l' o, hcur !! l' = Some o -> hi !! l' = Some o) /\
      h2 = <[l := ODict (dict_set py_eq d key x')]> hi.

End store_back.







(** ** Invariants of the grammar actions

    A property of actions that the primitives have, that is closed under
    sequencing and that depends only on what an action computes, holds for
    every action of the grammar. *)
Section action_invariant.
Variable Inv : forall A : Type, P A -> Prop.
Hypothesis Inv_ext :
  forall A (m m' : P A), (forall st, m st = m' st) -> Inv A m -> Inv A m'.
Hypothesis Inv_reader :
  forall A (g : pstate -> res A), Inv A (fun st => (g st, st)).
Hypothesis Inv_bind :
  forall A B (m : P A) (k : A -> P B),
    Inv A m -> (forall a, Inv B (k a)) -> Inv B (bind m k).
Hypothesis Inv_lift_heap : forall A (m : M A), Inv A (lift_heap m).
Hypothesis Inv_setattr_top :
  forall name e, Inv unit (setattr_top name e).
Hypothesis Inv_new_classes : forall n, Inv nat (new_classes n).
Hypothesis Inv_except_assertion :
  forall A (m : P A) e, Inv A m -> Inv A (except_assertion m e).

Lemma Inv_ret {A} (a : A) : Inv A (ret a).
Proof. apply (Inv_reader A (fun _ => Ok a)). Qed.

Lemma Inv_raise {A} (e : exn) : Inv A (raise e).
Proof. apply (Inv_reader A (fun _ => Raise e)). Qed.

Lemma Inv_lift_res {A} (r : res A) : Inv A (lift_res r).
Proof. apply (Inv_reader A (fun _ => r)). Qed.

Lemma Inv_get : Inv pstate get.
Proof. apply (Inv_reader pstate (fun st => Ok st)). Qed.

Lemma Inv_top : Inv pymodule top.
Proof.
  apply (Inv_ext _ (fun st => (match thrift_stack st with
                               | m :: _ => Ok m
                               | [] => Raise IndexError
                               end, st))).
  - intros st. unfold top. destruct (thrift_stack st); reflexivity.
  - apply Inv_reader.
Qed.

Lemma Inv_for_each {A} (l : list A) (body : A -> P unit) :
  (forall x, Inv unit (body x)) -> Inv unit (for_each l body).
Proof.
  intros Hb. induction l as [|x l IH]; simpl.
  - apply Inv_ret.
  - apply Inv_bind; [apply Hb|]. intros _. exact IH.
Qed.

Lemma Inv_p_ref_type (id : string) : Inv ttype (p_ref_type id).
Proof.
  apply Inv_bind; [apply Inv_top|]. intros thrift.
  destruct (walk _ _); [apply Inv_ret|apply Inv_raise].
Qed.

Lemma Inv_p_field_type (t : field_type) : Inv ttype (p_field_type t)
with Inv_p_definition_type (d : definition_type) :
  Inv ttype (p_definition_type d).
Proof.
  - destruct t as [id|d]; simpl.
    + apply Inv_p_ref_type.
    + apply Inv_p_definition_type.
  - destruct d as [b|k v|e|e]; simpl.
    + apply Inv_ret.
    + apply Inv_bind; [apply Inv_p_field_type|]. intros tk.
      apply Inv_bind; [apply Inv_p_field_type|]. intros tv.
      apply Inv_ret.
    + apply Inv_bind; [apply Inv_p_field_type|]. intros te.
      apply Inv_ret.
    + apply Inv_bind; [apply Inv_p_field_type|]. intros te.
      apply Inv_ret.
Qed.

Lemma Inv_p_const_ref (id : string) : Inv entity (p_const_ref id).
Proof.
  apply Inv_bind; [apply Inv_top|]. intros thrift. apply Inv_lift_res.
Qed.

Lemma Inv_p_const_value : forall c : const_value, Inv value (p_const_value c).
Proof.
  fix IH 1. intros [n|m e|s|b|items|items|id]; simpl.
  - apply Inv_ret.
  - apply Inv_ret.
  - apply Inv_ret.
  - apply Inv_ret.
  - apply Inv_bind.
    + induction items as [|x items IHitems]; [apply Inv_ret|].
      apply Inv_bind; [apply IH|]. intros v.
      apply Inv_bind; [exact IHitems|]. intros vs. apply Inv_ret.
    + intros vs. apply Inv_bind; [apply Inv_lift_heap|].
      intros r. apply Inv_ret.
  - apply Inv_bind.
    + induction items as [|[k x] items IHitems]; [apply Inv_ret|].
      apply Inv_bind; [apply IH|]. intros vk.
      apply Inv_bind; [apply IH|]. intros vx.
      apply Inv_bind; [exact IHitems|]. intros kvs. apply Inv_ret.
    + intros kvs. apply Inv_lift_heap.
  - apply Inv_bind; [apply Inv_p_const_ref|]. intros e. apply Inv_ret.
Qed.

Lemma Inv_p_field (d : field_decl) : Inv field (p_field d).
Proof.
  unfold p_field.
  apply Inv_bind; [apply Inv_p_field_type|]. intros t.
  destruct (fd_default d) as [c|]; [|apply Inv_ret].
  apply Inv_bind; [apply Inv_p_const_value|]. intros v.
  apply Inv_bind.
  - apply Inv_except_assertion, Inv_lift_heap.
  - intros val. apply Inv_ret.
Qed.

Lemma Inv_p_field_seq (ds : list field_decl) :
  Inv (list field) (p_field_seq ds).
Proof.
  induction ds as [|d ds IH]; simpl; [apply Inv_ret|].
  apply Inv_bind; [apply Inv_p_field|]. intros f.
  apply Inv_bind; [exact IH|]. intros fs. apply Inv_ret.
Qed.

Lemma Inv_p_function (d : function_decl) : Inv func (p_function d).
Proof.
  unfold p_function.
  apply Inv_bind.
  { destruct (fu_type d); simpl; [apply Inv_p_field_type|apply Inv_ret]. }
  intros t.
  apply Inv_bind; [apply Inv_p_field_seq|]. intros fields.
  apply Inv_bind.
  { destruct (fu_throws d); [apply Inv_p_field_seq|apply Inv_ret]. }
  intros throws. apply Inv_ret.
Qed.

Lemma Inv_p_function_seq (ds : list function_decl) :
  Inv (list func) (p_function_seq ds).
Proof.
  induction ds as [|d ds IH]; simpl; [apply Inv_ret|].
  apply Inv_bind; [apply Inv_p_function|]. intros f.
  apply Inv_bind; [exact IH|]. intros fs. apply Inv_ret.
Qed.

Lemma Inv_p_struct_like name ds base : Inv unit (p_struct_like name ds base).
Proof.
  unfold p_struct_like.
  apply Inv_bind; [apply Inv_p_field_seq|]. intros fields.
  apply Inv_bind; [apply Inv_top|]. intros thrift.
  apply Inv_bind; [apply Inv_new_classes|]. intros cid.
  apply Inv_bind; [apply Inv_lift_res|]. intros c.
  apply Inv_setattr_top.
Qed.

Lemma Inv_p_service name ext ds : Inv unit (p_service name ext ds).
Proof.
  unfold p_service.
  apply Inv_bind; [apply Inv_p_function_seq|]. intros funcs.
  apply Inv_bind; [apply Inv_top|]. intros thrift.
  apply Inv_bind.
  { destruct ext as [p4|]; [|apply Inv_ret].
    destruct (walk _ _) as [child|]; [|apply Inv_raise].
    destruct (has_thrift_services child); [|apply Inv_raise].
    destruct child; first [apply Inv_ret|apply Inv_raise]. }
  intros extends.
  apply Inv_bind; [apply Inv_new_classes|]. intros cid.
  apply Inv_bind; [apply Inv_lift_res|]. intros c.
  apply Inv_setattr_top.
Qed.

Lemma Inv_p_definition_unit (d : definition_unit) :
  Inv unit (p_definition_unit d).
Proof.
  destruct d as [t name v|t name|name items|name fs|name fs|name fs
                 |name ext fns]; simpl.
  - unfold p_const.
    apply Inv_bind; [apply Inv_p_field_type|]. intros ty.
    apply Inv_bind; [apply Inv_p_const_value|]. intros x.
    apply Inv_bind.
    + apply Inv_except_assertion, Inv_lift_heap.
    + intros val. apply Inv_setattr_top.
  - unfold p_typedef.
    apply Inv_bind; [apply Inv_p_definition_type|]. intros ty.
    apply Inv_setattr_top.
  - unfold p_enum.
    apply Inv_bind; [apply Inv_top|]. intros thrift.
    apply Inv_setattr_top.
  - apply Inv_p_struct_like.
  - apply Inv_p_struct_like.
  - apply Inv_p_struct_like.
  - apply Inv_p_service.
Qed.

Lemma Inv_parser_parse (parse_ : string -> P pymodule) (data : document) :
  (forall p, Inv pymodule (parse_ p)) -> Inv unit (parser_parse parse_ data).
Proof.
  intros Hp. unfold parser_parse.
  apply Inv_bind.
  - apply Inv_for_each. intros [p2|scope name]; simpl.
    + unfold p_include.
      apply Inv_bind; [apply Inv_get|].
      intros st. apply Inv_bind; [apply Hp|]. intros child.
      destruct (name_attr child) as [[]|?|?|?|?|? ?];
        first [apply Inv_setattr_top|apply Inv_raise].
    + apply Inv_ret.
  - intros _. apply Inv_for_each. intros d. apply Inv_p_definition_unit.
Qed.
End action_invariant.

(** ** The include directory *)

Lemma stable_refl (st : pstate) : stable st st.
Proof. split; reflexivity. Qed.

Lemma stable_trans (s1 s2 s3 : pstate) :
  stable s1 s2 -> stable s2 s3 -> stable s1 s3.
Proof.
  intros [Hd12 Hp12] [Hd23 Hp23]. split.
  - congruence.
  - etransitivity; eassumption.
Qed.

Lemma steady_reader {A} (g : pstate -> res A) : steady (fun st => (g st, st)).
Proof. intros st. apply stable_refl. Qed.

Lemma steady_ret {A} (a : A) : steady (ret a).
Proof. apply (steady_reader (fun _ => Ok a)). Qed.

Lemma steady_raise {A} (e : exn) : steady (raise (A := A) e).
Proof. apply (steady_reader (fun _ => Raise e)). Qed.

Lemma steady_lift_res {A} (r : res A) : steady (lift_res r).
Proof. apply (steady_reader (fun _ => r)). Qed.

Lemma steady_bind {A B} (m : P A) (k : A -> P B) :
  steady m -> (forall a, steady (k a)) -> steady (bind m k).
Proof.
  intros Hm Hk st. unfold bind. specialize (Hm st).
  destruct (m st) as [[a|e] st1]; simpl in *.
  - eapply stable_trans; [exact Hm|apply Hk].
  - exact Hm.
Qed.

Lemma steady_for_each {A} (l : list A) (body : A -> P unit) :
  (forall x, steady (body x)) -> steady (for_each l body).
Proof.
  intros Hb. induction l as [|x l IH]; simpl.
  - apply steady_ret.
  - apply steady_bind; [apply Hb|]. intros _. exact IH.
Qed.

Lemma steady_lift_heap {A} (m : M A) : steady (lift_heap m).
Proof.
  intros st. unfold lift_heap. destruct (m (the_heap st)) as [r h].
  split; reflexivity.
Qed.

Lemma steady_top : steady top.
Proof. intros st. unfold top. destruct (thrift_stack st); apply stable_refl. Qed.

Lemma steady_setattr_top (name : string) (e : entity) :
  steady (setattr_top name e).
Proof.
  intros st. unfold setattr_top.
  destruct (thrift_stack st) as [|[mn attrs] rest]; split; reflexivity.
Qed.

Lemma steady_push (m : pymodule) : steady (push m).
Proof. intros st. split; reflexivity. Qed.

Lemma steady_pop : steady pop.
Proof.
  intros st. unfold pop. destruct (thrift_stack st); split; reflexivity.
Qed.

Lemma steady_new_classes (n : nat) : steady (new_classes n).
Proof. intros st. split; reflexivity. Qed.

Lemma steady_open_file {D} (fs : string -> option D) (path : string) :
  steady (open_file fs path).
Proof.
  intros st. unfold open_file. destruct (fs path); [|apply stable_refl].
  split; [reflexivity|]. simpl. apply prefix_app_r. reflexivity.
Qed.

Lemma steady_except_assertion {A} (m : P A) (e : parser_error) :
  steady m -> steady (except_assertion m e).
Proof.
  intros Hm st. unfold except_assertion. specialize (Hm st).
  destruct (m st) as [[a|[]] st1]; exact Hm.
Qed.

Lemma steady_p_ref_type (id : string) : steady (p_ref_type id).
Proof.
  apply steady_bind; [apply steady_top|]. intros thrift.
  destruct (walk _ _); [apply steady_ret|apply steady_raise].
Qed.

Lemma steady_p_field_type (t : field_type) : steady (p_field_type t)
with steady_p_definition_type (d : definition_type) :
  steady (p_definition_type d).
Proof.
  - destruct t as [id|d]; simpl.
    + apply steady_p_ref_type.
    + apply steady_p_definition_type.
  - destruct d as [b|k v|e|e]; simpl.
    + apply steady_ret.
    + apply steady_bind; [apply steady_p_field_type|]. intros tk.
      apply steady_bind; [apply steady_p_field_type|]. intros tv.
      apply steady_ret.
    + apply steady_bind; [apply steady_p_field_type|]. intros te.
      apply steady_ret.
    + apply steady_bind; [apply steady_p_field_type|]. intros te.
      apply steady_ret.
Qed.

Lemma steady_p_const_ref (id : string) : steady (p_const_ref id).
Proof.
  apply steady_bind; [apply steady_top|]. intros thrift.
  apply steady_lift_res.
Qed.

Lemma steady_p_const_value : forall c : const_value, steady (p_const_value c).
Proof.
  fix IH 1. intros [n|m e|s|b|items|items|id]; simpl.
  - apply steady_ret.
  - apply steady_ret.
  - apply steady_ret.
  - apply steady_ret.
  - apply steady_bind.
    + induction items as [|x items IHitems]; [apply steady_ret|].
      apply steady_bind; [apply IH|]. intros v.
      apply steady_bind; [exact IHitems|]. intros vs. apply steady_ret.
    + intros vs. apply steady_bind; [apply steady_lift_heap|].
      intros r. apply steady_ret.
  - apply steady_bind.
    + induction items as [|[k x] items IHitems]; [apply steady_ret|].
      apply steady_bind; [apply IH|]. intros vk.
      apply steady_bind; [apply IH|]. intros vx.
      apply steady_bind; [exact IHitems|]. intros kvs. apply steady_ret.
    + intros kvs. apply steady_lift_heap.
  - apply steady_bind; [apply steady_p_const_ref|]. intros e.
    apply steady_ret.
Qed.

Lemma steady_p_field (d : field_decl) : steady (p_field d).
Proof.
  unfold p_field.
  apply steady_bind; [apply steady_p_field_type|]. intros t.
  destruct (fd_default d) as [c|]; [|apply steady_ret].
  apply steady_bind; [apply steady_p_const_value|]. intros v.
  apply steady_bind.
  - apply steady_except_assertion, steady_lift_heap.
  - intros val. apply steady_ret.
Qed.

Lemma steady_p_field_seq (ds : list field_decl) : steady (p_field_seq ds).
Proof.
  induction ds as [|d ds IH]; simpl; [apply steady_ret|].
  apply steady_bind; [apply steady_p_field|]. intros f.
  apply steady_bind; [exact IH|]. intros fs. apply steady_ret.
Qed.

Lemma steady_p_function (d : function_decl) : steady (p_function d).
Proof.
  unfold p_function.
  apply steady_bind.
  { destruct (fu_type d); simpl;
      [apply steady_p_field_type|apply steady_ret]. }
  intros t.
  apply steady_bind; [apply steady_p_field_seq|]. intros fields.
  apply steady_bind.
  { destruct (fu_throws d); [apply steady_p_field_seq|apply steady_ret]. }
  intros throws. apply steady_ret.
Qed.

Lemma steady_p_function_seq (ds : list function_decl) :
  steady (p_function_seq ds).
Proof.
  induction ds as [|d ds IH]; simpl; [apply steady_ret|].
  apply steady_bind; [apply steady_p_function|]. intros f.
  apply steady_bind; [exact IH|]. intros fs. apply steady_ret.
Qed.

Lemma steady_p_struct_like name ds base : steady (p_struct_like name ds base).
Proof.
  unfold p_struct_like.
  apply steady_bind; [apply steady_p_field_seq|]. intros fields.
  apply steady_bind; [apply steady_top|]. intros thrift.
  apply steady_bind; [apply steady_new_classes|]. intros cid.
  apply steady_bind; [apply steady_lift_res|]. intros c.
  apply steady_setattr_top.
Qed.

Lemma steady_p_service name ext ds : steady (p_service name ext ds).
Proof.
  unfold p_service.
  apply steady_bind; [apply steady_p_function_seq|]. intros funcs.
  apply steady_bind; [apply steady_top|]. intros thrift.
  apply steady_bind.
  { destruct ext as [p4|]; [|apply steady_ret].
    destruct (walk _ _) as [child|]; [|apply steady_raise].
    destruct (has_thrift_services child); [|apply steady_raise].
    destruct child; first [apply steady_ret|apply steady_raise]. }
  intros extends.
  apply steady_bind; [apply steady_new_classes|]. intros cid.
  apply steady_bind; [apply steady_lift_res|]. intros c.
  apply steady_setattr_top.
Qed.

Lemma steady_p_definition_unit (d : definition_unit) :
  steady (p_definition_unit d).
Proof.
  destruct d as [t name v|t name|name items|name fs|name fs|name fs
                 |name ext fns]; simpl.
  - unfold p_const.
    apply steady_bind; [apply steady_p_field_type|]. intros ty.
    apply steady_bind; [apply steady_p_const_value|]. intros x.
    apply steady_bind.
    + apply steady_except_assertion, steady_lift_heap.
    + intros val. apply steady_setattr_top.
  - unfold p_typedef.
    apply steady_bind; [apply steady_p_definition_type|]. intros ty.
    apply steady_setattr_top.
  - unfold p_enum.
    apply steady_bind; [apply steady_top|]. intros thrift.
    apply steady_setattr_top.
  - apply steady_p_struct_like.
  - apply steady_p_struct_like.
  - apply steady_p_struct_like.
  - apply steady_p_service.
Qed.

Lemma steady_parser_parse (parse_ : string -> P pymodule) (data : document) :
  (forall p, steady (parse_ p)) -> steady (parser_parse parse_ data).
Proof.
  intros Hp. unfold parser_parse.
  apply steady_bind.
  - apply steady_for_each. intros [p2|scope name]; simpl.
    + unfold p_include.
      apply steady_bind; [apply (steady_reader (fun st => Ok st))|].
      intros st. apply steady_bind; [apply Hp|]. intros child.
      destruct (name_attr child) as [[]|?|?|?|?|? ?];
        first [apply steady_setattr_top|apply steady_raise].
    + apply steady_ret.
  - intros _. apply steady_for_each. intros d.
    apply steady_p_definition_unit.
Qed.

(** What follows [open(path)] in [parse]. *)
Lemma steady_parse_tail (parse_ : string -> P pymodule)
    (path : string) (module_name : option string) (data : document) :
  (forall p, steady (parse_ p)) ->
  steady
    (match module_name with
     | Some mn =>
         if negb (endswith mn "_thrift")
         then raise (ThriftParserError ModuleSuffix)
         else ret tt
     | None => ret tt
     end ;;;
     push (match module_name with
           | Some mn => mn
           | None => drop_last 7 (os_path_basename path)
           end, []) ;;;
     parser_parse parse_ data ;;;
     pop).
Proof.
  intros Hp.
  apply steady_bind.
  { destruct module_name as [mn|]; [|apply steady_ret].
    destruct (negb _); [apply steady_raise|apply steady_ret]. }
  intros _. apply steady_bind; [apply steady_push|].
  intros _. apply steady_bind; [apply steady_parser_parse, Hp|].
  intros _. apply steady_pop.
Qed.

Lemma steady_parse_body (parse_ : string -> P pymodule)
    (fs : string -> option document) (path : string)
    (module_name : option string) :
  (forall p, steady (parse_ p)) ->
  steady (parse_body parse_ fs path module_name).
Proof.
  intros Hp. unfold parse_body.
  destruct (negb (endswith path ".thrift")); [apply steady_raise|].
  apply steady_bind; [apply steady_open_file|]. intros data.
  apply steady_parse_tail, Hp.
Qed.

Lemma steady_parse (fs : string -> option document) (fuel : nat) :
  forall path module_name, steady (parse fuel fs path module_name None).
Proof.
  induction fuel as [|fuel IH]; intros path module_name; simpl.
  - apply steady_raise.
  - apply steady_bind; [apply steady_ret|]. intros _.
    apply steady_parse_body. intros p. apply IH.
Qed.

Lemma prefix_bind {A B} (m : P A) (k : A -> P B) (st : pstate)
    (l : list string) :
  l `prefix_of` opened (m st).2 ->
  (forall a, steady (k a)) ->
  l `prefix_of` opened (bind m k st).2.
Proof.
  intros Hm Hk. unfold bind.
  destruct (m st) as [[a|e] st1]; simpl in *; [|exact Hm].
  etransitivity; [exact Hm|]. apply (Hk a st1).
Qed.

(** [parse_body] opens [path] first. *)
Lemma parse_body_opens (parse_ : string -> P pymodule)
    (fs : string -> option document) (path : string)
    (module_name : option string) (data : document) (st : pstate) :
  (forall p, steady (parse_ p)) ->
  endswith path ".thrift" = true ->
  fs path = Some data ->
  (opened st ++ [path])
    `prefix_of` opened (parse_body parse_ fs path module_name st).2.
Proof.
  intros Hp Hend Hfs. unfold parse_body. rewrite Hend. cbn [negb].
  unfold bind at 1. unfold open_file at 1. rewrite Hfs.
  apply (steady_parse_tail parse_ path module_name data Hp
           (PState (thrift_stack st) (include_dir_ st) (the_heap st)
              (classes st) (opened st ++ [path]))).
Qed.

Lemma bind_step {S A B} (m : SE S A) (k : A -> SE S B) (s s1 : S) (a : A) :
  m s = (Ok a, s1) -> bind m k s = k a s1.
Proof. intros H. unfold bind. rewrite H. reflexivity. Qed.

(** [parse_body] on a file that starts with [include p2]: after [path],
    the next file read is the one [parse_] reads for
    [os.path.join(include_dir_, p2)]. *)
Lemma parse_body_first_include (parse_ : string -> P pymodule)
    (fs : string -> option document) (path : string)
    (module_name : option string) (p2 : string) (us : list header_unit)
    (defs : list definition_unit) (st : pstate) (suffix : list string) :
  (forall p, steady (parse_ p)) ->
  endswith path ".thrift" = true ->
  fs path = Some (Document (Include p2 :: us) defs) ->
  match module_name with
  | Some mn => endswith mn "_thrift" = true
  | None => True
  end ->
  (forall st' : pstate,
     include_dir_ st' = include_dir_ st ->
     (opened st' ++ suffix)
       `prefix_of`
       opened (parse_ (os_path_join (include_dir_ st) p2) st').2) ->
  (opened st ++ [path] ++ suffix)
    `prefix_of` opened (parse_body parse_ fs path module_name st).2.
Proof.
  intros Hp Hend Hfs Hmn Hq. unfold parse_body. rewrite Hend. cbn [negb].
  unfold bind at 1. unfold open_file at 1. rewrite Hfs.
  erewrite bind_step.
  2:{ destruct module_name as [mn|]; [rewrite Hmn|]; reflexivity. }
  erewrite bind_step by reflexivity.
  apply prefix_bind; [|intros _; apply steady_pop].
  unfold parser_parse. cbn [header definition].
  apply prefix_bind.
  2:{ intros _. apply steady_for_each. intros d.
      apply steady_p_definition_unit. }
  cbn [for_each].
  apply prefix_bind.
  2:{ intros _. apply steady_for_each. intros [q|scope name]; simpl.
      - unfold p_include.
        apply steady_bind; [apply (steady_reader (fun s => Ok s))|].
        intros s. apply steady_bind; [apply Hp|]. intros child.
        destruct (name_attr child) as [[]|?|?|?|?|? ?];
          first [apply steady_setattr_top|apply steady_raise].
      - apply steady_ret. }
  cbn [p_header_unit]. unfold p_include.
  erewrite bind_step by reflexivity.
  apply prefix_bind.
  2:{ intros child. destruct (name_attr child) as [[]|?|?|?|?|? ?];
        first [apply steady_setattr_top|apply steady_raise]. }
  cbn [include_dir_]. rewrite app_assoc.
  apply (Hq (PState _ _ _ _ _)). reflexivity.
Qed.

Lemma parse_include_dir (fs : string -> option document) (fuel : nat)
    (path : string) (module_name include_dir : option string)
    (st : pstate) :
  include_dir_ (parse (S fuel) fs path module_name include_dir st).2
  = default (include_dir_ st) include_dir.
Proof.
  destruct include_dir as [d|].
  - cbn [parse default]. erewrite bind_step by reflexivity.
    apply (steady_parse_body (fun p => parse fuel fs p None None) fs path
             module_name (fun p => steady_parse fs fuel p None)
             (PState (thrift_stack st) d (the_heap st) (classes st)
                (opened st))).
  - apply (steady_parse fs (S fuel) path module_name st).
Qed.

Lemma run_calls_include_dir (fs : string -> option document) (fuel : nat)
    (calls : list (string * option string * option string)) :
  forall st : pstate,
    include_dir_ (run_calls (S fuel) fs calls st)
    = last_include_dir calls (include_dir_ st).
Proof.
  induction calls as [|[[path mn] d] calls IH]; intros st.
  - reflexivity.
  - cbn [run_calls]. rewrite IH, parse_include_dir. reflexivity.
Qed.

(** *** The files that a call opens *)

Lemma included_from_mono (dir : string) (fs : string -> option document)
    (known known' : list string) (q : string) :
  (forall p, p ∈ known -> p ∈ known') ->
  included_from dir fs known q -> included_from dir fs known' q.
Proof.
  intros Hsub (parent & data & p2 & Hin & Hfs & Hinc & Hq).
  exists parent, data, p2. auto.
Qed.

Lemma opens_nothing_ext {A} (m m' : P A) :
  (forall st, m st = m' st) -> opens_nothing m -> opens_nothing m'.
Proof. intros He Hm st. rewrite <- He. apply Hm. Qed.

Lemma opens_nothing_reader {A} (g : pstate -> res A) :
  opens_nothing (fun st => (g st, st)).
Proof. intros st. split; reflexivity. Qed.

Lemma opens_nothing_bind {A B} (m : P A) (k : A -> P B) :
  opens_nothing m -> (forall a, opens_nothing (k a)) ->
  opens_nothing (bind m k).
Proof.
  intros Hm Hk st. unfold bind. specialize (Hm st).
  destruct (m st) as [[a|e] s1]; simpl in *; [|exact Hm].
  destruct (Hk a s1) as [Hd Ho]. destruct Hm as [Hd1 Ho1].
  split; congruence.
Qed.

Lemma opens_nothing_lift_heap {A} (m : M A) : opens_nothing (lift_heap m).
Proof.
  intros st. unfold lift_heap. destruct (m (the_heap st)).
  split; reflexivity.
Qed.

Lemma opens_nothing_setattr_top (name : string) (e : entity) :
  opens_nothing (setattr_top name e).
Proof.
  intros st. unfold setattr_top.
  destruct (thrift_stack st) as [|[mn attrs] rest]; split; reflexivity.
Qed.

Lemma opens_nothing_new_classes (n : nat) : opens_nothing (new_classes n).
Proof. intros st. split; reflexivity. Qed.

Lemma opens_nothing_except_assertion {A} (m : P A) (e : parser_error) :
  opens_nothing m -> opens_nothing (except_assertion m e).
Proof.
  intros Hm st. unfold except_assertion. specialize (Hm st).
  destruct (m st) as [[a|[]] s1]; exact Hm.
Qed.

Lemma opens_nothing_p_definition_unit (d : definition_unit) :
  opens_nothing (p_definition_unit d).
Proof.
  apply (Inv_p_definition_unit (@opens_nothing)).
  - intros A m m'. apply opens_nothing_ext.
  - intros A g. apply opens_nothing_reader.
  - intros A B m k. apply opens_nothing_bind.
  - intros A m. apply opens_nothing_lift_heap.
  - apply opens_nothing_setattr_top.
  - apply opens_nothing_new_classes.
  - intros A m e. apply opens_nothing_except_assertion.
Qed.

Lemma opens_nothing_for_each {A} (l : list A) (body : A -> P unit) :
  (forall x, opens_nothing (body x)) -> opens_nothing (for_each l body).
Proof.
  intros Hb. induction l as [|x l IH]; simpl.
  - apply (opens_nothing_reader (fun _ => Ok tt)).
  - apply opens_nothing_bind; [apply Hb|]. intros _. exact IH.
Qed.

Lemma opens_nothing_pop : opens_nothing pop.
Proof.
  intros st. unfold pop. destruct (thrift_stack st); split; reflexivity.
Qed.

(** One include statement: the file it names is read by [parse_], and
    nothing else is opened. *)
Lemma include_follows (dir : string) (fs : string -> option document)
    (parse_ : string -> P pymodule) (p2 : string) (st : pstate) :
  follows_includes dir fs parse_ ->
  include_dir_ st = dir ->
  reads_from dir fs (os_path_join dir p2) st (p_include parse_ p2 st).
Proof.
  intros Hf Hdir. unfold reads_from, p_include.
  erewrite bind_step by reflexivity. rewrite Hdir.
  destruct (Hf (os_path_join dir p2) st Hdir)
    as (tr & Hd1 & Ho1 & Hres & Hsucc).
  exists tr. unfold bind.
  destruct (parse_ (os_path_join dir p2) st) as [[child|e] s1];
    cbn [fst snd] in *.
  - assert (Htail : forall m : P unit, opens_nothing m ->
              include_dir_ (m s1).2 = dir /\
              opened (m s1).2 = opened st ++ tr /\
              resolved_against dir fs (os_path_join dir p2) tr /\
              (is_ok (m s1).1 = true ->
               tr <> [] /\ includes_followed dir fs tr)).
    { intros m Hm. destruct (Hm s1) as [Hd2 Ho2].
      split; [rewrite Hd2; exact Hd1|]. split; [rewrite Ho2; exact Ho1|].
      split; [exact Hres|]. intros _. apply Hsucc. reflexivity. }
    destruct (name_attr child) as [[]|?|?|?|?|? ?]; apply Htail;
      first [apply opens_nothing_setattr_top
            |apply (opens_nothing_reader (fun _ => Raise _))].
  - split; [exact Hd1|]. split; [exact Ho1|]. split; [exact Hres|].
    discriminate.
Qed.

(** The headers of the file [path], or the last of them: every file opened
    is named by an include of [path] or of a file opened before. *)
Lemma headers_follow (dir : string) (fs : string -> option document)
    (path : string) (data : document) (parse_ : string -> P pymodule) :
  follows_includes dir fs parse_ ->
  fs path = Some data ->
  forall hs : list header_unit,
    (forall u, In u hs -> In u (header data)) ->
    forall st : pstate,
      include_dir_ st = dir ->
      exists tr : list string,
        include_dir_ (for_each hs (p_header_unit parse_) st).2 = dir /\
        opened (for_each hs (p_header_unit parse_) st).2 = opened st ++ tr /\
        Forall (included_from dir fs (path :: tr)) tr /\
        (is_ok (for_each hs (p_header_unit parse_) st).1 = true ->
         (forall p2, In (Include p2) hs -> os_path_join dir p2 ∈ tr) /\
         includes_followed dir fs tr).
Proof.
  intros Hf Hfs. induction hs as [|u hs IH]; intros Hsub st Hdir.
  - exists []. cbn [for_each]. rewrite app_nil_r.
    split; [exact Hdir|]. split; [reflexivity|]. split; [constructor|].
    intros _. split; [intros p2 []|].
    intros q d p2 Hq. inversion Hq.
  - assert (Hsub' : forall u', In u' hs -> In u' (header data)).
    { intros u' Hu'. apply Hsub. right. exact Hu'. }
    destruct u as [p2|scope name]; cbn [for_each p_header_unit].
    2:{ destruct (IH Hsub' st Hdir) as (tr & Hd & Ho & Hall & Hsucc).
        exists tr. change (bind (ret tt) _ st) with
          (for_each hs (p_header_unit parse_) st).
        split; [exact Hd|]. split; [exact Ho|]. split; [exact Hall|].
        intros Hok. destruct (Hsucc Hok) as [Hin Hfol].
        split; [|exact Hfol].
        intros p2 [Habs|Hp2]; [discriminate|]. apply Hin, Hp2. }
    destruct (include_follows dir fs parse_ p2 st Hf Hdir)
      as (trc & Hd1 & Ho1 & Hres & Hsucc1).
    assert (Hhead : Forall (included_from dir fs (path :: trc)) trc).
    { destruct trc as [|q trc']; [constructor|].
      destruct Hres as [-> Htl]. constructor.
      - exists path, data, p2. split; [left|]. split; [exact Hfs|].
        split; [apply Hsub; left; reflexivity|reflexivity].
      - eapply Forall_impl; [exact Htl|]. intros q.
        apply included_from_mono. intros p Hp. right. exact Hp. }
    unfold bind.
    destruct (p_include parse_ p2 st) as [[[]|e] s1]; cbn [fst snd] in *.
    + destruct (IH Hsub' s1 Hd1) as (tr2 & Hd2 & Ho2 & Hall2 & Hsucc2).
      exists (trc ++ tr2).
      split; [exact Hd2|]. split; [rewrite Ho2, Ho1, app_assoc; reflexivity|].
      split.
      * apply Forall_app. split.
        -- eapply Forall_impl; [exact Hhead|]. intros q.
           apply included_from_mono. intros p Hp.
           apply elem_of_cons in Hp as [->|Hp]; [left|].
           right. apply elem_of_app. left. exact Hp.
        -- eapply Forall_impl; [exact Hall2|]. intros q.
           apply included_from_mono. intros p Hp.
           apply elem_of_cons in Hp as [->|Hp]; [left|].
           right. apply elem_of_app. right. exact Hp.
      * intros Hok. destruct (Hsucc1 eq_refl) as [Hne Hfol1].
        destruct (Hsucc2 Hok) as [Hin2 Hfol2]. split.
        -- intros p2' [Heq|Hp2].
           ++ inversion Heq; subst p2'. apply elem_of_app. left.
              destruct trc as [|q trc']; [contradiction|].
              destruct Hres as [-> _]. left.
           ++ apply elem_of_app. right. apply Hin2, Hp2.
        -- intros q d p2' Hq Hd Hinc. apply elem_of_app.
           apply elem_of_app in Hq as [Hq|Hq].
           ++ left. eapply Hfol1; eassumption.
           ++ right. eapply Hfol2; eassumption.
    + exists trc. split; [exact Hd1|]. split; [exact Ho1|].
      split; [exact Hhead|]. discriminate.
Qed.

Lemma parse_body_follows (dir : string) (fs : string -> option document)
    (parse_ : string -> P pymodule) (module_name : option string) :
  follows_includes dir fs parse_ ->
  follows_includes dir fs
    (fun path => parse_body parse_ fs path module_name).
Proof.
  intros Hf path st Hdir. unfold parse_body.
  destruct (negb (endswith path ".thrift")).
  { exists []. rewrite app_nil_r. cbn [raise fst snd].
    repeat split; auto. discriminate. }
  unfold bind at 1. unfold open_file at 1.
  destruct (fs path) as [data|] eqn:Hfs.
  2:{ exists []. rewrite app_nil_r. cbn [fst snd].
      repeat split; auto. discriminate. }
  set (s0 := PState (thrift_stack st) (include_dir_ st) (the_heap st)
               (classes st) (opened st ++ [path])).
  assert (Hone : forall (A : Type) (e : exn),
            reads_from (A:=A) dir fs path st (Raise e, s0)).
  { intros A e. exists [path]. cbn [fst snd]. unfold s0.
    cbn [include_dir_ opened].
    split; [exact Hdir|]. split; [reflexivity|].
    split; [split; [reflexivity|constructor]|]. discriminate. }
  unfold bind at 1.
  destruct ((match module_name with
             | Some mn =>
                 if negb (endswith mn "_thrift")
                 then raise (ThriftParserError ModuleSuffix)
                 else ret tt
             | None => ret tt
             end) s0) as [[[]|e] s1] eqn:Hcheck.
  2:{ assert (Hs1 : s1 = s0).
      { destruct module_name as [mn|]; [|discriminate].
        destruct (negb (endswith mn "_thrift")); inversion Hcheck;
          reflexivity. }
      subst s1. apply Hone. }
  assert (Hs1 : s1 = s0).
  { destruct module_name as [mn|]; [|inversion Hcheck; reflexivity].
    destruct (negb (endswith mn "_thrift")); inversion Hcheck; reflexivity. }
  subst s1. clear Hcheck.
  erewrite bind_step by reflexivity.
  set (s2 := PState _ (include_dir_ s0) (the_heap s0) (classes s0) (opened s0)).
  assert (Hdir2 : include_dir_ s2 = dir) by exact Hdir.
  destruct (headers_follow dir fs path data parse_ Hf Hfs (header data)
              (fun u Hu => Hu) s2 Hdir2)
    as (trh & Hdh & Hoh & Hallh & Hsucch).
  exists (path :: trh). unfold parser_parse, bind.
  destruct (for_each (header data) (p_header_unit parse_) s2)
    as [[[]|e] s3]; cbn [fst snd] in *.
  - pose proof (opens_nothing_for_each (definition data) p_definition_unit
                  opens_nothing_p_definition_unit s3) as [Hdd Hod].
    destruct (for_each (definition data) p_definition_unit s3)
      as [[[]|e] s4]; cbn [fst snd] in *.
    + destruct (opens_nothing_pop s4) as [Hdp Hop].
      split; [congruence|]. split.
      { rewrite Hop, Hod, Hoh. unfold s2, s0. cbn [opened].
        rewrite <- app_assoc. reflexivity. }
      split; [split; [reflexivity|exact Hallh]|].
      intros _. split; [discriminate|].
      destruct (Hsucch eq_refl) as [Hin Hfol].
      intros q d p2 Hq Hd Hinc. right.
      apply elem_of_cons in Hq as [->|Hq].
      * rewrite Hfs in Hd. inversion Hd; subst d. apply Hin, Hinc.
      * eapply Hfol; eassumption.
    + split; [congruence|]. split.
      { rewrite Hod, Hoh. unfold s2, s0. cbn [opened].
        rewrite <- app_assoc. reflexivity. }
      split; [split; [reflexivity|exact Hallh]|]. discriminate.
  - split; [exact Hdh|]. split.
    { rewrite Hoh. unfold s2, s0. cbn [opened].
      rewrite <- app_assoc. reflexivity. }
    split; [split; [reflexivity|exact Hallh]|]. discriminate.
Qed.

Lemma parse_follows (fs : string -> option document) (fuel : nat) :
  forall dir : string,
    follows_includes dir fs (fun p => parse fuel fs p None None).
Proof.
  induction fuel as [|fuel IH]; intros dir path st Hdir.
  - exists []. rewrite app_nil_r. cbn [parse raise fst snd].
    repeat split; auto. discriminate.
  - cbn [parse]. erewrite bind_step by reflexivity.
    apply (parse_body_follows dir fs _ None (IH dir) path st Hdir).
Qed.

(** C9 as amended.  A call of [parse] assigns [include_dir_] when
    [include_dir] is given and leaves it as it is when [include_dir] is
    omitted, whether the call returns or raises; after any sequence of
    calls it holds the [include_dir] of the last call that gave one, and
    that of the initial state, the current directory, when none did.  In a
    call that omits [include_dir], for a file that starts with
    [include p2], the file read after [path] is
    [os.path.join(include_dir_, p2)].  In every call, the files opened are
    [path] and then only files named by an include statement of a file
    opened in the call, at any depth and in any position, joined to the
    [include_dir] given, or to [include_dir_] as the call found it when
    none is given; and when the call returns, every include statement of
    every file it opened has been resolved in that way.  So after any
    sequence of calls, a call that omits [include_dir] resolves all its
    includes against the [include_dir] of the last call that gave one. *)
Theorem include_dir_is_kept_between_calls :
  (forall (fs : string -> option document) (fuel : nat) (path : string)
          (module_name include_dir : option string) (st : pstate),
     include_dir_ (parse (S fuel) fs path module_name include_dir st).2
     = default (include_dir_ st) include_dir) /\
  (forall (fs : string -> option document) (fuel : nat)
          (calls : list (string * option string * option string)),
     include_dir_ (run_calls (S fuel) fs calls initial_state)
     = last_include_dir calls ".") /\
  (forall (fs : string -> option document) (fuel : nat) (path : string)
          (module_name : option string) (p2 : string)
          (us : list header_unit) (defs : list definition_unit)
          (child : document) (st : pstate),
     endswith path ".thrift" = true ->
     fs path = Some (Document (Include p2 :: us) defs) ->
     match module_name with
     | Some mn => endswith mn "_thrift" = true
     | None => True
     end ->
     endswith (os_path_join (include_dir_ st) p2) ".thrift" = true ->
     fs (os_path_join (include_dir_ st) p2) = Some child ->
     (opened st ++ [path; os_path_join (include_dir_ st) p2])
       `prefix_of`
       opened (parse (S (S fuel)) fs path module_name None st).2) /\
  (forall (fs : string -> option document) (fuel : nat) (path : string)
          (module_name include_dir : option string) (st : pstate),
     exists tr : list string,
       opened (parse fuel fs path module_name include_dir st).2
       = opened st ++ tr /\
       resolved_against (default (include_dir_ st) include_dir) fs path tr /\
       (is_ok (parse fuel fs path module_name include_dir st).1 = true ->
        tr <> [] /\
        includes_followed (default (include_dir_ st) include_dir) fs tr)) /\
  (forall (fs : string -> option document) (fuel fuel' : nat)
          (calls : list (string * option string * option string))
          (path : string) (module_name : option string),
     exists tr : list string,
       opened (parse fuel' fs path module_name None
                 (run_calls (S fuel) fs calls initial_state)).2
       = opened (run_calls (S fuel) fs calls initial_state) ++ tr /\
       resolved_against (last_include_dir calls ".") fs path tr /\
       (is_ok (parse fuel' fs path module_name None
                 (run_calls (S fuel) fs calls initial_state)).1 = true ->
        tr <> [] /\ includes_followed (last_include_dir calls ".") fs tr)).
Proof.
  assert (Hall : forall (fs : string -> option document) (fuel : nat)
            (path : string) (module_name include_dir : option string)
            (st : pstate),
     exists tr : list string,
       opened (parse fuel fs path module_name include_dir st).2
       = opened st ++ tr /\
       resolved_against (default (include_dir_ st) include_dir) fs path tr /\
       (is_ok (parse fuel fs path module_name include_dir st).1 = true ->
        tr <> [] /\
        includes_followed (default (include_dir_ st) include_dir) fs tr)).
  { intros fs fuel path module_name include_dir st.
    destruct fuel as [|fuel].
    - exists []. rewrite app_nil_r. cbn [parse raise fst snd].
      repeat split; auto. discriminate.
    - cbn [parse].
      assert (Hst :
        (match include_dir with
         | Some d => set_include_dir d
         | None => ret tt
         end) st
        = (Ok tt, PState (thrift_stack st)
                    (default (include_dir_ st) include_dir) (the_heap st)
                    (classes st) (opened st))).
      { destruct include_dir; destruct st; reflexivity. }
      rewrite (bind_step _ _ _ _ _ Hst).
      destruct (parse_body_follows (default (include_dir_ st) include_dir)
                  fs (fun p => parse fuel fs p None None) module_name
                  (parse_follows fs fuel _) path
                  (PState (thrift_stack st)
                     (default (include_dir_ st) include_dir) (the_heap st)
                     (classes st) (opened st)) eq_refl)
        as (tr & _ & Ho & Hres & Hsucc).
      exists tr. split; [exact Ho|]. split; [exact Hres|exact Hsucc]. }
  split; [|split; [|split; [|split]]].
  - intros. apply parse_include_dir.
  - intros fs fuel calls. apply (run_calls_include_dir fs fuel calls).
  - intros fs fuel path module_name p2 us defs child st
           Hend Hfs Hmn Hqend Hq.
    cbn [parse]. erewrite bind_step by reflexivity.
    apply (parse_body_first_include _ fs path module_name p2 us defs st
             [os_path_join (include_dir_ st) p2]);
      try assumption.
    + intros p. apply (steady_parse fs (S fuel)).
    + intros st' Hdir.
      erewrite bind_step by reflexivity.
      eapply parse_body_opens; try eassumption.
      intros p. apply (steady_parse fs fuel).
  - exact Hall.
  - intros fs fuel fuel' calls path module_name.
    pose proof (Hall fs fuel' path module_name None
                  (run_calls (S fuel) fs calls initial_state)) as H.
    cbn [default] in H.
    rewrite (run_calls_include_dir fs fuel calls initial_state) in H.
    exact H.
Qed.

(** ** Casting a key *)

Lemma hashable_not_container (h : heap) (v : value) :
  hashable h v = true ->
  isinstance_list h v = false /\ isinstance_set h v = false /\
  isinstance_dict h v = false.
Proof.
  unfold hashable, isinstance_list, isinstance_set, isinstance_dict, obj_of.
  destruct v as [| | | | |l|]; auto.
  destruct (h !! l) as [[]|]; auto; discriminate.
Qed.

Lemma returns_cast_map (ck cv : res caster) (v : value) :
  returns v (__cast_map ck cv v).
Proof.
  apply returns_bind. intros h. apply returns_bind. intros _.
  apply returns_bind. intros d. apply returns_bind. intros _.
  apply returns_ret.
Qed.

(** A caster that succeeds on a hashable value returns that value: the
    assignment [v[ck(key)] = ...] of [__cast_map] writes under [key]. *)
Lemma cast_hashable_id (t : ttype) (f : caster) (v v' : value)
    (h h' : heap) :
  _cast t = Ok f ->
  hashable h v = true ->
  f v h = (Ok v', h') ->
  v' = v.
Proof.
  intros Hf Hh Hrun.
  destruct (hashable_not_container h v Hh) as (Hl & Hs & Hd).
  assert (Hres : (f v h).1 = Ok v') by (rewrite Hrun; reflexivity).
  destruct t as [b| |e|e|k x|c|c|q]; try discriminate.
  - destruct (returns_argument_pure (TBase b) eq_refl) as (g & Hg & Hp).
    rewrite Hg in Hf. inversion Hf; subst g. apply (Hp v h), Hres.
  - inversion Hf; subst f. apply (pure_cast_list (_cast e) v h), Hres.
  - inversion Hf; subst f. clear Hrun. revert Hres.
    unfold __cast_set, bind, get. rewrite Hl, Hs. discriminate.
  - inversion Hf; subst f.
    apply (returns_cast_map (_cast k) (_cast x) v h), Hres.
  - inversion Hf; subst f. apply (pure_cast_enum c v h), Hres.
  - inversion Hf; subst f. clear Hrun. revert Hres.
    unfold __cast_struct, bind, get.
    destruct (isinstance_cls h v (st_cid c)).
    + intros H. inversion H. reflexivity.
    + rewrite Hd. discriminate.
Qed.

(** * Further properties *)

(** ** The module stack *)

Lemma tracks_ext {A} (m m' : P A) :
  (forall st, m st = m' st) -> tracks_stack m -> tracks_stack m'.
Proof. intros He Hm st mn attrs rest Hst. rewrite <- He. eapply Hm, Hst. Qed.

Lemma tracks_reader {A} (g : pstate -> res A) :
  tracks_stack (fun st => (g st, st)).
Proof.
  intros st mn attrs rest Hst. destruct (g st).
  - exists attrs. exact Hst.
  - exists [], attrs. exact Hst.
Qed.

Lemma tracks_bind {A B} (m : P A) (k : A -> P B) :
  tracks_stack m -> (forall a, tracks_stack (k a)) -> tracks_stack (bind m k).
Proof.
  intros Hm Hk st mn attrs rest Hst. unfold bind.
  specialize (Hm st mn attrs rest Hst).
  destruct (m st) as [[a|e] st1].
  - destruct Hm as [attrs1 Hst1]. apply (Hk a st1 mn attrs1 rest Hst1).
  - exact Hm.
Qed.

Lemma tracks_lift_heap {A} (m : M A) : tracks_stack (lift_heap m).
Proof.
  intros st mn attrs rest Hst. unfold lift_heap.
  destruct (m (the_heap st)) as [[a|e] h]; simpl.
  - exists attrs. exact Hst.
  - exists [], attrs. exact Hst.
Qed.

Lemma tracks_setattr_top (name : string) (e : entity) :
  tracks_stack (setattr_top name e).
Proof.
  intros st mn attrs rest Hst. unfold setattr_top. rewrite Hst. simpl.
  eexists. reflexivity.
Qed.

Lemma tracks_new_classes (n : nat) : tracks_stack (new_classes n).
Proof. intros st mn attrs rest Hst. simpl. exists attrs. exact Hst. Qed.

Lemma tracks_except_assertion {A} (m : P A) (e : parser_error) :
  tracks_stack m -> tracks_stack (except_assertion m e).
Proof.
  intros Hm st mn attrs rest Hst. unfold except_assertion.
  specialize (Hm st mn attrs rest Hst).
  destruct (m st) as [[a|[]] st1]; exact Hm.
Qed.

Lemma balanced_tracks (m : P pymodule) : balanced m -> tracks_stack m.
Proof.
  intros Hm st mn attrs rest Hst. specialize (Hm st).
  destruct (m st) as [[a|e] st1].
  - exists attrs. rewrite Hm. exact Hst.
  - destruct Hm as [extra Hx]. exists extra, attrs. rewrite Hx, Hst.
    reflexivity.
Qed.

Lemma tracks_parser_parse (parse_ : string -> P pymodule) (data : document) :
  (forall p, balanced (parse_ p)) -> tracks_stack (parser_parse parse_ data).
Proof.
  intros Hp.
  apply (Inv_parser_parse (@tracks_stack)).
  - intros A m m'. apply tracks_ext.
  - intros A g. apply tracks_reader.
  - intros A B m k. apply tracks_bind.
  - intros A m. apply tracks_lift_heap.
  - apply tracks_setattr_top.
  - apply tracks_new_classes.
  - intros A m e. apply tracks_except_assertion.
  - intros p. apply balanced_tracks, Hp.
Qed.

(** [parse_body] on any state: what it returns and what it leaves on the
    stack. *)
Lemma parse_body_stack (parse_ : string -> P pymodule)
    (fs : string -> option document) (path : string)
    (module_name : option string) (st : pstate) :
  (forall p, balanced (parse_ p)) ->
  match parse_body parse_ fs path module_name st with
  | (Ok m, st') =>
      thrift_stack st' = thrift_stack st /\
      m.1 = default (default_module_name path) module_name
  | (Raise _, st') =>
      exists extra,
        thrift_stack st' = extra ++ thrift_stack st /\
        (endswith path ".thrift" = true ->
         is_Some (fs path) ->
         match module_name with
         | Some mn => endswith mn "_thrift" = true
         | None => True
         end ->
         extra <> [])
  end.
Proof.
  intros Hp. unfold parse_body.
  destruct (endswith path ".thrift") eqn:Hend; cbn [negb].
  2:{ exists []. split; [reflexivity|]. discriminate. }
  unfold bind at 1. unfold open_file at 1.
  destruct (fs path) as [data|] eqn:Hfs.
  2:{ exists []. split; [reflexivity|]. intros _ [x Hx]. discriminate. }
  unfold bind at 1.
  assert (Hmn :
    (match module_name with
     | Some mn =>
         if negb (endswith mn "_thrift")
         then raise (ThriftParserError ModuleSuffix)
         else ret tt
     | None => ret tt
     end) (PState (thrift_stack st) (include_dir_ st) (the_heap st)
             (classes st) (opened st ++ [path]))
    = (match module_name with
       | Some mn =>
           if endswith mn "_thrift" then Ok tt
           else Raise (ThriftParserError ModuleSuffix)
       | None => Ok tt
       end,
       PState (thrift_stack st) (include_dir_ st) (the_heap st)
         (classes st) (opened st ++ [path]))).
  { destruct module_name as [mn|]; [|reflexivity].
    destruct (endswith mn "_thrift"); reflexivity. }
  rewrite Hmn. clear Hmn.
  destruct (match module_name with
            | Some mn =>
                if endswith mn "_thrift" then Ok tt
                else Raise (ThriftParserError ModuleSuffix)
            | None => Ok tt
            end) as [[]|e] eqn:Hcheck.
  2:{ exists []. split; [reflexivity|]. intros _ _ Hok.
      destruct module_name as [mn|]; [|discriminate].
      rewrite Hok in Hcheck. discriminate. }
  erewrite bind_step by reflexivity. unfold bind.
  pose proof (tracks_parser_parse parse_ data Hp
                (PState ((default (default_module_name path) module_name, [])
                         :: thrift_stack st)
                   (include_dir_ st) (the_heap st) (classes st)
                   (opened st ++ [path]))
                _ _ _ eq_refl) as Htr.
  assert (Hname :
    match module_name with
    | Some mn => mn
    | None => drop_last 7 (os_path_basename path)
    end = default (default_module_name path) module_name).
  { destruct module_name; reflexivity. }
  rewrite Hname.
  destruct (parser_parse parse_ data _) as [[[]|e] st1].
  - destruct Htr as [attrs' Hst1]. unfold pop. rewrite Hst1. simpl.
    split; reflexivity.
  - destruct Htr as (extra & attrs' & Hst1).
    exists (extra ++ [(default (default_module_name path) module_name,
                       attrs')]).
    split.
    + rewrite Hst1, <- app_assoc. reflexivity.
    + intros _ _ _ H. apply app_eq_nil in H as [_ H]. discriminate.
Qed.

Lemma parse_body_balanced (parse_ : string -> P pymodule)
    (fs : string -> option document) (path : string)
    (module_name : option string) :
  (forall p, balanced (parse_ p)) ->
  balanced (parse_body parse_ fs path module_name).
Proof.
  intros Hp st.
  pose proof (parse_body_stack parse_ fs path module_name st Hp) as H.
  destruct (parse_body parse_ fs path module_name st) as [[m|e] st1].
  - apply H.
  - destruct H as (extra & H & _). exists extra. exact H.
Qed.

Lemma parse_balanced (fs : string -> option document) (fuel : nat) :
  forall path module_name, balanced (parse fuel fs path module_name None).
Proof.
  induction fuel as [|fuel IH]; intros path module_name st.
  - exists []. reflexivity.
  - cbn [parse]. erewrite bind_step by reflexivity.
    apply parse_body_balanced. intros p. apply IH.
Qed.

(** X1.  A call of [parse] that returns leaves [thrift_stack] exactly as it
    found it, whatever includes it went through; the [__name__] of the
    module it returns is [module_name], or the base name of [path] without
    [.thrift] when [module_name] is omitted, unless the file has bound
    [__name__] itself; a call that raises never removes a module that was
    on the stack. *)
Theorem parse_restores_stack (fs : string -> option document) (fuel : nat)
    (path : string) (module_name include_dir : option string)
    (st : pstate) :
  match parse fuel fs path module_name include_dir st with
  | (Ok m, st') =>
      thrift_stack st' = thrift_stack st /\
      (dict_get String.eqb m.2 "__name__" = None ->
       name_attr m
       = EConst (VStr (default (default_module_name path) module_name)))
  | (Raise _, st') => thrift_stack st `suffix_of` thrift_stack st'
  end.
Proof.
  destruct fuel as [|fuel].
  - exists []. reflexivity.
  - cbn [parse].
    assert (Hst :
      (match include_dir with
       | Some d => set_include_dir d
       | None => ret tt
       end) st
      = (Ok tt, PState (thrift_stack st)
                  (default (include_dir_ st) include_dir) (the_heap st)
                  (classes st) (opened st))).
    { destruct include_dir; destruct st; reflexivity. }
    rewrite (bind_step _ _ _ _ _ Hst).
    pose proof (parse_body_stack (fun p => parse fuel fs p None None) fs path
                  module_name
                  (PState (thrift_stack st)
                     (default (include_dir_ st) include_dir) (the_heap st)
                     (classes st) (opened st))
                  (fun p => parse_balanced fs fuel p None)) as H.
    destruct (parse_body _ fs path module_name _) as [[m|e] st1].
    + destruct H as [Hstack Hname]. split; [exact Hstack|].
      intros Hfree. unfold name_attr. rewrite Hfree, Hname. reflexivity.
    + destruct H as (extra & H & _). exists extra. exact H.
Qed.

(** X2.  When [parse] has opened its file and raises afterwards, it does
    not pop: the module it pushed, and those of the includes that were
    being parsed, stay on [thrift_stack]. *)
Theorem parse_failure_leaves_modules (fs : string -> option document)
    (fuel : nat) (path : string) (module_name include_dir : option string)
    (st st' : pstate) (e : exn) :
  endswith path ".thrift" = true ->
  is_Some (fs path) ->
  match module_name with
  | Some mn => endswith mn "_thrift" = true
  | None => True
  end ->
  parse (S fuel) fs path module_name include_dir st = (Raise e, st') ->
  (List.length (thrift_stack st) < List.length (thrift_stack st'))%nat /\
  thrift_stack st `suffix_of` thrift_stack st'.
Proof.
  intros Hend Hfs Hmn Hrun. cbn [parse] in Hrun.
  assert (Hst :
    (match include_dir with
     | Some d => set_include_dir d
     | None => ret tt
     end) st
    = (Ok tt, PState (thrift_stack st)
                (default (include_dir_ st) include_dir) (the_heap st)
                (classes st) (opened st))).
  { destruct include_dir; destruct st; reflexivity. }
  rewrite (bind_step _ _ _ _ _ Hst) in Hrun.
  pose proof (parse_body_stack (fun p => parse fuel fs p None None) fs path
                module_name
                (PState (thrift_stack st)
                   (default (include_dir_ st) include_dir) (the_heap st)
                   (classes st) (opened st))
                (fun p => parse_balanced fs fuel p None)) as H.
  rewrite Hrun in H. destruct H as (extra & Hx & Hne). simpl in Hx.
  specialize (Hne Hend Hfs Hmn). split.
  - rewrite Hx, length_app. destruct extra; [contradiction|simpl; lia].
  - exists extra. exact Hx.
Qed.

(** ** Includes *)

Lemma bind_raise {S A B} (m : SE S A) (k : A -> SE S B) (s s1 : S) e :
  m s = (Raise e, s1) -> bind m k s = (Raise e, s1).
Proof. intros H. unfold bind. rewrite H. reflexivity. Qed.

Lemma bind_raises {S A B} (m : SE S A) (k : A -> SE S B) (s : S) e :
  (m s).1 = Raise e -> (bind m k s).1 = Raise e.
Proof.
  unfold bind. destruct (m s) as [[a|e'] s1]; simpl; [discriminate|].
  intros H. inversion H. reflexivity.
Qed.

(** X3.  A file whose first header is an include that resolves to the file
    itself is never parsed: no cycle is detected, every nesting depth is
    used up and the call ends in the recursion error. *)
Theorem self_include_exhausts_recursion (fs : string -> option document)
    (path p2 : string) (us : list header_unit) (defs : list definition_unit)
    (fuel : nat) :
  forall (module_name : option string) (st : pstate),
    endswith path ".thrift" = true ->
    fs path = Some (Document (Include p2 :: us) defs) ->
    match module_name with
    | Some mn => endswith mn "_thrift" = true
    | None => True
    end ->
    os_path_join (include_dir_ st) p2 = path ->
    (parse fuel fs path module_name None st).1 = Raise RecursionError.
Proof.
  induction fuel as [|fuel IH]; intros module_name st Hend Hfs Hmn Hself.
  - reflexivity.
  - cbn [parse]. erewrite bind_step by reflexivity.
    unfold parse_body. rewrite Hend. cbn [negb].
    unfold bind at 1. unfold open_file at 1. rewrite Hfs.
    erewrite bind_step.
    2:{ destruct module_name as [mn|]; [rewrite Hmn|]; reflexivity. }
    erewrite bind_step by reflexivity.
    apply bind_raises. unfold parser_parse. cbn [header].
    apply bind_raises. cbn [for_each]. apply bind_raises.
    cbn [p_header_unit]. unfold p_include.
    erewrite bind_step by reflexivity.
    apply bind_raises. cbn [include_dir_]. rewrite Hself.
    apply IH; [exact Hend|exact Hfs|exact I|exact Hself].
Qed.

(** ** Definitions and the references to them *)

Lemma split_on_app_sep (sep : ascii) (a b : string) :
  split_on sep a = [a] ->
  split_on sep (a +:+ String sep b) = a :: split_on sep b.
Proof.
  induction a as [|c a IH]; simpl.
  - intros _. rewrite Ascii.eqb_refl. reflexivity.
  - destruct (Ascii.eqb c sep); [discriminate|].
    destruct (split_on sep a) as [|w ws] eqn:Hs.
    + destruct (split_on_nonempty sep a Hs).
    + intros H. inversion H; subst. rewrite IH; reflexivity.
Qed.

Lemma setattr_top_lookup (name : string) (e : entity) (st : pstate)
    (mn : string) (attrs : list (string * entity)) (rest : list pymodule) :
  thrift_stack st = (mn, attrs) :: rest ->
  exists st1,
    setattr_top name e st = (Ok tt, st1) /\
    thrift_stack st1 = (mn, dict_set String.eqb attrs name e) :: rest /\
    the_heap st1 = the_heap st /\
    getattr (EModule mn (dict_set String.eqb attrs name e)) name = Some e.
Proof.
  intros Hst. unfold setattr_top. rewrite Hst. eexists.
  split; [reflexivity|]. split; [reflexivity|]. split; [reflexivity|].
  cbn [getattr]. rewrite (dict_get_set_eq String.eqb String_eqb_iff).
  reflexivity.
Qed.


Lemma setattr_top_inv (name : string) (e : entity) (st st1 : pstate) :
  setattr_top name e st = (Ok tt, st1) ->
  exists mn attrs rest,
    thrift_stack st = (mn, attrs) :: rest /\
    thrift_stack st1 = (mn, dict_set String.eqb attrs name e) :: rest /\
    the_heap st1 = the_heap st.
Proof.
  unfold setattr_top. destruct (thrift_stack st) as [|[mn attrs] rest];
    [discriminate|].
  intros H. inversion H; subst. exists mn, attrs, rest.
  repeat split; reflexivity.
Qed.

Lemma const_ref_one_segment (st : pstate) (mn : string)
    (attrs : list (string * entity)) (rest : list pymodule) (name : string) :
  thrift_stack st = (mn, attrs) :: rest ->
  split_on "."%char name = [name] ->
  p_const_value (ConstRef name) st
  = match getattr (EModule mn attrs) name with
    | Some e => (Ok (value_of_entity name e), st)
    | None => (Raise (ThriftParserError (NoEnumValueOrConstant name)), st)
    end.
Proof.
  intros Hst Hname. cbn [p_const_value]. unfold p_const_ref, bind, top.
  rewrite Hst. unfold lift_res, const_ref_in. rewrite Hname.
  unfold module_entity. cbn [fst snd].
  destruct (getattr (EModule mn attrs) name); reflexivity.
Qed.

(** X4.  A constant that was declared is found again: after [const t name
    = c] has been accepted, a reference to [name] evaluates to the very
    value that the caster returned for [c], and leaves the state as it
    is. *)
Theorem const_then_reference (t : field_type) (name : string)
    (c : const_value) (st st1 : pstate) :
  p_const t name c st = (Ok tt, st1) ->
  split_on "."%char name = [name] ->
  exists (ty : ttype) (v val : value) (sa sb : pstate),
    p_field_type t st = (Ok ty, sa) /\
    p_const_value c sa = (Ok v, sb) /\
    cast ty v (the_heap sb) = (Ok val, the_heap st1) /\
    p_const_value (ConstRef name) st1 = (Ok val, st1).
Proof.
  intros Hrun Hname. unfold p_const in Hrun.
  apply bind_ok in Hrun as (ty & sa & Hty & Hrun).
  apply bind_ok in Hrun as (v & sb & Hv & Hrun).
  apply bind_ok in Hrun as (val & sc & Hcast & Hset).
  unfold except_assertion, lift_heap in Hcast.
  destruct (cast ty v (the_heap sb)) as [[val'|e] h'] eqn:Hc.
  2:{ destruct e; discriminate. }
  inversion Hcast; subst val' sc; clear Hcast.
  apply setattr_top_inv in Hset as (mn & attrs & rest & Hsc & Hst1 & Hheap).
  simpl in Hsc, Hheap.
  exists ty, v, val, sa, sb. split; [exact Hty|]. split; [exact Hv|]. split.
  - rewrite Hc, Hheap. reflexivity.
  - rewrite (const_ref_one_segment st1 mn _ rest name Hst1 Hname).
    cbn [getattr].
    rewrite (dict_get_set_eq String.eqb String_eqb_iff). reflexivity.
Qed.

Lemma p_ref_type_reads (id : string) (st : pstate) :
  (p_ref_type id st).2 = st.
Proof.
  unfold p_ref_type, bind, top.
  destruct (thrift_stack st) as [|m rest]; [reflexivity|].
  destruct (walk _ _); reflexivity.
Qed.

Lemma p_field_type_reads (t : field_type) :
  forall st, (p_field_type t st).2 = st
with p_definition_type_reads (d : definition_type) :
  forall st, (p_definition_type d st).2 = st.
Proof.
  - destruct t as [id|d]; intros st; simpl.
    + apply p_ref_type_reads.
    + apply p_definition_type_reads.
  - destruct d as [b|k v|e|e]; intros st; simpl.
    + reflexivity.
    + unfold bind.
      pose proof (p_field_type_reads k st) as Hk.
      destruct (p_field_type k st) as [[tk|ek] s1]; simpl in Hk; subst s1;
        [|reflexivity].
      pose proof (p_field_type_reads v st) as Hv.
      destruct (p_field_type v st) as [[tv|ev] s1]; simpl in Hv; subst s1;
        reflexivity.
    + unfold bind.
      pose proof (p_field_type_reads e st) as He.
      destruct (p_field_type e st) as [[te|ee] s1]; simpl in He; subst s1;
        reflexivity.
    + unfold bind.
      pose proof (p_field_type_reads e st) as He.
      destruct (p_field_type e st) as [[te|ee] s1]; simpl in He; subst s1;
        reflexivity.
Qed.

(** X5.  A typedef is an alias: after [typedef d name] has been accepted, a
    type reference to [name] yields exactly the type tag that [d]
    denotes. *)
Theorem typedef_then_reference (d : definition_type) (name : string)
    (st st1 : pstate) :
  p_typedef d name st = (Ok tt, st1) ->
  split_on "."%char name = [name] ->
  exists ty : ttype,
    p_definition_type d st = (Ok ty, st) /\
    p_ref_type name st1 = (Ok ty, st1).
Proof.
  intros Hrun Hname. unfold p_typedef in Hrun.
  apply bind_ok in Hrun as (ty & sa & Hty & Hset).
  pose proof (p_definition_type_reads d st) as Hsa.
  rewrite Hty in Hsa. simpl in Hsa. subst sa.
  apply setattr_top_inv in Hset as (mn & attrs & rest & Hst & Hst1 & _).
  exists ty. split; [exact Hty|].
  unfold p_ref_type, bind, top. rewrite Hst1, Hname. cbn [walk].
  unfold module_entity. cbn [fst snd getattr].
  rewrite (dict_get_set_eq String.eqb String_eqb_iff). reflexivity.
Qed.

Lemma make_enum_members (module module' name : string)
    (kvs : list (string * option Z)) :
  en_members (_make_enum module name kvs)
  = en_members (_make_enum module' name kvs).
Proof. reflexivity. Qed.

(** X6.  The members of an enum are reached by a two-segment constant
    reference: after [enum name { items }] has been accepted, the reference
    [name.key] to a member evaluates to the value that the numbering gave
    to the last member called [key], and leaves the state as it is. *)
Theorem enum_member_reference (module name : string)
    (items : list (string * option Z)) (st st1 : pstate) (key : string)
    (v : Z) :
  p_enum name items st = (Ok tt, st1) ->
  split_on "."%char name = [name] ->
  split_on "."%char key = [key] ->
  enum_getattr (_make_enum module name items) key = Some v ->
  p_const_value (ConstRef (name +:+ "." +:+ key)) st1 = (Ok (VInt v), st1).
Proof.
  intros Hrun Hname Hkey Hget. unfold p_enum in Hrun.
  apply bind_ok in Hrun as (thrift & s1 & Htop & Hset).
  apply setattr_top_inv in Hset as (mn & attrs & rest & _ & Hst1 & _).
  cbn [p_const_value]. unfold p_const_ref, bind, top.
  rewrite Hst1. unfold lift_res, const_ref_in, module_entity. cbn [fst snd].
  change (name +:+ "." +:+ key) with (name +:+ String "."%char key).
  rewrite (split_on_app_sep _ _ _ Hname), Hkey.
  cbn [getattr]. rewrite (dict_get_set_eq String.eqb String_eqb_iff).
  cbn [getattr]. unfold enum_attr, enum_getattr in *.
  rewrite (make_enum_members _ module), Hget. reflexivity.
Qed.



(** ** Struct literals *)

Lemma for_each_ok_all {S A} (l : list A) (body : A -> SE S unit)
    (Q : A -> Prop) :
  (forall x s s', body x s = (Ok tt, s') -> Q x) ->
  forall s s', for_each l body s = (Ok tt, s') -> Forall Q l.
Proof.
  intros HQ. induction l as [|x l IH]; intros s s' Hrun; [constructor|].
  cbn [for_each] in Hrun.
  apply bind_ok in Hrun as ([] & s1 & Hx & Hl). constructor.
  - eapply HQ, Hx.
  - eapply IH, Hl.
Qed.

Lemma find_map_fields (d : list (value * value))
    (tsp : list (string * (bool * ttype))) :
  List.find (fun kf : string * (bool * res caster) =>
               kf.2.1 && negb (dict_has py_eq d (VStr kf.1)))
    (map (fun kf : string * (bool * ttype) =>
            (kf.1, (kf.2.1, _cast kf.2.2))) tsp)
  = (fun kf : string * (bool * ttype) => (kf.1, (kf.2.1, _cast kf.2.2)))
      <$> List.find (fun kf : string * (bool * ttype) =>
                       kf.2.1 && negb (dict_has py_eq d (VStr kf.1))) tsp.
Proof.
  induction tsp as [|kf tsp IH]; [reflexivity|]. cbn [map List.find fst snd].
  destruct (kf.2.1 && negb (dict_has py_eq d (VStr kf.1))); [reflexivity|].
  exact IH.
Qed.

(** [__cast_struct] on a mapping, up to the loop that casts the values. *)
Lemma cast_struct_on_dict (c : struct_cls) (l : loc)
    (d : list (value * value)) (h : heap) :
  h !! l = Some (ODict d) ->
  cast (TStruct c) (VRef l) h
  = match
      List.find (fun kf : string * (bool * ttype) =>
                   kf.2.1 && negb (dict_has py_eq d (VStr kf.1))) (_tspec c)
    with
    | Some kf =>
        (Raise (ThriftParserError (FieldRequired kf.1 (st_name c))), h)
    | None =>
        (for_each (d.*1)
           (fun key =>
              match
                tspec_get
                  (map (fun kf : string * (bool * ttype) =>
                          (kf.1, (kf.2.1, _cast kf.2.2))) (_tspec c)) key
              with
              | None =>
                  raise (ThriftParserError (NoFieldNamed key (st_name c)))
              | Some rf =>
                  f <- lift_res rf.2 ;;
                  x <- dict_getitem (VRef l) key ;;
                  x' <- f x ;;
                  dict_setitem (VRef l) key x'
              end) ;;;
         construct c (VRef l)) h
    end.
Proof.
  intros Hl. rewrite (cast_ok (TStruct c) _ (VRef l) eq_refl).
  unfold __cast_struct. erewrite bind_step by reflexivity.
  unfold isinstance_cls, isinstance_dict. cbn [obj_of]. rewrite Hl.
  erewrite bind_step by reflexivity.
  unfold bind at 1.
  rewrite (requirement_check c l d h _ Hl), find_map_fields.
  destruct (List.find _ (_tspec c)) as [kf|]; cbn [fmap option_fmap option_map].
  - reflexivity.
  - unfold bind at 1. unfold dict_entries at 1. cbn [obj_of]. rewrite Hl.
    reflexivity.
Qed.

(** X9.  A struct literal that omits a required field is refused before
    any of its values is cast: the error names a required field that the
    mapping lacks, and the heap is left as it is. *)
Theorem struct_literal_missing_required (c : struct_cls) (l : loc)
    (d : list (value * value)) (h : heap) :
  h !! l = Some (ODict d) ->
  (exists kf, kf ∈ _tspec c /\ kf.2.1 = true /\
              dict_has py_eq d (VStr kf.1) = false) ->
  exists kf,
    kf ∈ _tspec c /\ kf.2.1 = true /\
    dict_has py_eq d (VStr kf.1) = false /\
    cast (TStruct c) (VRef l) h
    = (Raise (ThriftParserError (FieldRequired kf.1 (st_name c))), h).
Proof.
  intros Hl (kf & Hin & Hreq & Hmiss).
  rewrite (cast_struct_on_dict c l d h Hl).
  destruct (List.find _ (_tspec c)) as [kf'|] eqn:Hfind.
  - apply find_some in Hfind as [Hin' Hp].
    apply andb_prop in Hp as [Hr Hm]. apply negb_true_iff in Hm.
    exists kf'. split; [apply list_elem_of_In, Hin'|]. auto.
  - exfalso. apply list_elem_of_In in Hin.
    pose proof (find_none _ _ Hfind kf Hin) as Hp. cbv beta in Hp.
    rewrite Hreq, Hmiss in Hp. discriminate.
Qed.

Lemma construct_result (c : struct_cls) (v v' : value) (h h' : heap) :
  construct c v h = (Ok v', h') ->
  exists attrs,
    v' = VRef (List.length h) /\
    h' = h ++ [OInst (st_cid c) attrs] /\
    attrs.*1 = (init_spec c).*1.
Proof.
  unfold construct. intros Hrun.
  apply bind_ok in Hrun as (d & h1 & Hd & Hrun).
  pose proof (keeps_heap_dict_entries v h) as Hh.
  rewrite Hd in Hh. simpl in Hh. subst h1.
  apply bind_ok in Hrun as (r & h2 & Ha & Hret).
  unfold alloc in Ha. inversion Ha; subst r h2.
  inversion Hret; subst v' h'.
  eexists. split; [reflexivity|]. split; [reflexivity|].
  rewrite <- list_fmap_compose. reflexivity.
Qed.

Lemma cast_struct_accepts (c : struct_cls) (l : loc)
    (d : list (value * value)) (h h' : heap) (v' : value) :
  h !! l = Some (ODict d) ->
  cast (TStruct c) (VRef l) h = (Ok v', h') ->
  (forall kf, kf ∈ _tspec c -> kf.2.1 = true ->
              dict_has py_eq d (VStr kf.1) = true) /\
  Forall (fun key => exists s, key = VStr s /\
                      is_Some (dict_get String.eqb (_tspec c) s)) (d.*1) /\
  exists (r : loc) (attrs : list (string * value)),
    v' = VRef r /\ r <> l /\
    h' !! r = Some (OInst (st_cid c) attrs).
Proof.
  intros Hl Hrun.
  pose proof (cast_frames (TStruct c) (VRef l) h l _ Hl) as Hframe.
  rewrite Hrun in Hframe. destruct Hframe as (o' & Hl' & [d' ->]).
  simpl in Hl'.
  rewrite (cast_struct_on_dict c l d h Hl) in Hrun.
  destruct (List.find _ (_tspec c)) as [kf|] eqn:Hfind; [discriminate|].
  apply bind_ok in Hrun as ([] & h2 & Hloop & Hcons).
  split; [|split].
  - intros kf Hin Hreq. apply list_elem_of_In in Hin.
    pose proof (find_none _ _ Hfind kf Hin) as Hp. cbv beta in Hp.
    rewrite Hreq in Hp. simpl in Hp. apply negb_false_iff in Hp. exact Hp.
  - eapply for_each_ok_all; [|exact Hloop].
    intros key s s' Hbody. cbv beta in Hbody.
    destruct (tspec_get _ key) as [rf|] eqn:Hget; [|discriminate].
    destruct key; simpl in Hget; try discriminate.
    eexists. split; [reflexivity|].
    rewrite (dict_get_map_values String.eqb
               (fun rt : bool * ttype => (rt.1, _cast rt.2))) in Hget.
    destruct (dict_get String.eqb (_tspec c) s0); [eauto|discriminate].
  - apply construct_result in Hcons as (attrs & -> & -> & Hattrs).
    exists (List.length h2), attrs. split; [reflexivity|].
    assert (Hr : (h2 ++ [OInst (st_cid c) attrs]) !! List.length h2
                 = Some (OInst (st_cid c) attrs)).
    { apply list_lookup_middle. reflexivity. }
    split; [|exact Hr].
    intros Heq. rewrite <- Heq, Hr in Hl'. discriminate.
Qed.

(** X10.  When the caster accepts a mapping for a struct-like type, the
    mapping holds every required field and every one of its keys is the
    name of a declared field; the result is an instance of the class, and
    not the mapping itself. *)
Theorem struct_literal_accepted (c : struct_cls) (l : loc)
    (d : list (value * value)) (h h' : heap) (v' : value) :
  h !! l = Some (ODict d) ->
  cast (TStruct c) (VRef l) h = (Ok v', h') ->
  (forall kf, kf ∈ _tspec c -> kf.2.1 = true ->
              dict_has py_eq d (VStr kf.1) = true) /\
  Forall (fun key => exists s, key = VStr s /\
                      is_Some (dict_get String.eqb (_tspec c) s)) (d.*1) /\
  exists (r : loc) (attrs : list (string * value)),
    v' = VRef r /\ r <> l /\
    h' !! r = Some (OInst (st_cid c) attrs).
Proof. apply cast_struct_accepts. Qed.

(** X11.  Casting to a struct-like type is idempotent: the value that the
    caster returns is accepted again, unchanged, and the second cast
    leaves the heap as it is. *)
Theorem struct_cast_idempotent (c : struct_cls) (v v' : value)
    (h h' : heap) :
  cast (TStruct c) v h = (Ok v', h') ->
  cast (TStruct c) v' h' = (Ok v', h').
Proof.
  intros Hrun.
  assert (Hinst : forall x g, isinstance_cls g x (st_cid c) = true ->
                              cast (TStruct c) x g = (Ok x, g)).
  { intros x g Hx. rewrite (cast_ok (TStruct c) _ x eq_refl).
    unfold __cast_struct. erewrite bind_step by reflexivity.
    rewrite Hx. reflexivity. }
  destruct (isinstance_cls h v (st_cid c)) eqn:Hcls.
  - rewrite (Hinst v h Hcls) in Hrun. inversion Hrun; subst.
    apply Hinst, Hcls.
  - destruct (isinstance_dict h v) eqn:Hdict.
    + unfold isinstance_dict in Hdict.
      destruct v as [| | | | |l|]; simpl in Hdict; try discriminate.
      destruct (h !! l) as [[items|items|d|cid attrs]|] eqn:Hl;
        try discriminate.
      destruct (cast_struct_accepts c l d h h' v' Hl Hrun)
        as (_ & _ & r & attrs & -> & _ & Hr).
      apply Hinst. unfold isinstance_cls. cbn [obj_of]. rewrite Hr.
      apply Nat.eqb_refl.
    + rewrite (cast_ok (TStruct c) _ v eq_refl) in Hrun.
      unfold __cast_struct in Hrun.
      erewrite bind_step in Hrun by reflexivity.
      rewrite Hcls, Hdict in Hrun. discriminate.
Qed.

(** ** Map literals *)

Lemma for_each_keeps_heap_result {A} (l : list A) (body : A -> M unit)
    (h : heap) :
  (forall x, keeps_heap (body x)) ->
  (for_each l body h).1 = Ok tt <->
  Forall (fun x => (body x h).1 = Ok tt) l.
Proof.
  intros Hk. induction l as [|x l IH]; cbn [for_each].
  - split; [constructor|reflexivity].
  - unfold bind. pose proof (Hk x h) as Hx.
    destruct (body x h) as [[[]|e] h1] eqn:Hb; simpl in Hx; subst h1.
    + rewrite IH. split.
      * intros H. constructor; [rewrite Hb; reflexivity|exact H].
      * intros H. inversion H; assumption.
    + simpl. split; [discriminate|].
      intros H. inversion H as [|? ? Hhd Htl]; subst.
      rewrite Hb in Hhd. discriminate.
Qed.

Lemma map_body_result (fk fv : caster) (l : loc) (d : list (value * value))
    (h : heap) (key : value) :
  pure_caster fk -> pure_caster fv ->
  h !! l = Some (ODict d) ->
  hashable h key = true ->
  ((f <- lift_res (Ok fv) ;; x <- dict_getitem (VRef l) key ;;
    x' <- f x ;; g <- lift_res (Ok fk) ;; key' <- g key ;;
    dict_setitem (VRef l) key' x') h).1 = Ok tt <->
  (fk key h).1 = Ok key /\
  exists xv, dict_get py_eq d key = Some xv /\ (fv xv h).1 = Ok xv.
Proof.
  intros Hk Hv Hl Hhash.
  unfold dict_getitem, dict_entries, lift_res, bind. cbn [obj_of].
  rewrite Hl.
  destruct (dict_get py_eq d key) as [xv|] eqn:Hg; simpl.
  2:{ split; [discriminate|]. intros [_ (xv & H & _)]. discriminate. }
  destruct (Hv xv h) as [Hh Hx].
  destruct (fv xv h) as [[x'|e] h1] eqn:Hfv; simpl in Hh, Hx; subst h1.
  2:{ simpl. split; [discriminate|].
      intros [_ (xv' & H & Hf)]. inversion H; subst xv'.
      rewrite Hfv in Hf. discriminate. }
  rewrite (Hx x' eq_refl).
  destruct (Hk key h) as [Hh' Hkey].
  destruct (fk key h) as [[key'|e] h1] eqn:Hfk; simpl in Hh', Hkey; subst h1.
  2:{ simpl. split; [discriminate|]. intros [H _]. discriminate. }
  rewrite (Hkey key' eq_refl). unfold dict_setitem. rewrite Hl, Hhash.
  simpl. split; [|reflexivity].
  intros _. split; [reflexivity|].
  exists xv. split; [reflexivity|]. rewrite Hfv, (Hx x' eq_refl).
  reflexivity.
Qed.

(** X12.  Unlike a list, a map literal is checked entry by entry: for key
    and value types whose caster returns its argument, the cast of a
    mapping succeeds exactly when the key caster accepts every key and the
    value caster accepts the value stored under it; it then returns the
    mapping itself, and in every case the heap is left as it is. *)
Theorem map_literal_checked (k x : ttype) (l : loc)
    (d : list (value * value)) (h : heap) :
  returns_argument k = true ->
  returns_argument x = true ->
  h !! l = Some (ODict d) ->
  Forall (fun key => hashable h key = true) (d.*1) ->
  (cast (TMap k x) (VRef l) h).2 = h /\
  ((cast (TMap k x) (VRef l) h).1 = Ok (VRef l) <->
   Forall (fun key =>
             (cast k key h).1 = Ok key /\
             exists xv, dict_get py_eq d key = Some xv /\
                        (cast x xv h).1 = Ok xv) (d.*1)) /\
  (forall v', (cast (TMap k x) (VRef l) h).1 = Ok v' -> v' = VRef l).
Proof.
  intros Hrk Hrx Hl Hhash.
  destruct (returns_argument_pure k Hrk) as (fk & Hfk & Hpk).
  destruct (returns_argument_pure x Hrx) as (fv & Hfv & Hpv).
  assert (Hcast : cast (TMap k x) (VRef l) = __cast_map (Ok fk) (Ok fv) (VRef l)).
  { apply cast_ok. cbn [_cast]. rewrite Hfk, Hfv. reflexivity. }
  rewrite Hcast.
  destruct (pure_cast_map fk fv Hpk Hpv (VRef l) h) as [Hheap Hret].
  split; [exact Hheap|]. split; [|exact Hret].
  assert (Hbody : forall key, keeps_heap
            (f <- lift_res (Ok fv) ;; x0 <- dict_getitem (VRef l) key ;;
             x' <- f x0 ;; g <- lift_res (Ok fk) ;; key' <- g key ;;
             dict_setitem (VRef l) key' x')).
  { intros key. apply map_body_pure; assumption. }
  unfold __cast_map. erewrite bind_step by reflexivity.
  unfold isinstance_dict. cbn [obj_of]. rewrite Hl.
  erewrite bind_step by reflexivity.
  unfold bind at 1. unfold dict_entries at 1. cbn [obj_of]. rewrite Hl.
  pose proof (for_each_keeps_heap_result (d.*1) _ h Hbody) as Hiff.
  pose proof (keeps_heap_for_each (d.*1) _ Hbody h) as Hh.
  unfold bind.
  destruct (for_each (d.*1) _ h) as [[[]|e] h1] eqn:Hloop;
    simpl in Hh; subst h1; simpl in Hiff |- *.
  - split; [|reflexivity]. intros _.
    destruct Hiff as [Hiff _]. specialize (Hiff eq_refl).
    rewrite Forall_forall in Hiff, Hhash |- *.
    intros key Hin.
    pose proof (proj1 (map_body_result fk fv l d h key Hpk Hpv Hl
                         (Hhash key Hin)) (Hiff key Hin)) as [H1 H2].
    rewrite (cast_ok k fk key Hfk). split; [exact H1|].
    destruct H2 as (xv & Hg & Hx). exists xv. split; [exact Hg|].
    rewrite (cast_ok x fv xv Hfv). exact Hx.
  - split; [discriminate|]. intros Hall. exfalso.
    destruct Hiff as [_ Hiff].
    assert (H : Raise (A := unit) e = Ok tt); [|discriminate].
    apply Hiff. rewrite Forall_forall in Hall, Hhash |- *.
    intros key Hin.
    apply (map_body_result fk fv l d h key Hpk Hpv Hl (Hhash key Hin)).
    destruct (Hall key Hin) as [H1 (xv & Hg & Hx)].
    rewrite (cast_ok k fk key Hfk) in H1. split; [exact H1|].
    exists xv. split; [exact Hg|].
    rewrite (cast_ok x fv xv Hfv) in Hx. exact Hx.
Qed.

(** ** The tables of a struct-like class *)

Lemma find_app_first {A} (p : A -> bool) (l1 l2 : list A) :
  List.find p (l1 ++ l2)
  = match List.find p l1 with
    | Some y => Some y
    | None => List.find p l2
    end.
Proof.
  induction l1 as [|x l1 IH]; simpl; [reflexivity|].
  destruct (p x); [reflexivity|exact IH].
Qed.

Lemma last_with_cons {A} (p : A -> bool) (x : A) (l : list A) :
  last_with p (x :: l)
  = match last_with p l with
    | Some y => Some y
    | None => if p x then Some x else None
    end.
Proof. unfold last_with. simpl. rewrite find_app_first. reflexivity. Qed.

Lemma dict_get_set (d : list (string * (bool * ttype))) (k k2 : string) v :
  dict_get String.eqb (dict_set String.eqb d k v) k2
  = if String.eqb k k2 then Some v else dict_get String.eqb d k2.
Proof.
  destruct (String.eqb k k2) eqn:E.
  - apply String.eqb_eq in E. subst k2.
    apply (dict_get_set_eq String.eqb String_eqb_iff).
  - apply (dict_get_set_ne String.eqb String_eqb_iff).
    intros ->. rewrite String.eqb_refl in E. discriminate.
Qed.

Lemma dict_get_set_Z (d : list (Z * (ttype * string * bool))) (k k2 : Z) v :
  dict_get Z.eqb (dict_set Z.eqb d k v) k2
  = if (k =? k2) then Some v else dict_get Z.eqb d k2.
Proof.
  destruct (k =? k2) eqn:E.
  - apply Z.eqb_eq in E. subst k2. apply (dict_get_set_eq Z.eqb Z_eqb_iff).
  - apply (dict_get_set_ne Z.eqb Z_eqb_iff).
    intros ->. rewrite Z.eqb_refl in E. discriminate.
Qed.

Lemma struct_tables_spec (fields : list field) :
  forall ts ds tsp ts' ds' tsp',
    struct_tables fields ts ds tsp = Ok (ts', ds', tsp') ->
    ds' = ds ++ map (fun f => (f_name f, f_val f)) fields /\
    (forall n,
       dict_get String.eqb tsp' n
       = match last_with (fun f => String.eqb (f_name f) n) fields with
         | Some f => Some (f_req f, f_type f)
         | None => dict_get String.eqb tsp n
         end) /\
    (forall i,
       dict_get Z.eqb ts' i
       = match last_with (fun f => f_id f =? i) fields with
         | Some f => Some (f_type f, f_name f, f_req f)
         | None => dict_get Z.eqb ts i
         end).
Proof.
  induction fields as [|f fields IH]; intros ts ds tsp ts' ds' tsp' Hrun.
  - inversion Hrun; subst. split; [rewrite app_nil_r; reflexivity|].
    split; reflexivity.
  - cbn [struct_tables] in Hrun.
    destruct (_ttype_spec (f_type f) (f_name f) (f_req f)) as [sp|e] eqn:Hsp;
      [|discriminate].
    apply ttype_spec_ok in Hsp. subst sp.
    destruct (IH _ _ _ _ _ _ Hrun) as (Hds & Htsp & Hts).
    split; [|split].
    + rewrite Hds, <- app_assoc. reflexivity.
    + intros n. rewrite Htsp, last_with_cons, dict_get_set.
      destruct (last_with _ fields); [reflexivity|].
      destruct (String.eqb (f_name f) n); reflexivity.
    + intros i. rewrite Hts, last_with_cons, dict_get_set_Z.
      destruct (last_with _ fields); [reflexivity|].
      destruct (f_id f =? i); reflexivity.
Qed.

Lemma struct_tables_total (fields : list field) :
  Forall (fun f => forall q, f_type f <> TOther q) fields ->
  forall ts ds tsp, exists r, struct_tables fields ts ds tsp = Ok r.
Proof.
  induction 1 as [|f fields Hf _ IH]; intros ts ds tsp.
  - eexists. reflexivity.
  - cbn [struct_tables].
    destruct (f_type f) eqn:Ht; simpl; try apply IH.
    destruct (Hf qualname). reflexivity.
Qed.

Lemma make_struct_spec (module : string) (cid : nat) (name : string)
    (fields : list field) (base : base_cls) :
  (forall c,
     _make_struct module cid name fields base = Ok c ->
     st_cid c = cid /\ st_name c = name /\ st_base c = base /\
     oneway c = None /\
     default_spec c = map (fun f => (f_name f, f_val f)) fields /\
     (forall n,
        dict_get String.eqb (_tspec c) n
        = (fun f => (f_req f, f_type f))
            <$> last_with (fun f => String.eqb (f_name f) n) fields) /\
     (forall i,
        dict_get Z.eqb (thrift_spec c) i
        = (fun f => (f_type f, f_name f, f_req f))
            <$> last_with (fun f => f_id f =? i) fields)) /\
  (Forall (fun f => forall q, f_type f <> TOther q) fields ->
   exists c, _make_struct module cid name fields base = Ok c).
Proof.
  split.
  - intros c Hmk. unfold _make_struct in Hmk.
    destruct (struct_tables fields [] [] []) as [[[ts ds] tsp]|e] eqn:Htab;
      [|discriminate].
    inversion Hmk; subst c; clear Hmk. cbn.
    destruct (struct_tables_spec fields _ _ _ _ _ _ Htab)
      as (Hds & Htsp & Hts).
    repeat split; try reflexivity.
    + exact Hds.
    + intros n. rewrite Htsp. destruct (last_with _ fields); reflexivity.
    + intros i. rewrite Hts. destruct (last_with _ fields); reflexivity.
  - intros Hall. unfold _make_struct.
    destruct (struct_tables_total fields Hall [] [] []) as [[[ts ds] tsp] ->].
    eexists. reflexivity.
Qed.

(** X13.  [_make_struct] builds its three tables so that the default list
    follows the declaration order, one entry per field, while the index by
    name and the index by id keep, for a name or an id that is declared
    more than once, the last declaration only; it fails only on a field
    whose type is no type tag. *)
Theorem make_struct_tables (module : string) (cid : nat) (name : string)
    (fields : list field) (base : base_cls) :
  (forall c,
     _make_struct module cid name fields base = Ok c ->
     st_cid c = cid /\ st_name c = name /\ st_base c = base /\
     oneway c = None /\
     default_spec c = map (fun f => (f_name f, f_val f)) fields /\
     (forall n,
        dict_get String.eqb (_tspec c) n
        = (fun f => (f_req f, f_type f))
            <$> last_with (fun f => String.eqb (f_name f) n) fields) /\
     (forall i,
        dict_get Z.eqb (thrift_spec c) i
        = (fun f => (f_type f, f_name f, f_req f))
            <$> last_with (fun f => f_id f =? i) fields)) /\
  (Forall (fun f => forall q, f_type f <> TOther q) fields ->
   exists c, _make_struct module cid name fields base = Ok c).
Proof. apply make_struct_spec. Qed.

Lemma last_with_is_Some {A} (p : A -> bool) (l : list A) :
  is_Some (last_with p l) <-> exists x, x ∈ l /\ p x = true.
Proof.
  unfold last_with. split.
  - intros [x Hx]. apply find_some in Hx as [Hin Hp].
    exists x. split; [|exact Hp].
    apply list_elem_of_In. apply in_rev. exact Hin.
  - intros (x & Hin & Hp).
    destruct (List.find p (rev l)) as [y|] eqn:Hf; [eauto|].
    apply list_elem_of_In, in_rev in Hin.
    pose proof (find_none _ _ Hf x Hin) as Hn. congruence.
Qed.

Lemma p_field_shape (d : field_decl) (st st' : pstate) (f : field) :
  p_field d st = (Ok f, st') ->
  f_id f = fd_id d /\ f_name f = fd_name d /\
  f_req f = p_field_req (fd_req d).
Proof.
  unfold p_field. intros H.
  apply bind_ok in H as (t & s1 & _ & H).
  destruct (fd_default d).
  - apply bind_ok in H as (v & s2 & _ & H).
    apply bind_ok in H as (val & s3 & _ & H).
    inversion H; repeat split.
  - inversion H; repeat split.
Qed.

Lemma p_field_seq_shape (ds : list field_decl) :
  forall (st st' : pstate) (fs : list field),
    p_field_seq ds st = (Ok fs, st') ->
    map f_id fs = map fd_id ds /\
    map f_name fs = map fd_name ds /\
    map f_req fs = map (fun d => p_field_req (fd_req d)) ds.
Proof.
  induction ds as [|d ds IH]; intros st st' fs Hrun; cbn [p_field_seq] in Hrun.
  - inversion Hrun. repeat split.
  - apply bind_ok in Hrun as (f & s1 & Hf & Hrun).
    apply bind_ok in Hrun as (fs' & s2 & Hfs & Hret).
    inversion Hret; subst fs st'.
    destruct (p_field_shape d st s1 f Hf) as (Hid & Hn & Hr).
    destruct (IH s1 s2 fs' Hfs) as (Hids & Hns & Hrs).
    cbn [map]. rewrite Hid, Hn, Hr, Hids, Hns, Hrs. repeat split.
Qed.

(** X14.  A struct, union or exception declaration that is accepted binds
    its name to a class that a later type reference finds; the class has
    the declared name and base, its default list names the fields in
    declaration order, and its index by name has exactly the declared field
    names as keys. *)
Theorem struct_declaration_bound (name : string) (ds : list field_decl)
    (base : base_cls) (st st1 : pstate) :
  p_struct_like name ds base st = (Ok tt, st1) ->
  split_on "."%char name = [name] ->
  exists c : struct_cls,
    p_ref_type name st1 = (Ok (TStruct c), st1) /\
    st_name c = name /\ st_base c = base /\
    (default_spec c).*1 = map fd_name ds /\
    (forall n, is_Some (dict_get String.eqb (_tspec c) n) <->
               n ∈ map fd_name ds).
Proof.
  intros Hrun Hname. unfold p_struct_like in Hrun.
  apply bind_ok in Hrun as (fields & s1 & Hfs & Hrun).
  apply bind_ok in Hrun as (thrift & s2 & Htop & Hrun).
  apply bind_ok in Hrun as (cid & s3 & Hcid & Hrun).
  apply bind_ok in Hrun as (c & s4 & Hmk & Hset).
  unfold lift_res in Hmk. inversion Hmk as [[Hc Hs4]]. subst s4.
  apply setattr_top_inv in Hset as (mn & attrs & rest & _ & Hst1 & _).
  destruct (p_field_seq_shape ds st s1 fields Hfs) as (_ & Hnames & _).
  destruct (proj1 (make_struct_spec (module_label thrift) cid name fields
                     base) c Hc)
    as (_ & Hn & Hb & _ & Hds & Htsp & _).
  exists c. split; [|split; [exact Hn|split; [exact Hb|split]]].
  - unfold p_ref_type, bind, top. rewrite Hst1, Hname. cbn [walk].
    unfold module_entity. cbn [fst snd getattr].
    rewrite (dict_get_set_eq String.eqb String_eqb_iff). reflexivity.
  - rewrite Hds, <- list_fmap_compose. exact Hnames.
  - intros n. rewrite Htsp, <- Hnames. rewrite fmap_is_Some.
    rewrite last_with_is_Some. split.
    + intros (f & Hin & Hp). apply String.eqb_eq in Hp. subst n.
      apply list_elem_of_fmap. exists f. split; [reflexivity|exact Hin].
    + intros Hin. apply list_elem_of_fmap in Hin as (f & -> & Hin).
      exists f. split; [exact Hin|apply String.eqb_refl].
Qed.

(** ** Service classes *)







(** ** Enum values that the caster accepts *)

Lemma number_items_labelled (kvs : list (string * option Z)) :
  Forall (fun kv => is_Some kv.2) kvs ->
  forall val,
    Forall (fun kn : string * Z => exists key, (key, Some kn.2) ∈ kvs)
      (number_items val kvs).
Proof.
  induction 1 as [|[key o] kvs [x Hx] _ IH]; intros val; cbn [number_items].
  - constructor.
  - simpl in Hx. subst o. constructor.
    + exists key. left.
    + eapply Forall_impl; [apply IH|].
      intros kn [k Hk]. exists k. right. exact Hk.
Qed.

Lemma dict_get_None_iff {V} (d : list (string * V)) (k : string) :
  dict_get String.eqb d k = None <-> k ∉ d.*1.
Proof.
  induction d as [|[k0 v0] d IH]; simpl.
  - split; [intros _ H; inversion H|reflexivity].
  - destruct (String.eqb k0 k) eqn:E.
    + apply String.eqb_eq in E. subst k0. split; [discriminate|].
      intros H. destruct H. left.
    + rewrite IH. rewrite not_elem_of_cons. split; [|tauto].
      intros H. split; [|exact H]. intros ->.
      rewrite String.eqb_refl in E. discriminate.
Qed.

Lemma make_enum_keys (module name : string) (kvs : list (string * option Z)) :
  (en_members (_make_enum module name kvs)).*1 = kvs.*1.
Proof.
  unfold _make_enum, en_members. destruct kvs as [|[k0 first] kvs'].
  - reflexivity.
  - apply number_items_names.
Qed.

Lemma enum_getattr_None (module name : string)
    (kvs : list (string * option Z)) (key : string) :
  enum_getattr (_make_enum module name kvs) key = None <-> key ∉ kvs.*1.
Proof.
  unfold enum_getattr. rewrite dict_get_None_iff.
  rewrite <- (make_enum_keys module name kvs).
  apply not_iff_compat. rewrite !list_elem_of_fmap.
  split; intros (x & -> & Hx); exists x; (split; [reflexivity|]);
    apply list_elem_of_In; apply list_elem_of_In in Hx.
  - apply in_rev. exact Hx.
  - apply in_rev in Hx. exact Hx.
Qed.

(** X17.  Unless a member of the enum is itself called [_named_values],
    the caster accepts every value that is written as a label in the enum
    declaration; so, for an enum whose members are all labelled, the value
    of every member is accepted and returned as it is.  When a member is
    called [_named_values], it has replaced the set of the class, and the
    caster raises a type error for every integer. *)
Theorem labelled_values_accepted (module name : string)
    (kvs : list (string * option Z)) (h : heap) :
  ("_named_values" ∉ kvs.*1 ->
   (forall key n,
      (key, Some n) ∈ kvs ->
      cast (TEnum (_make_enum module name kvs)) (VInt n) h
      = (Ok (VInt n), h)) /\
   (Forall (fun kv => is_Some kv.2) kvs ->
    forall key v,
      enum_getattr (_make_enum module name kvs) key = Some v ->
      cast (TEnum (_make_enum module name kvs)) (VInt v) h
      = (Ok (VInt v), h))) /\
  ("_named_values" ∈ kvs.*1 ->
   forall n : Z,
     exists what : string,
       cast (TEnum (_make_enum module name kvs)) (VInt n) h
       = (Raise (TypeError what), h)).
Proof.
  split.
  - intros Hfree. apply enum_getattr_None with (module := module)
      (name := name) in Hfree.
    assert (Hacc : forall key n, (key, Some n) ∈ kvs ->
              cast (TEnum (_make_enum module name kvs)) (VInt n) h
              = (Ok (VInt n), h)).
    { intros key n Hin.
      rewrite (cast_ok (TEnum _) _ (VInt n) eq_refl).
      unfold __cast_enum. erewrite bind_step by reflexivity.
      rewrite Hfree.
      unfold in_enum. rewrite bool_decide_eq_true_2; [reflexivity|].
      unfold _make_enum, _named_values. apply named_values_of_spec.
      right. exists key. exact Hin. }
    split; [exact Hacc|].
    intros Hall key v Hget. unfold enum_getattr in Hget.
    apply dict_get_elem_of in Hget as [k' Hin].
    apply list_elem_of_In in Hin.
    apply (proj2 (in_rev _ _)) in Hin. apply list_elem_of_In in Hin.
    assert (Hmem : exists k, (k, Some v) ∈ kvs).
    { unfold _make_enum, en_members in Hin.
      destruct kvs as [|[k0 first] kvs']; [inversion Hin|].
      pose proof (number_items_labelled _ Hall
                    (match first with None => -1 | Some x => x end)) as HF.
      rewrite Forall_forall in HF. apply (HF (k', v) Hin). }
    destruct Hmem as [k Hk]. apply (Hacc k v Hk).
  - intros Hmem n.
    destruct (enum_getattr (_make_enum module name kvs) "_named_values")
      as [x|] eqn:Hget.
    + eexists. rewrite (cast_ok (TEnum _) _ (VInt n) eq_refl).
      unfold __cast_enum. erewrite bind_step by reflexivity.
      rewrite Hget. reflexivity.
    + apply enum_getattr_None in Hget. contradiction.
Qed.

(** ** Defaults of base type *)

(** X18.  A scalar literal given as the default of a field of base type is
    either kept as it is, when the caster of the type accepts it, or
    refused with the type error for the field; in both cases the state is
    left as it is. *)
Theorem scalar_default_checked (id : Z) (q : field_req) (b : base_type)
    (name : string) (c : const_value) (v : value) (st : pstate) :
  literal_of c = Some v ->
  p_field (FieldDecl id q (DefinitionType (BaseType b)) name (Some c)) st
  = match (cast (TBase b) v (the_heap st)).1 with
    | Ok _ => (Ok (Field id (p_field_req q) (TBase b) name v), st)
    | Raise _ => (Raise (ThriftParserError (TypeErrorForField name)), st)
    end.
Proof.
  intros Hlit. destruct st as [stack dir h n log].
  destruct c; inversion Hlit; subst v; destruct b; reflexivity.
Qed.

(** ** Set literals *)

Lemma set_has_app (s : list value) (x y : value) :
  set_has (s ++ [x]) y = set_has s y || py_eq y x.
Proof.
  unfold set_has. rewrite existsb_app. simpl. rewrite orb_false_r.
  reflexivity.
Qed.

Lemma set_add_spec (s : list value) (x : value) :
  pairwise_distinct s ->
  pairwise_distinct (set_add s x) /\
  set_has (set_add s x) x = true /\
  (forall y, set_has s y = true -> set_has (set_add s x) y = true) /\
  (forall y, y ∈ set_add s x -> y ∈ s \/ y = x).
Proof.
  intros Hd. unfold set_add. destruct (set_has s x) eqn:Hx.
  - repeat split; auto.
  - split; [|split; [|split]].
    + intros i j a b Hij Hi Hj.
      destruct (decide (j < List.length s)%nat) as [Hlt|Hge].
      * rewrite lookup_app_l in Hi by lia.
        rewrite lookup_app_l in Hj by lia. exact (Hd i j a b Hij Hi Hj).
      * assert (Hjl : j = List.length s).
        { apply lookup_lt_Some in Hj. rewrite length_app in Hj.
          simpl in Hj. lia. }
        subst j. rewrite list_lookup_middle in Hj by reflexivity.
        inversion Hj; subst b. rewrite lookup_app_l in Hi by lia.
        unfold set_has in Hx.
        destruct (py_eq x a) eqn:E; [|reflexivity].
        assert (Hex : existsb (py_eq x) s = true).
        { apply existsb_exists. exists a. split; [|exact E].
          apply list_elem_of_In. eapply list_elem_of_lookup_2, Hi. }
        congruence.
    + rewrite set_has_app, py_eq_refl. apply orb_true_r.
    + intros y Hy. rewrite set_has_app, Hy. reflexivity.
    + intros y Hy. apply elem_of_app in Hy as [Hy|Hy]; [left; exact Hy|].
      apply list_elem_of_singleton in Hy. right. exact Hy.
Qed.

Lemma set_of_list_spec (items : list value) :
  forall acc,
    pairwise_distinct acc ->
    pairwise_distinct (fold_left set_add items acc) /\
    (forall x, x ∈ items -> set_has (fold_left set_add items acc) x = true) /\
    (forall y, set_has acc y = true ->
               set_has (fold_left set_add items acc) y = true) /\
    (forall y, y ∈ fold_left set_add items acc -> y ∈ acc \/ y ∈ items).
Proof.
  induction items as [|x items IH]; intros acc Hd; cbn [fold_left].
  - repeat split; auto. intros x Hx. inversion Hx.
  - destruct (set_add_spec acc x Hd) as (Hd1 & Hx1 & Hmono1 & Hin1).
    destruct (IH (set_add acc x) Hd1) as (Hd2 & Hcov & Hmono2 & Hin2).
    split; [exact Hd2|]. split; [|split].
    + intros y Hy. apply elem_of_cons in Hy as [->|Hy]; auto.
    + intros y Hy. auto.
    + intros y Hy. destruct (Hin2 y Hy) as [H|H].
      * destruct (Hin1 y H) as [H'| ->]; [left; exact H'|right; left].
      * right. right. exact H.
Qed.

(** X19.  A value that is already a set is returned as it is and the heap
    is left alone; a list of hashable values is turned into a new set
    object that holds no two equal elements, holds only elements of the
    list and has an equal element for every element of the list. *)
Theorem set_literal_deduplicated (e : ttype) (f : caster) (l : loc)
    (items : list value) (h : heap) :
  _cast e = Ok f ->
  (h !! l = Some (OSet items) ->
   cast (TSet e) (VRef l) h = (Ok (VRef l), h)) /\
  (h !! l = Some (OList items) ->
   forallb (hashable h) items = true ->
   exists s,
     cast (TSet e) (VRef l) h = (Ok (VRef (List.length h)), h ++ [OSet s]) /\
     pairwise_distinct s /\
     (forall y, y ∈ s -> y ∈ items) /\
     (forall x, x ∈ items -> set_has s x = true)).
Proof.
  intros He.
  assert (Hc : cast (TSet e) (VRef l) = __cast_set (Ok f) (VRef l)).
  { apply cast_ok. cbn [_cast]. rewrite He. reflexivity. }
  rewrite Hc. split.
  - intros Hl.
    unfold __cast_set. erewrite bind_step by reflexivity.
    unfold isinstance_list, isinstance_set. cbn [obj_of]. rewrite Hl.
    reflexivity.
  - intros Hl Hh. exists (set_of_list items). split.
    + unfold __cast_set. erewrite bind_step by reflexivity.
      unfold isinstance_list, isinstance_set. cbn [obj_of]. rewrite Hl.
      erewrite bind_step by reflexivity.
      erewrite bind_step by reflexivity. cbn [negb].
      unfold py_set, bind, items_of, get. cbn [obj_of]. rewrite Hl, Hh.
      reflexivity.
    + assert (Hnil : pairwise_distinct []).
      { intros i j x y _ Hi. destruct i; discriminate. }
      destruct (set_of_list_spec items [] Hnil) as (Hd & Hcov & _ & Hin).
      split; [exact Hd|]. split; [|exact Hcov].
      intros y Hy. destruct (Hin y Hy) as [H|H]; [inversion H|exact H].
Qed.

(** ** The arguments of the entry point *)

(** X20.  [parse] checks its arguments in this order: a path that does not
    end in [.thrift] is refused before any file is opened; a file that
    cannot be opened raises the I/O error; a module name that does not end
    in [_thrift] is refused only after the file has been read.  In all
    three cases nothing is pushed on the stack, and [include_dir_] has
    already been assigned when [include_dir] was given. *)
Theorem parse_argument_checks (fs : string -> option document) (fuel : nat)
    (path : string) (module_name include_dir : option string)
    (st : pstate) :
  (endswith path ".thrift" = false ->
   parse (S fuel) fs path module_name include_dir st
   = (Raise (ThriftParserError PathSuffix),
      PState (thrift_stack st) (default (include_dir_ st) include_dir)
        (the_heap st) (classes st) (opened st))) /\
  (endswith path ".thrift" = true ->
   fs path = None ->
   parse (S fuel) fs path module_name include_dir st
   = (Raise (IOError path),
      PState (thrift_stack st) (default (include_dir_ st) include_dir)
        (the_heap st) (classes st) (opened st))) /\
  (forall data mn,
     endswith path ".thrift" = true ->
     fs path = Some data ->
     module_name = Some mn ->
     endswith mn "_thrift" = false ->
     parse (S fuel) fs path module_name include_dir st
     = (Raise (ThriftParserError ModuleSuffix),
        PState (thrift_stack st) (default (include_dir_ st) include_dir)
          (the_heap st) (classes st) (opened st ++ [path]))).
Proof.
  assert (Hst :
    (match include_dir with
     | Some d => set_include_dir d
     | None => ret tt
     end) st
    = (Ok tt, PState (thrift_stack st)
                (default (include_dir_ st) include_dir) (the_heap st)
                (classes st) (opened st))).
  { destruct include_dir; destruct st; reflexivity. }
  split; [|split].
  - intros Hend. cbn [parse]. rewrite (bind_step _ _ _ _ _ Hst).
    unfold parse_body. rewrite Hend. reflexivity.
  - intros Hend Hfs. cbn [parse]. rewrite (bind_step _ _ _ _ _ Hst).
    unfold parse_body. rewrite Hend. cbn [negb].
    unfold bind, open_file. rewrite Hfs. reflexivity.
  - intros data mn Hend Hfs -> Hmn. cbn [parse].
    rewrite (bind_step _ _ _ _ _ Hst).
    unfold parse_body. rewrite Hend. cbn [negb].
    unfold bind at 1. unfold open_file at 1. rewrite Hfs.
    unfold bind at 1. rewrite Hmn. reflexivity.
Qed.

(** ** Headers *)

Lemma for_each_headers_filter (parse_ : string -> P pymodule)
    (hs : list header_unit) (st : pstate) :
  for_each hs (p_header_unit parse_) st
  = for_each (filter is_include hs) (p_header_unit parse_) st.
Proof.
  revert st. induction hs as [|[p2|scope name] hs IH]; intros st.
  - reflexivity.
  - cbn [filter list_filter is_include for_each]. simpl.
    unfold bind. destruct (p_include parse_ p2 st) as [[[]|e] st1];
      [apply IH|reflexivity].
  - simpl. apply IH.
Qed.

(** X21.  A [namespace] statement has no effect: a file parses like the
    same file without its namespace statements, to the same result and the
    same state. *)
Theorem namespace_has_no_effect (parse_ : string -> P pymodule)
    (hs : list header_unit) (defs : list definition_unit) (st : pstate) :
  parser_parse parse_ (Document hs defs) st
  = parser_parse parse_ (Document (filter is_include hs) defs) st.
Proof.
  unfold parser_parse. cbn [header definition]. unfold bind.
  rewrite for_each_headers_filter. reflexivity.
Qed.

(** ** Literals *)

Lemma only_allocated_refl (st : pstate) : only_allocated st st.
Proof. exists []. rewrite app_nil_r. destruct st; reflexivity. Qed.

Lemma only_allocated_trans (s1 s2 s3 : pstate) :
  only_allocated s1 s2 -> only_allocated s2 s3 -> only_allocated s1 s3.
Proof.
  intros [n1 ->] [n2 ->]. exists (n1 ++ n2). simpl.
  rewrite app_assoc. reflexivity.
Qed.

Lemma allocates_bind {A B} (m : P A) (k : A -> P B) :
  (forall st, only_allocated st (m st).2) ->
  (forall a st, only_allocated st (k a st).2) ->
  forall st, only_allocated st (bind m k st).2.
Proof.
  intros Hm Hk st. unfold bind. specialize (Hm st).
  destruct (m st) as [[a|e] s1]; simpl in *; [|exact Hm].
  eapply only_allocated_trans; [exact Hm|apply Hk].
Qed.

Lemma allocates_lift_alloc (o : obj) (st : pstate) :
  only_allocated st (lift_heap (alloc o) st).2.
Proof. exists [o]. reflexivity. Qed.

Lemma allocates_lift_py_dict (kvs : list (value * value)) (st : pstate) :
  only_allocated st (lift_heap (py_dict kvs) st).2.
Proof.
  unfold lift_heap, py_dict, bind, get.
  destruct (forallb (hashable (the_heap st)) (kvs.*1)); simpl.
  - eexists [_]. reflexivity.
  - exists []. rewrite app_nil_r. reflexivity.
Qed.

Lemma allocates_p_const_ref (id : string) (st : pstate) :
  only_allocated st (p_const_ref id st).2.
Proof.
  unfold p_const_ref, bind, top.
  destruct (thrift_stack st); simpl; apply only_allocated_refl.
Qed.

Lemma p_const_value_allocates :
  forall (c : const_value) (st : pstate),
    only_allocated st (p_const_value c st).2.
Proof.
  fix IH 1. intros [n|m e|s|b|items|items|id]; cbn [p_const_value].
  - apply only_allocated_refl.
  - apply only_allocated_refl.
  - apply only_allocated_refl.
  - apply only_allocated_refl.
  - apply allocates_bind.
    + induction items as [|x items IHitems]; intros st;
        [apply only_allocated_refl|].
      revert st. apply allocates_bind; [apply IH|]. intros v.
      apply allocates_bind; [exact IHitems|]. intros vs st.
      apply only_allocated_refl.
    + intros vs. apply allocates_bind; [apply allocates_lift_alloc|].
      intros r st. apply only_allocated_refl.
  - apply allocates_bind.
    + induction items as [|[k x] items IHitems]; intros st;
        [apply only_allocated_refl|].
      revert st. apply allocates_bind; [apply IH|]. intros vk.
      apply allocates_bind; [apply IH|]. intros vx.
      apply allocates_bind; [exact IHitems|]. intros kvs st.
      apply only_allocated_refl.
    + intros kvs st. apply allocates_lift_py_dict.
  - apply allocates_bind; [apply allocates_p_const_ref|].
    intros e st. apply only_allocated_refl.
Qed.

(** X22.  Evaluating a constant value changes nothing but the end of the
    heap: the objects that exist are left as they are, whether the
    evaluation returns or raises, and a list literal that is accepted is a
    new list object with one element per item of the literal. *)
Theorem literal_only_allocates (c : const_value) (st : pstate) :
  only_allocated st (p_const_value c st).2 /\
  (forall items v st',
     c = ConstList items ->
     p_const_value c st = (Ok v, st') ->
     exists (r : loc) (vs : list value),
       v = VRef r /\ (List.length (the_heap st) <= r)%nat /\
       the_heap st' !! r = Some (OList vs) /\
       List.length vs = List.length items).
Proof.
  split; [apply p_const_value_allocates|].
  intros items v st' -> Hrun. cbn [p_const_value] in Hrun.
  apply bind_ok in Hrun as (vs & s1 & Hseq & Hrun).
  apply bind_ok in Hrun as (r & s2 & Halloc & Hret).
  inversion Hret; subst v st'; clear Hret.
  unfold lift_heap, alloc in Halloc. inversion Halloc; subst r s2.
  clear Halloc. exists (List.length (the_heap s1)), vs. cbn [the_heap].
  split; [reflexivity|].
  assert (Hgrow : only_allocated st s1 /\ List.length vs = List.length items).
  { clear -Hseq. revert st vs s1 Hseq.
    induction items as [|x items IHitems]; intros st vs s1 Hseq.
    - inversion Hseq; subst. split; [apply only_allocated_refl|reflexivity].
    - apply bind_ok in Hseq as (v & sa & Hv & Hseq).
      apply bind_ok in Hseq as (vs' & sb & Hvs & Hret).
      inversion Hret; subst vs s1.
      destruct (IHitems sa vs' sb Hvs) as [Hab Hlen].
      pose proof (p_const_value_allocates x st) as Hx.
      rewrite Hv in Hx. split.
      + eapply only_allocated_trans; [exact Hx|exact Hab].
      + simpl. rewrite Hlen. reflexivity. }
  destruct Hgrow as [[new ->] Hlen]. cbn [the_heap].
  split; [rewrite length_app; lia|]. split; [|exact Hlen].
  apply list_lookup_middle. reflexivity.
Qed.

(** ** The names of a module *)

Lemma dict_has_set (d : list (string * entity)) (k n : string) (e : entity) :
  dict_has String.eqb (dict_set String.eqb d k e) n
  = String.eqb k n || dict_has String.eqb d n.
Proof.
  unfold dict_has. destruct (String.eqb k n) eqn:E.
  - apply String.eqb_eq in E. subst n.
    rewrite (dict_get_set_eq String.eqb String_eqb_iff). reflexivity.
  - rewrite (dict_get_set_ne String.eqb String_eqb_iff); [reflexivity|].
    intros ->. rewrite String.eqb_refl in E. discriminate.
Qed.

Lemma names_ext {A} (m m' : P A) :
  (forall st, m st = m' st) -> keeps_names m -> keeps_names m'.
Proof. intros He Hm st mn attrs rest Hst. rewrite <- He. eapply Hm, Hst. Qed.

Lemma names_reader {A} (g : pstate -> res A) :
  keeps_names (fun st => (g st, st)).
Proof.
  intros st mn attrs rest Hst. destruct (g st); [|exact I].
  exists attrs. split; [exact Hst|]. intros n Hn. exact Hn.
Qed.

Lemma names_bind {A B} (m : P A) (k : A -> P B) :
  keeps_names m -> (forall a, keeps_names (k a)) -> keeps_names (bind m k).
Proof.
  intros Hm Hk st mn attrs rest Hst. unfold bind.
  specialize (Hm st mn attrs rest Hst).
  destruct (m st) as [[a|e] st1]; [|exact I].
  destruct Hm as (attrs1 & Hst1 & Hkeep).
  specialize (Hk a st1 mn attrs1 rest Hst1).
  destruct (k a st1) as [[b|e] st2]; [|exact I].
  destruct Hk as (attrs2 & Hst2 & Hkeep2).
  exists attrs2. split; [exact Hst2|]. intros n Hn. apply Hkeep2, Hkeep, Hn.
Qed.

Lemma names_lift_heap {A} (m : M A) : keeps_names (lift_heap m).
Proof.
  intros st mn attrs rest Hst. unfold lift_heap.
  destruct (m (the_heap st)) as [[a|e] h]; [|exact I].
  exists attrs. split; [exact Hst|]. intros n Hn. exact Hn.
Qed.

Lemma names_setattr_top (name : string) (e : entity) :
  keeps_names (setattr_top name e).
Proof.
  intros st mn attrs rest Hst. unfold setattr_top. rewrite Hst.
  eexists. split; [reflexivity|]. intros n Hn.
  rewrite dict_has_set, Hn. apply orb_true_r.
Qed.

Lemma names_new_classes (n : nat) : keeps_names (new_classes n).
Proof.
  intros st mn attrs rest Hst. exists attrs. split; [exact Hst|].
  intros k Hk. exact Hk.
Qed.

Lemma names_except_assertion {A} (m : P A) (e : parser_error) :
  keeps_names m -> keeps_names (except_assertion m e).
Proof.
  intros Hm st mn attrs rest Hst. unfold except_assertion.
  specialize (Hm st mn attrs rest Hst).
  destruct (m st) as [[a|[]] st1]; first [exact Hm|exact I].
Qed.

Lemma balanced_names (m : P pymodule) : balanced m -> keeps_names m.
Proof.
  intros Hm st mn attrs rest Hst. specialize (Hm st).
  destruct (m st) as [[a|e] st1]; [|exact I].
  exists attrs. split; [rewrite Hm; exact Hst|]. intros n Hn. exact Hn.
Qed.

Lemma names_parser_parse (parse_ : string -> P pymodule) (data : document) :
  (forall p, balanced (parse_ p)) -> keeps_names (parser_parse parse_ data).
Proof.
  intros Hp.
  apply (Inv_parser_parse (@keeps_names)).
  - intros A m m'. apply names_ext.
  - intros A g. apply names_reader.
  - intros A B m k. apply names_bind.
  - intros A m. apply names_lift_heap.
  - apply names_setattr_top.
  - apply names_new_classes.
  - intros A m e. apply names_except_assertion.
  - intros p. apply balanced_names, Hp.
Qed.

Lemma names_p_definition_unit (d : definition_unit) :
  keeps_names (p_definition_unit d).
Proof.
  apply (Inv_p_definition_unit (@keeps_names)).
  - intros A m m'. apply names_ext.
  - intros A g. apply names_reader.
  - intros A B m k. apply names_bind.
  - intros A m. apply names_lift_heap.
  - apply names_setattr_top.
  - apply names_new_classes.
  - intros A m e. apply names_except_assertion.
Qed.

(** A definition that is accepted ends with the assignment of its name. *)
Lemma p_definition_unit_binds (d : definition_unit) (st st' : pstate) :
  p_definition_unit d st = (Ok tt, st') ->
  exists mn attrs rest e,
    thrift_stack st'
    = (mn, dict_set String.eqb attrs (unit_name d) e) :: rest.
Proof.
  assert (Hset : forall name e s,
            setattr_top name e s = (Ok tt, st') ->
            exists mn attrs rest e,
              thrift_stack st' = (mn, dict_set String.eqb attrs name e) :: rest).
  { intros name e s H.
    apply setattr_top_inv in H as (mn & attrs & rest & _ & H & _).
    exists mn, attrs, rest, e. exact H. }
  destruct d as [t name v|t name|name items|name fs|name fs|name fs
                 |name ext fns]; cbn [p_definition_unit unit_name];
    unfold p_const, p_typedef, p_enum, p_struct, p_union, p_exception,
      p_struct_like, p_service; intros H;
    repeat (apply bind_ok in H as (? & ? & _ & H));
    eapply Hset, H.
Qed.

Lemma definitions_bound (ds : list definition_unit) :
  forall (st st' : pstate) mn attrs rest,
    thrift_stack st = (mn, attrs) :: rest ->
    for_each ds p_definition_unit st = (Ok tt, st') ->
    exists attrs',
      thrift_stack st' = (mn, attrs') :: rest /\
      (forall n, dict_has String.eqb attrs n = true ->
                 dict_has String.eqb attrs' n = true) /\
      (forall d, In d ds ->
                 dict_has String.eqb attrs' (unit_name d) = true).
Proof.
  induction ds as [|d ds IH]; intros st st' mn attrs rest Hst Hrun.
  - inversion Hrun; subst st'. exists attrs. split; [exact Hst|].
    split; [intros n Hn; exact Hn|]. intros d [].
  - cbn [for_each] in Hrun.
    apply bind_ok in Hrun as ([] & s1 & Hd & Hrun).
    pose proof (names_p_definition_unit d st mn attrs rest Hst) as Hk.
    rewrite Hd in Hk. destruct Hk as (attrs1 & Hs1 & Hkeep1).
    destruct (p_definition_unit_binds d st s1 Hd)
      as (mn0 & attrs0 & rest0 & e & Hbind).
    rewrite Hs1 in Hbind. inversion Hbind; subst mn0 attrs1 rest0.
    destruct (IH s1 st' mn _ rest Hs1 Hrun) as (attrs' & Hs' & Hkeep & Hall).
    exists attrs'. split; [exact Hs'|]. split.
    + intros n Hn. apply Hkeep, Hkeep1, Hn.
    + intros d' [<-|Hin]; [|apply Hall, Hin].
      apply Hkeep. rewrite dict_has_set, String.eqb_refl. reflexivity.
Qed.

(** X23.  Every definition of a file that [parse] accepts is bound in the
    module that it returns: the name of each constant, typedef, enum,
    struct, union, exception and service of the file is an attribute of the
    result, whatever the includes and the other definitions did. *)
Theorem declared_names_bound (fs : string -> option document) (fuel : nat)
    (path : string) (module_name include_dir : option string)
    (data : document) (st st' : pstate) (m : pymodule) :
  fs path = Some data ->
  parse (S fuel) fs path module_name include_dir st = (Ok m, st') ->
  forall d, In d (definition data) ->
            dict_has String.eqb m.2 (unit_name d) = true.
Proof.
  intros Hfs Hrun d Hin. cbn [parse] in Hrun.
  apply bind_ok in Hrun as ([] & s0 & _ & Hrun).
  clear st. rename s0 into st.
  unfold parse_body in Hrun.
  destruct (negb (endswith path ".thrift")); [discriminate|].
  apply bind_ok in Hrun as (data' & s1 & Hopen & Hrun).
  unfold open_file in Hopen. rewrite Hfs in Hopen.
  inversion Hopen; subst data' s1. clear Hopen.
  apply bind_ok in Hrun as ([] & s2 & Hcheck & Hrun).
  assert (Hs2 : thrift_stack s2 = thrift_stack st).
  { destruct module_name as [mn|].
    - destruct (negb (endswith mn "_thrift")); [discriminate|].
      inversion Hcheck; reflexivity.
    - inversion Hcheck; reflexivity. }
  apply bind_ok in Hrun as ([] & s3 & Hpush & Hrun).
  unfold push in Hpush. inversion Hpush; subst s3. clear Hpush.
  apply bind_ok in Hrun as ([] & s4 & Hparse & Hpop).
  unfold parser_parse in Hparse.
  apply bind_ok in Hparse as ([] & s5 & Hheaders & Hdefs).
  assert (Hkeep : keeps_names
            (for_each (header data)
               (p_header_unit (fun p => parse fuel fs p None None)))).
  { apply (names_ext (parser_parse (fun p => parse fuel fs p None None)
                        (Document (header data) []))).
    - intros s. unfold parser_parse, bind. cbn [header definition for_each].
      destruct (for_each _ _ s) as [[[]|e] sx]; reflexivity.
    - apply names_parser_parse. intros p. apply parse_balanced. }
  match type of Hheaders with
  | for_each _ _ ?s = _ => pose proof (Hkeep s _ _ _ eq_refl) as Hk
  end.
  rewrite Hheaders in Hk.
  destruct Hk as (attrs5 & Hs5 & _).
  destruct (definitions_bound _ _ _ _ _ _ Hs5 Hdefs)
    as (attrs' & Hs4 & _ & Hall).
  unfold pop in Hpop. rewrite Hs4 in Hpop. inversion Hpop; subst m st'.
  apply Hall, Hin.
Qed.

(** ** Service declarations *)









End parser.

(** * The properties at given inputs

    The statements above hold for every environment; they are applied here
    to given files and values, in [plain_objects].  The runs below look up
    names that the parser has bound, and names that no object has. *)

#[export] Existing Instance plain_objects.

Lemma make_enum_auto_numbering_witness :
  exists v,
    en_members (_make_enum "m" "E" [("A", Some 5); ("B", None)]) !! 1%nat
      = Some ("B", v) /\
    exists p,
      (en_members (_make_enum "m" "E" [("A", Some 5); ("B", None)])).*2
        !! 0%nat = Some p /\ v = p + 1.
Proof.
  exact (proj1 (proj2 (make_enum_auto_numbering "m" "E"
                         [("A", Some 5); ("B", None)]))
           1%nat "B" None eq_refl).
Defined.

Lemma required_only_when_written_witness :
  f_req (Field 1 true (TBase I32) "a" VNone) = true <->
  fd_req (FieldDecl 1 REQUIRED (DefinitionType (BaseType I32)) "a" None)
    = REQUIRED.
Proof.
  exact (proj1 required_only_when_written
           (FieldDecl 1 REQUIRED (DefinitionType (BaseType I32)) "a" None)
           (PState [("m", [])] "." [] 0 [])
           (PState [("m", [])] "." [] 0 [])
           (Field 1 true (TBase I32) "a" VNone) eq_refl).
Defined.

Lemma cast_list_skips_elements_witness :
  cast (TList (TBase I32)) (VRef 0) [OList [VStr "oops"]]
  = (Ok (VRef 0), [OList [VStr "oops"]]).
Proof.
  exact (proj1 cast_list_skips_elements (TBase I32) _cast_i32 0%nat
           [VStr "oops"] [OList [VStr "oops"]] eq_refl eq_refl).
Defined.

Lemma result_class_always_has_success_witness :
  exists g rc,
    g ∈ [Func true TVoid "f" [] []] /\
    fn_name g = "f" /\
    service_getattr
      (ServiceCls "s" "Svc" None
         [("f_args", StructCls 0 "s" "f_args" TPayload [] [] [] None);
          ("f_result",
           StructCls 1 "s" "f_result" TPayload
             [(0, (TVoid, "success", false))]
             [("success", VNone)] [] (Some true))]
         ["f"])
      "f_result" = Some rc /\
    dict_get Z.eqb (thrift_spec rc) 0 = Some (fn_type g, "success", false) /\
    head (default_spec rc) = Some ("success", VNone) /\
    oneway rc = Some (fn_oneway g).
Proof.
  apply (proj1 result_class_always_has_success "s" "Svc" 0%nat 2%nat
           [Func true TVoid "f" [] []] None _ eq_refl
           (Func true TVoid "f" [] [])).
  left.
Defined.

(** C3 as stated fails: the [_result] class of a [void] method has a field
    with id 0 named [success]. *)
Lemma success_field_of_void_method :
  ~ (forall (module : string) (cid : nat) (f : func)
            (args_cls rc : struct_cls),
       make_func_classes module cid f = Ok (args_cls, rc) ->
       (exists t req, dict_get Z.eqb (thrift_spec rc) 0
                      = Some (t, "success", req)) ->
       fn_type f <> TVoid).
Proof.
  intros H.
  refine (H "s" 0%nat (Func true TVoid "f" [] []) _ _ eq_refl _ eq_refl).
  exists TVoid, false. reflexivity.
Qed.

Lemma struct_S_two_fields_not_required_witness :
  p_struct "S" struct_S_fields (PState [("s", [])] "." [] 0 [])
  = (Ok tt,
     PState [("s", [("S", EStruct (class_S "s" 0 false))])] "." [] 1 []).
Proof.
  exact (proj1 (proj1 struct_S_two_fields_not_required
                  (PState [("s", [])] "." [] 0 []) "s" [] [] 0%nat
                  eq_refl eq_refl)).
Defined.

(** C4 as stated fails: the two fields of [S] are not required. *)
Lemma struct_S_fields_required_fails :
  ~ (exists (m : pymodule) (st : pstate) (c : struct_cls),
       parse 1 (one_file "s.thrift" doc_struct_S) "s.thrift" None None
         initial_state = (Ok m, st) /\
       dict_get String.eqb m.2 "S" = Some (EStruct c) /\
       (thrift_spec c).*1 = [1; 2] /\
       Forall (fun e : Z * (ttype * string * bool) => e.2.2 = true)
         (thrift_spec c)).
Proof.
  intros (m & st & c & Hp & Hget & _ & Hreq).
  change (parse 1 (one_file "s.thrift" doc_struct_S) "s.thrift" None None
            initial_state)
    with (Ok ("s", [("S", EStruct (class_S "s" 0 false))]),
          PState [] "." [] 1 ["s.thrift"]) in Hp.
  inversion Hp; subst m st. simpl in Hget. inversion Hget; subst c.
  simpl in Hreq. inversion Hreq; subst. discriminate.
Qed.





Lemma include_dir_is_kept_between_calls_witness :
  (opened (PState [] "/inc" [] 0 []) ++ ["main.thrift"; "/inc/c.thrift"])
    `prefix_of`
    opened (parse 2 fs_two_dirs "main.thrift" None None
              (PState [] "/inc" [] 0 [])).2.
Proof.
  exact (proj1 (proj2 (proj2 include_dir_is_kept_between_calls)) fs_two_dirs
           0%nat
           "main.thrift" None "c.thrift" [] []
           (Document [] [Enum "There" [("A", None)]])
           (PState [] "/inc" [] 0 []) eq_refl eq_refl I eq_refl eq_refl).
Defined.

(** C9 as stated fails: after a call that gave [include_dir = "/inc"], a
    call that omits [include_dir] reads [/inc/c.thrift] for
    [include "c.thrift"], and not the [c.thrift] of the current
    directory. *)
Lemma include_dir_omitted_after_call :
  opened (parse 2 fs_two_dirs "main.thrift" None None state_after_inc).2
  = opened state_after_inc ++ ["main.thrift"; "/inc/c.thrift"] /\
  os_path_join "." "c.thrift" = "./c.thrift" /\
  ("./c.thrift"
     ∉ opened (parse 2 fs_two_dirs "main.thrift" None None
                 state_after_inc).2) /\
  (parse 2 fs_two_dirs "main.thrift" None None state_after_inc).1
  = Ok ("main",
        [("c", EModule "c"
                 [("There", EEnum (_make_enum "c" "There" [("A", None)]))])]).
Proof.
  split; [reflexivity|]. split; [reflexivity|]. split.
  - vm_compute. intros H.
    repeat (apply elem_of_cons in H as [H|H]; [discriminate|]).
    inversion H.
  - reflexivity.
Qed.

Lemma parse_failure_leaves_modules_witness :
  (List.length (thrift_stack initial_state)
   < List.length
       (thrift_stack
          (parse 1 (one_file "e.thrift" doc_enum_const) "e.thrift" None None
             initial_state).2))%nat /\
  thrift_stack initial_state
    `suffix_of`
    thrift_stack
      (parse 1 (one_file "e.thrift" doc_enum_const) "e.thrift" None None
         initial_state).2.
Proof.
  apply (parse_failure_leaves_modules (one_file "e.thrift" doc_enum_const)
           0%nat "e.thrift" None None initial_state _
           (ThriftParserError (NoNamedValue "E" (VInt 0)))).
  - reflexivity.
  - exists doc_enum_const. reflexivity.
  - exact I.
  - reflexivity.
Defined.

Lemma self_include_exhausts_recursion_witness :
  (parse 5 (one_file "./a.thrift" (Document [Include "a.thrift"] []))
     "./a.thrift" None None initial_state).1
  = Raise RecursionError.
Proof.
  exact (self_include_exhausts_recursion
           (one_file "./a.thrift" (Document [Include "a.thrift"] []))
           "./a.thrift" "a.thrift" [] [] 5%nat None initial_state
           eq_refl eq_refl I eq_refl).
Defined.

Lemma const_then_reference_witness :
  exists (ty : ttype) (v val : value) (sa sb : pstate),
    p_field_type i32 (PState [("m", [])] "." [] 0 []) = (Ok ty, sa) /\
    p_const_value (INTCONSTANT 7) sa = (Ok v, sb) /\
    cast ty v (the_heap sb)
    = (Ok val,
       the_heap (PState [("m", [("x", EConst (VInt 7))])] "." [] 0 [])) /\
    p_const_value (ConstRef "x")
      (PState [("m", [("x", EConst (VInt 7))])] "." [] 0 [])
    = (Ok val, PState [("m", [("x", EConst (VInt 7))])] "." [] 0 []).
Proof.
  exact (const_then_reference i32 "x" (INTCONSTANT 7)
           (PState [("m", [])] "." [] 0 [])
           (PState [("m", [("x", EConst (VInt 7))])] "." [] 0 [])
           eq_refl eq_refl).
Defined.

Lemma typedef_then_reference_witness :
  exists ty : ttype,
    p_definition_type (ListType i32) (PState [("m", [])] "." [] 0 [])
    = (Ok ty, PState [("m", [])] "." [] 0 []) /\
    p_ref_type "Ints"
      (PState [("m", [("Ints", EType (TList (TBase I32)))])] "." [] 0 [])
    = (Ok ty,
       PState [("m", [("Ints", EType (TList (TBase I32)))])] "." [] 0 []).
Proof.
  exact (typedef_then_reference (ListType i32) "Ints"
           (PState [("m", [])] "." [] 0 [])
           (PState [("m", [("Ints", EType (TList (TBase I32)))])] "." [] 0 [])
           eq_refl eq_refl).
Defined.

Lemma enum_member_reference_witness :
  p_const_value (ConstRef ("E" +:+ "." +:+ "B"))
    (PState [("m", [("E", EEnum (_make_enum "m" "E"
                                   [("A", Some 5); ("B", None)]))])]
       "." [] 0 [])
  = (Ok (VInt 6),
     PState [("m", [("E", EEnum (_make_enum "m" "E"
                                   [("A", Some 5); ("B", None)]))])]
       "." [] 0 []).
Proof.
  exact (enum_member_reference "m" "E" [("A", Some 5); ("B", None)]
           (PState [("m", [])] "." [] 0 []) _ "B" 6
           eq_refl eq_refl eq_refl eq_refl).
Defined.



Lemma struct_literal_missing_required_witness :
  exists kf,
    kf ∈ _tspec (class_S "m" 0 true) /\ kf.2.1 = true /\
    dict_has py_eq [(VStr "b", VStr "x")] (VStr kf.1) = false /\
    cast (TStruct (class_S "m" 0 true)) (VRef 0)
      [ODict [(VStr "b", VStr "x")]]
    = (Raise (ThriftParserError (FieldRequired kf.1 "S")),
       [ODict [(VStr "b", VStr "x")]]).
Proof.
  apply (struct_literal_missing_required (class_S "m" 0 true) 0%nat
           [(VStr "b", VStr "x")] [ODict [(VStr "b", VStr "x")]] eq_refl).
  exists ("a", (true, TBase I32)). split; [left|]. split; reflexivity.
Defined.

Lemma struct_literal_accepted_witness :
  (forall kf, kf ∈ _tspec class_T -> kf.2.1 = true ->
              dict_has py_eq [(VStr "s", VRef 0)] (VStr kf.1) = true) /\
  Forall (fun key => exists s, key = VStr s /\
                      is_Some (dict_get String.eqb (_tspec class_T) s))
    ([(VStr "s", VRef 0)].*1) /\
  exists (r : loc) (attrs : list (string * value)),
    VRef 3 = VRef r /\ r <> 1%nat /\
    [OList [VInt 1; VInt 1]; ODict [(VStr "s", VRef 2)]; OSet [VInt 1];
     OInst 0 [("s", VRef 2)]] !! r
    = Some (OInst (st_cid class_T) attrs).
Proof.
  exact (struct_literal_accepted class_T 1%nat [(VStr "s", VRef 0)]
           heap_struct_literal _ (VRef 3) eq_refl eq_refl).
Defined.

Lemma struct_cast_idempotent_witness :
  cast (TStruct class_T) (VRef 3)
    [OList [VInt 1; VInt 1]; ODict [(VStr "s", VRef 2)]; OSet [VInt 1];
     OInst 0 [("s", VRef 2)]]
  = (Ok (VRef 3),
     [OList [VInt 1; VInt 1]; ODict [(VStr "s", VRef 2)]; OSet [VInt 1];
      OInst 0 [("s", VRef 2)]]).
Proof.
  exact (struct_cast_idempotent class_T (VRef 1) (VRef 3)
           heap_struct_literal _ eq_refl).
Defined.

Lemma map_literal_checked_witness :
  (cast (TMap (TBase I32) (TBase I32)) (VRef 0)
     [ODict [(VInt 1, VInt 2); (VInt 3, VInt 4)]]).2
  = [ODict [(VInt 1, VInt 2); (VInt 3, VInt 4)]] /\
  ((cast (TMap (TBase I32) (TBase I32)) (VRef 0)
      [ODict [(VInt 1, VInt 2); (VInt 3, VInt 4)]]).1 = Ok (VRef 0) <->
   Forall (fun key =>
             (cast (TBase I32) key
                [ODict [(VInt 1, VInt 2); (VInt 3, VInt 4)]]).1 = Ok key /\
             exists xv,
               dict_get py_eq [(VInt 1, VInt 2); (VInt 3, VInt 4)] key
               = Some xv /\
               (cast (TBase I32) xv
                  [ODict [(VInt 1, VInt 2); (VInt 3, VInt 4)]]).1 = Ok xv)
     ([(VInt 1, VInt 2); (VInt 3, VInt 4)].*1)) /\
  (forall v',
     (cast (TMap (TBase I32) (TBase I32)) (VRef 0)
        [ODict [(VInt 1, VInt 2); (VInt 3, VInt 4)]]).1 = Ok v' ->
     v' = VRef 0).
Proof.
  apply (map_literal_checked (TBase I32) (TBase I32) 0%nat
           [(VInt 1, VInt 2); (VInt 3, VInt 4)]
           [ODict [(VInt 1, VInt 2); (VInt 3, VInt 4)]]
           eq_refl eq_refl eq_refl).
  repeat constructor.
Defined.

Lemma make_struct_tables_witness :
  (exists c,
     _make_struct "m" 0 "S"
       [Field 1 false (TBase I32) "a" VNone;
        Field 1 true (TBase STRING) "a" VNone] TPayload
     = Ok c) /\
  dict_get String.eqb
    (_tspec (StructCls 0 "m" "S" TPayload
               [(1, (TBase STRING, "a", true))]
               [("a", VNone); ("a", VNone)]
               [("a", (true, TBase STRING))] None)) "a"
  = (fun f => (f_req f, f_type f))
      <$> last_with (fun f => String.eqb (f_name f) "a")
            [Field 1 false (TBase I32) "a" VNone;
             Field 1 true (TBase STRING) "a" VNone].
Proof.
  split.
  - apply (proj2 (make_struct_tables "m" 0 "S"
                    [Field 1 false (TBase I32) "a" VNone;
                     Field 1 true (TBase STRING) "a" VNone] TPayload)).
    repeat constructor; discriminate.
  - exact (proj1 (proj2 (proj2 (proj2 (proj2 (proj2
             (proj1 (make_struct_tables "m" 0 "S"
                       [Field 1 false (TBase I32) "a" VNone;
                        Field 1 true (TBase STRING) "a" VNone] TPayload)
                _ eq_refl)))))) "a").
Defined.

Lemma struct_declaration_bound_witness :
  exists c : struct_cls,
    p_ref_type "S"
      (PState [("s", [("S", EStruct (class_S "s" 0 false))])] "." [] 1 [])
    = (Ok (TStruct c),
       PState [("s", [("S", EStruct (class_S "s" 0 false))])] "." [] 1 []) /\
    st_name c = "S" /\ st_base c = TPayload /\
    (default_spec c).*1 = map fd_name struct_S_fields /\
    (forall n, is_Some (dict_get String.eqb (_tspec c) n) <->
               n ∈ map fd_name struct_S_fields).
Proof.
  exact (struct_declaration_bound "S" struct_S_fields TPayload
           (PState [("s", [])] "." [] 0 [])
           (PState [("s", [("S", EStruct (class_S "s" 0 false))])] "." [] 1 [])
           eq_refl eq_refl).
Defined.



Lemma labelled_values_accepted_witness :
  cast (TEnum (_make_enum "m" "E" [("A", Some 5); ("B", None)])) (VInt 5) []
  = (Ok (VInt 5), []) /\
  exists what : string,
    cast (TEnum (_make_enum "m" "E" [("_named_values", Some 1)])) (VInt 1) []
    = (Raise (TypeError what), []).
Proof.
  split.
  - apply (proj1 (proj1 (labelled_values_accepted "m" "E"
                           [("A", Some 5); ("B", None)] [])
                    ltac:(intros H; apply list_elem_of_In in H; simpl in H;
                          intuition discriminate)) "A" 5).
    left.
  - apply (proj2 (labelled_values_accepted "m" "E"
                    [("_named_values", Some 1)] [])).
    left.
Defined.

Lemma scalar_default_checked_witness :
  p_field (FieldDecl 1 NoFieldReq i32 "x" (Some (LITERAL "oops")))
    initial_state
  = (Raise (ThriftParserError (TypeErrorForField "x")), initial_state).
Proof.
  exact (scalar_default_checked 1 NoFieldReq I32 "x" (LITERAL "oops")
           (VStr "oops") initial_state eq_refl).
Defined.

Lemma set_literal_deduplicated_witness :
  exists s,
    cast (TSet (TBase I32)) (VRef 0) [OList [VInt 1; VBool true; VInt 2]]
    = (Ok (VRef 1), [OList [VInt 1; VBool true; VInt 2]] ++ [OSet s]) /\
    pairwise_distinct s /\
    (forall y, y ∈ s -> y ∈ [VInt 1; VBool true; VInt 2]) /\
    (forall x, x ∈ [VInt 1; VBool true; VInt 2] -> set_has s x = true).
Proof.
  exact (proj2 (set_literal_deduplicated (TBase I32) _cast_i32 0%nat
                  [VInt 1; VBool true; VInt 2]
                  [OList [VInt 1; VBool true; VInt 2]] eq_refl)
           eq_refl eq_refl).
Defined.

Lemma parse_argument_checks_witness :
  parse 1 (one_file "s.thrift" doc_struct_S) "s.thrift" (Some "wrong")
    (Some "/inc") initial_state
  = (Raise (ThriftParserError ModuleSuffix),
     PState [] "/inc" [] 0 ["s.thrift"]).
Proof.
  exact (proj2 (proj2 (parse_argument_checks
                         (one_file "s.thrift" doc_struct_S) 0%nat "s.thrift"
                         (Some "wrong") (Some "/inc") initial_state))
           doc_struct_S "wrong" eq_refl eq_refl eq_refl eq_refl).
Defined.

Lemma literal_only_allocates_witness :
  exists (r : loc) (vs : list value),
    VRef 0 = VRef r /\
    (List.length (the_heap (PState [("m", [])] "." [] 0 [])) <= r)%nat /\
    the_heap (PState [("m", [])] "." [OList [VInt 1; VInt 2]] 0 []) !! r
    = Some (OList vs) /\
    List.length vs = List.length [INTCONSTANT 1; INTCONSTANT 2].
Proof.
  exact (proj2 (literal_only_allocates
                  (ConstList [INTCONSTANT 1; INTCONSTANT 2])
                  (PState [("m", [])] "." [] 0 []))
           [INTCONSTANT 1; INTCONSTANT 2] (VRef 0)
           (PState [("m", [])] "." [OList [VInt 1; VInt 2]] 0 [])
           eq_refl eq_refl).
Defined.

Lemma declared_names_bound_witness :
  dict_has String.eqb
    ("a", [("N", EConst (VInt 3)); ("T", EType (TBase I32))]).2
    (unit_name (Typedef (BaseType I32) "T")) = true.
Proof.
  apply (declared_names_bound
           (fun p => if String.eqb p "a.thrift"
                     then Some (Document []
                                  [Const (DefinitionType (BaseType I32)) "N"
                                     (INTCONSTANT 3);
                                   Typedef (BaseType I32) "T"])
                     else None)
           0%nat "a.thrift" None None
           (Document []
              [Const (DefinitionType (BaseType I32)) "N" (INTCONSTANT 3);
               Typedef (BaseType I32) "T"])
           initial_state
           (PState [] "." [] 0 ["a.thrift"])
           ("a", [("N", EConst (VInt 3)); ("T", EType (TBase I32))])
           eq_refl).
  - vm_compute. reflexivity.
  - right. left. reflexivity.
Defined.


Lemma parse_restores_stack_witness :
  name_attr ("main",
             [("c", EModule "c"
                      [("Here", EEnum (_make_enum "c" "Here" [("A", None)]))])])
  = EConst (VStr "main").
Proof.
  exact (proj2 (parse_restores_stack fs_two_dirs 2 "main.thrift" None None
                  initial_state) eq_refl).
Defined.
